(** * CodeBase-Explainer: the API orchestration layer

    A shallow embedding of [src/services/geminiApi.ts] and
    [src/services/githubApi.ts]: prompt construction and truncation, the
    rate limiter, the Gemini client with its retry loop and fallback
    messages, the JSON-to-Mermaid compiler and the GitHub content fetcher.

    JavaScript strings are sequences of UTF-16 code units, JavaScript values of
    type [any] are a tagged union, and the asynchronous functions are programs
    of a small state-and-exception monad whose state is the clock, the module
    variable [lastGeminiCallTime] and the trace of timers and requests. *)

From Stdlib Require Import ZArith Lia Bool String Ascii DecimalString Floats Uint63.
From Stdlib Require DecimalN DecimalPos.
From stdpp Require Import gmap list.
Import ListNotations.

#[local] Set Warnings "-clear-no-such-hyp".

Local Open Scope Z_scope.
Local Open Scope list_scope.

(** ** JavaScript strings *)

Module JsString.

(** A string is the list of its UTF-16 code units; [length], [substring],
    [slice] and the regular expressions without the [u] flag all count code
    units. *)
Definition jsstring : Type := list N.

(** An ASCII literal of the source, one code unit per character. *)
Definition lit (s : string) : jsstring :=
  List.map N_of_ascii (list_ascii_of_string s).

(** The double quote, by its code unit. *)
Definition dq : jsstring := [34%N].

Definition str_length (s : jsstring) : Z := Z.of_nat (length s).

(** [s.substring(start, end)]: both indices are clamped to [0, length] and
    swapped when [start > end]; a missing [end] is the length. *)
Definition substring (s : jsstring) (start : Z) (end_ : option Z) : jsstring :=
  let len := str_length s in
  let clamp x := Z.min (Z.max x 0) len in
  let a := clamp start in
  let b := match end_ with Some e => clamp e | None => len end in
  let from := Z.min a b in
  let to := Z.max a b in
  take (Z.to_nat (to - from)) (drop (Z.to_nat from) s).

(** [s.slice(start, end)] for the non-negative indices the source uses:
    clamped to the length, empty when [start >= end]. *)
Definition slice (s : jsstring) (start end_ : Z) : jsstring :=
  let len := str_length s in
  let a := Z.min (Z.max start 0) len in
  let b := Z.min (Z.max end_ 0) len in
  take (Z.to_nat (b - a)) (drop (Z.to_nat a) s).

(** The decimal numeral of a natural number: [String(n)] for an integer
    [0 <= n < 2^53]. *)
Definition decimal (n : N) : jsstring :=
  lit (NilZero.string_of_uint (N.to_uint n)).

(** [String(z)] for an integer [z] of magnitude below [2^53]. *)
Definition Number_toString_int (z : Z) : jsstring :=
  if z <? 0 then lit "-" ++ decimal (Z.abs_N z) else decimal (Z.to_N z).

(** [s.startsWith(p)]. *)
Fixpoint startsWith (s p : jsstring) {struct p} : bool :=
  match p, s with
  | [], _ => true
  | _ :: _, [] => false
  | c :: p', d :: s' => N.eqb c d && startsWith s' p'
  end.

(** [s.includes(p)]: [p] occurs in [s] as a contiguous run. *)
Fixpoint includes (s p : jsstring) : bool :=
  startsWith s p ||
  match s with
  | [] => false
  | _ :: s' => includes s' p
  end.

(** [s.split(sep)] for a one-unit separator: the fields between the
    occurrences of [sep], never an empty list. *)
Fixpoint split_on (sep : N) (s : jsstring) : list jsstring :=
  match s with
  | [] => [[]]
  | c :: s' =>
      if N.eqb c sep then [] :: split_on sep s'
      else match split_on sep s' with
           | [] => [[c]]
           | field :: fields => (c :: field) :: fields
           end
  end.

(** [parts.join(sep)]. *)
Fixpoint join (sep : jsstring) (parts : list jsstring) : jsstring :=
  match parts with
  | [] => []
  | [p] => p
  | p :: rest => p ++ sep ++ join sep rest
  end.

(** [s.indexOf(c)] for a single unit: the first position, or [-1]. *)
Fixpoint indexOf_from (c : N) (s : jsstring) (i : Z) : Z :=
  match s with
  | [] => -1
  | d :: s' => if N.eqb d c then i else indexOf_from c s' (i + 1)
  end.

Definition indexOf (s : jsstring) (c : N) : Z := indexOf_from c s 0.

(** White space and line terminators, as [String.prototype.trim] strips
    them. *)
Definition is_js_space (c : N) : bool :=
  bool_decide (c ∈ [0x9; 0xA; 0xB; 0xC; 0xD; 0x20; 0xA0; 0x1680; 0x2000; 0x2001;
                    0x2002; 0x2003; 0x2004; 0x2005; 0x2006; 0x2007; 0x2008;
                    0x2009; 0x200A; 0x2028; 0x2029; 0x202F; 0x205F; 0x3000;
                    0xFEFF]%N).

Fixpoint trimStart (s : jsstring) : jsstring :=
  match s with
  | c :: s' => if is_js_space c then trimStart s' else s
  | [] => []
  end.

Definition trim (s : jsstring) : jsstring :=
  rev (trimStart (rev (trimStart s))).

(** [s.replace(/[class]/g, by)] for a class of single code units: every
    unit of the class becomes [by_], the others stay. *)
Definition replace_class (in_class : N -> bool) (by_ : N) (s : jsstring) : jsstring :=
  List.map (fun c => if in_class c then by_ else c) s.

End JsString.
Export JsString.

(** ** JavaScript values *)

Module JsValue.

(** A value of type [any]: what [JSON.parse] and [response.json()] produce,
    [undefined] (the result of reading a missing property), and [Error]
    objects, of which only the [message] is observed. Numbers are IEEE
    doubles. *)
#[warnings="-register-all"] Inductive jsval : Type :=
| JUndefined
| JNull
| JBool (b : bool)
| JNum (x : float)
| JStr (s : jsstring)
| JArr (items : list jsval)
| JObj (props : list (jsstring * jsval))
| JError (message : jsstring).

(** The outcome of an expression or of a call: a value, or a thrown one. *)
Inductive result (A : Type) : Type :=
| Ok (a : A)
| Throw (e : jsval).
Arguments Ok {A} a.
Arguments Throw {A} e.

#[global] Instance result_ret : MRet result := @Ok.
#[global] Instance result_bind : MBind result :=
  fun A B k r => match r with Ok a => k a | Throw e => Throw e end.

(** The [TypeError]s the runtime raises in the modelled code. *)
Inductive type_error : Type :=
| ReadOfNullish (prop : jsstring)   (* [v.prop] with [v] null or undefined *)
| NotAFunction (prop : jsstring)    (* [v.prop(...)] where [v.prop] is not callable *)
| NotPrimitive.                     (* string conversion of an object finds no primitive *)

(** What the host provides and the repository does not define. The text of a
    runtime error, the spelling of a double, [JSON.stringify] and the Unicode
    case mapping belong to the engine, and [parseInt] is taken on integers:
    [None] is [NaN]. *)
Class JSHost : Type := {
  String_toLowerCase : jsstring -> jsstring;
  Number_toString : float -> jsstring;
  JSON_stringify : jsval -> jsstring;      (* [JSON.stringify(v, null, 2)] *)
  parseInt : jsstring -> option Z;
  TypeError_message : type_error -> jsstring;
}.

Definition jsnum (z : Z) : jsval := JNum (PrimFloat.of_uint63 (Uint63.of_Z z)).

(** [ToBoolean]: [undefined], [null], [false], [0], [-0], [NaN] and the empty
    string are falsy. *)
Definition truthy (v : jsval) : bool :=
  match v with
  | JUndefined | JNull => false
  | JBool b => b
  | JNum x => negb (PrimFloat.is_zero x || PrimFloat.is_nan x)
  | JStr s => match s with [] => false | _ => true end
  | JArr _ | JObj _ | JError _ => true
  end.

Definition nullish (v : jsval) : bool :=
  match v with
  | JUndefined | JNull => true
  | _ => false
  end.

(** [a || b]. *)
Definition js_or (a b : jsval) : jsval := if truthy a then a else b.

Definition str_eqb (a b : jsstring) : bool := bool_decide (a = b).

(** An own property of a parsed object. *)
Fixpoint own_prop (props : list (jsstring * jsval)) (k : jsstring) : jsval :=
  match props with
  | [] => JUndefined
  | (k', v) :: rest => if str_eqb k' k then v else own_prop rest k
  end.

(** [v.k] where [v] is known not to be nullish, for the property names the
    source reads: none of them is defined by a prototype, so an object answers
    with its own property, an array and a string with their [length], an error
    with its [message], and everything else with [undefined]. *)
Definition read_prop (v : jsval) (k : jsstring) : jsval :=
  match v with
  | JObj props => own_prop props k
  | JArr items =>
      if str_eqb k (lit "length") then jsnum (Z.of_nat (length items)) else JUndefined
  | JStr s =>
      if str_eqb k (lit "length") then jsnum (Z.of_nat (length s)) else JUndefined
  | JError message =>
      if str_eqb k (lit "message") then JStr message else JUndefined
  | _ => JUndefined
  end.

(** [v?.k]. *)
Definition opt_prop (v : jsval) (k : jsstring) : jsval :=
  if nullish v then JUndefined else read_prop v k.

(** [v?.[0]]. *)
Definition opt_index0 (v : jsval) : jsval :=
  match v with
  | JArr (x :: _) => x
  | JStr (c :: _) => JStr [c]
  | JObj props => own_prop props (lit "0")
  | _ => JUndefined
  end.

(** [a === b] against a string constant. *)
Definition is_string (v : jsval) (s : jsstring) : bool :=
  match v with
  | JStr s' => str_eqb s' s
  | _ => false
  end.

(** [a === n] against a numeric constant. *)
Definition is_number (v : jsval) (z : Z) : bool :=
  match v with
  | JNum x => PrimFloat.eqb x (PrimFloat.of_uint63 (Uint63.of_Z z))
  | _ => false
  end.

Definition isArray (v : jsval) : bool :=
  match v with
  | JArr _ => true
  | _ => false
  end.

Section WithHost.
Context `{JSHost}.

Definition TypeError (e : type_error) : jsval := JError (TypeError_message e).

(** [v.k]: reading a property of [null] or [undefined] throws. *)
Definition get_prop (v : jsval) (k : jsstring) : result jsval :=
  if nullish v then Throw (TypeError (ReadOfNullish k)) else Ok (read_prop v k).

(** The receiver of a call [v.method(...)] of a method that only strings
    have: on any other value the call itself throws. *)
Definition string_receiver (v : jsval) (method : jsstring) : result jsstring :=
  match v with
  | JStr s => Ok s
  | JUndefined | JNull => Throw (TypeError (ReadOfNullish method))
  | _ => Throw (TypeError (NotAFunction method))
  end.

(** [v.replace(/[class]/g, by)]. *)
Definition call_replace (v : jsval) (in_class : N -> bool) (by_ : N) : result jsstring :=
  match string_receiver v (lit "replace") with
  | Ok s => Ok (replace_class in_class by_ s)
  | Throw e => Throw e
  end.

Definition has_own (props : list (jsstring * jsval)) (k : jsstring) : bool :=
  existsb (fun kv => str_eqb (fst kv) k) props.

(** The string conversion of a template literal. An array joins the
    conversions of its elements with commas, [null] and [undefined] elements
    giving nothing; an object is [[object Object]] unless an own [toString]
    property hides the inherited method, in which case no primitive is
    found. The values converted in the modelled code come from JSON; an
    [Error], whose name is not modelled, is given the name [Error]. *)
Fixpoint ToString (v : jsval) : result jsstring :=
  match v with
  | JUndefined => Ok (lit "undefined")
  | JNull => Ok (lit "null")
  | JBool b => Ok (if b then lit "true" else lit "false")
  | JNum x => Ok (Number_toString x)
  | JStr s => Ok s
  | JArr items =>
      (fix elements (l : list jsval) : result jsstring :=
         match l with
         | [] => Ok []
         | x :: rest =>
             match (if nullish x then Ok [] else ToString x) with
             | Throw e => Throw e
             | Ok sx =>
                 match rest with
                 | [] => Ok sx
                 | _ :: _ =>
                     match elements rest with
                     | Throw e => Throw e
                     | Ok srest => Ok (sx ++ lit "," ++ srest)
                     end
                 end
             end
         end) items
  | JObj props =>
      if has_own props (lit "toString") then Throw (TypeError NotPrimitive)
      else Ok (lit "[object Object]")
  | JError message => Ok (lit "Error: " ++ message)
  end.

(** [v.includes(x)] with a string argument: a substring test on a string,
    a membership test on an array; no other value has the method. *)
Definition call_includes (v : jsval) (x : jsstring) : result bool :=
  match v with
  | JStr s => Ok (includes s x)
  | JArr items => Ok (existsb (fun item => is_string item x) items)
  | JUndefined | JNull => Throw (TypeError (ReadOfNullish (lit "includes")))
  | _ => Throw (TypeError (NotAFunction (lit "includes")))
  end.

(** An outcome that is a value or a [TypeError] of the runtime. *)
Definition ok_or_type_error {A : Type} (r : result A) : Prop :=
  match r with
  | Ok _ => True
  | Throw e => exists te, e = TypeError te
  end.

End WithHost.

End JsValue.
Export JsValue.

(** ** Effects: the clock, timers and the network *)

Module Effects.

(** A request as [fetch] receives it: the URL and, for a POST, the object
    whose serialization is the body. *)
Record request : Type := {
  req_url : jsstring;
  req_post : option jsval;
}.

(** A response as the source observes it: [ok] is derived from the status,
    [json()] and [text()] either resolve or reject, and of the headers only
    [Retry-After] is read. *)
Record response : Type := {
  status : Z;
  statusText : jsstring;
  retryAfter : option jsstring;     (* [headers.get('Retry-After')], [None] is null *)
  json : result jsval;
  text : result jsstring;
}.

Definition ok (r : response) : bool := (200 <=? status r) && (status r <=? 299).

(** [await fetch(...)] resolves with a response, or rejects. *)
Inductive fetch_outcome : Type :=
| Responds (r : response)
| Rejects (e : jsval).

(** The environment: what the [n]-th request meets, and how many
    milliseconds pass, beyond a timer's own delay, at the [k]-th suspension
    point or clock reading. *)
Record env : Type := {
  respond : nat -> request -> fetch_outcome;
  elapsed : nat -> Z;
}.

(** What a run leaves behind, in order. *)
Inductive event : Type :=
| EvTimer (ms : Z)            (* [await new Promise(r => setTimeout(r, ms))] *)
| EvFetch (req : request).    (* [await fetch(req)] *)

(** The state of a run: the wall clock, the module variable
    [lastGeminiCallTime] (initially 0), the events so far, and how often the
    environment has been consulted. *)
Record world : Type := {
  now : Z;
  lastGeminiCallTime : Z;
  trace : list event;
  ticks : nat;
  requests : nat;
}.

Definition initial_world (t0 : Z) : world :=
  {| now := t0; lastGeminiCallTime := 0; trace := []; ticks := 0; requests := 0 |}.

(** An asynchronous function: a state transformer that returns or throws. *)
Definition M (A : Type) : Type := world -> result A * world.

Definition ret {A} (a : A) : M A := fun w => (Ok a, w).

Definition throw {A} (e : jsval) : M A := fun w => (Throw e, w).

Definition bind {A B} (m : M A) (k : A -> M B) : M B :=
  fun w =>
    match m w with
    | (Ok a, w') => k a w'
    | (Throw e, w') => (Throw e, w')
    end.

(** [try { m } catch (e) { handler e }]. *)
Definition try_catch {A} (m : M A) (handler : jsval -> M A) : M A :=
  fun w =>
    match m w with
    | (Ok a, w') => (Ok a, w')
    | (Throw e, w') => handler e w'
    end.

(** A pure computation that may throw, run inside an asynchronous one. *)
Definition lift {A} (r : result A) : M A := fun w => (r, w).

Definition pass (E : env) (w : world) : Z := elapsed E (ticks w).

(** [Date.now()]. *)
Definition Date_now (E : env) : M Z :=
  fun w =>
    let t := now w + pass E w in
    (Ok t, {| now := t; lastGeminiCallTime := lastGeminiCallTime w;
              trace := trace w; ticks := S (ticks w); requests := requests w |}).

(** [await new Promise(resolve => setTimeout(resolve, ms))]: the timer
    fires [ms] milliseconds later, or later still by what the environment
    lets pass; a negative delay counts as 0. *)
Definition sleep (E : env) (ms : Z) : M unit :=
  fun w =>
    (Ok tt, {| now := now w + Z.max ms 0 + pass E w;
               lastGeminiCallTime := lastGeminiCallTime w;
               trace := trace w ++ [EvTimer ms];
               ticks := S (ticks w); requests := requests w |}).

(** [await fetch(req)]. *)
Definition fetch (E : env) (req : request) : M response :=
  fun w =>
    let w' := {| now := now w + pass E w;
                 lastGeminiCallTime := lastGeminiCallTime w;
                 trace := trace w ++ [EvFetch req];
                 ticks := S (ticks w); requests := S (requests w) |} in
    (match respond E (requests w) req with
     | Responds r => Ok r
     | Rejects e => Throw e
     end, w').

(** [lastGeminiCallTime = t]. *)
Definition set_lastGeminiCallTime (t : Z) : M unit :=
  fun w =>
    (Ok tt, {| now := now w; lastGeminiCallTime := t; trace := trace w;
               ticks := ticks w; requests := requests w |}).

Definition get_lastGeminiCallTime : M Z := fun w => (Ok (lastGeminiCallTime w), w).

(** The requests of a trace, in order. *)
Definition fetches (tr : list event) : list request :=
  flat_map (fun ev => match ev with EvFetch r => [r] | EvTimer _ => [] end) tr.

(** The timers of a trace, in order. *)
Definition timers (tr : list event) : list Z :=
  flat_map (fun ev => match ev with EvTimer ms => [ms] | EvFetch _ => [] end) tr.

End Effects.
Export Effects.

#[global] Instance M_ret : MRet M := @ret.
#[global] Instance M_bind : MBind M := fun A B k m => bind m k.

(** ** The rate limiter ([geminiApi.ts], lines 2-15) *)

Definition MIN_CALL_INTERVAL : Z := 1000.

Definition waitForRateLimit (E : env) : M unit :=
  now_ ← Date_now E;
  last ← get_lastGeminiCallTime;
  let timeSinceLastCall := now_ - last in
  (if timeSinceLastCall <? MIN_CALL_INTERVAL
   then
     let waitTime := MIN_CALL_INTERVAL - timeSinceLastCall in
     sleep E waitTime
   else ret tt);;
  granted ← Date_now E;
  set_lastGeminiCallTime granted.

(** ** The Gemini client ([geminiApi.ts], lines 506-656) *)

Module GeminiClient.

Record Explanation : Type := {
  content : jsstring;
  codeSnippets : list jsstring;
}.

Definition fence : jsstring := lit "```".

(** The text before the first fence and the text after it. *)
Fixpoint split_at_fence (s : jsstring) : option (jsstring * jsstring) :=
  if startsWith s fence then Some ([], drop 3 s)
  else match s with
       | [] => None
       | c :: s' =>
           match split_at_fence s' with
           | Some (before, after) => Some (c :: before, after)
           | None => None
           end
       end.

(** The matches of [/```[\s\S]*?```/g], left to right: from a fence to the
    nearest fence after it, then on from the end of the match. Each match
    consumes at least six units, so the length of the text bounds their
    number. *)
Fixpoint fenced_blocks (fuel : nat) (s : jsstring) : list jsstring :=
  match fuel with
  | O => []
  | S fuel' =>
      match split_at_fence s with
      | None => []
      | Some (_, opened) =>
          match split_at_fence opened with
          | None => []
          | Some (inside, rest) =>
              (fence ++ inside ++ fence) :: fenced_blocks fuel' rest
          end
      end
  end.

Section WithHost.
Context `{JSHost}.

(** [text.match(regex) || []]. *)
Definition extractCodeSnippets (text : jsstring) : list jsstring :=
  fenced_blocks (length text) text.

Definition modelNames : list jsstring := [lit "gemini-2.5-flash"].

Definition maxRetries : Z := 2.

Definition gemini_url (modelName apiKey : jsstring) : jsstring :=
  lit "https://generativelanguage.googleapis.com/v1beta/models/"
  ++ modelName
  ++ lit ":generateContent?key="
  ++ apiKey.

#[warnings="-inexact-float"] Definition gemini_request (modelName apiKey prompt : jsstring) : request :=
  {| req_url := gemini_url modelName apiKey;
     req_post := Some (JObj [
       (lit "contents",
        JArr [JObj [(lit "parts", JArr [JObj [(lit "text", JStr prompt)]])]]);
       (lit "generationConfig",
        JObj [(lit "temperature", JNum 0.7%float);
              (lit "maxOutputTokens", jsnum 2048);
              (lit "topK", jsnum 40);
              (lit "topP", JNum 0.95%float)])]) |}.

(** [Math.ceil(x / 1000)] on integers. *)
Definition ceil_div_1000 (x : Z) : Z := - ((- x) / 1000).

(** The text of a number that is an integer or [NaN]. *)
Definition show_number (x : option Z) : jsstring :=
  match x with
  | Some z => Number_toString_int z
  | None => lit "NaN"
  end.

(** The delay a timer makes of a number: [NaN] counts as 0. *)
Definition timer_delay (x : option Z) : Z :=
  match x with
  | Some z => z
  | None => 0
  end.

Definition rate_limit_error (waitTime : option Z) (errorData : jsval) : jsval :=
  JObj [
    (lit "status", jsnum 429);
    (lit "message", JStr (
       lit "Gemini API rate limit exceeded! Free tier: 15 requests/min, 1500/day. Wait "
       ++ show_number (option_map ceil_div_1000 waitTime)
       ++ lit "s. Consider: 1) Wait a minute 2) Use fewer AI features 3) Upgrade API tier"));
    (lit "details", errorData)].

(** How one pass through the body of the retry loop ends. *)
Inductive attempt_result : Type :=
| Returned (e : Explanation)        (* [return] *)
| Continues (lastError : jsval)     (* [continue], or the end of the body *)
| Breaks (lastError : jsval).       (* [break]: on to the next model *)

(** The reason recorded when a response carries no text (lines 593-613). *)
Definition no_text_reason (data : jsval) : result jsval :=
  let candidates := read_prop data (lit "candidates") in
  let finishReason := opt_prop (opt_index0 candidates) (lit "finishReason") in
  if is_string finishReason (lit "SAFETY") then
    Ok (JStr (lit "Content blocked by safety filters"))
  else if is_string finishReason (lit "RECITATION") then
    Ok (JStr (lit "Content blocked due to recitation"))
  else if is_string finishReason (lit "MAX_TOKENS") then
    Ok (JStr (lit "Response too long, truncated"))
  else if truthy finishReason then
    match ToString finishReason with
    | Ok s => Ok (JStr (lit "Generation stopped: " ++ s))
    | Throw e => Throw e
    end
  else if negb (truthy candidates)
          || is_number (read_prop candidates (lit "length")) 0 then
    Ok (JStr (lit "API returned empty candidates array - possible content filter"))
  else
    Ok (JStr (lit "No text in response - check console for details")).

(** [data.candidates?.[0]?.content?.parts?.[0]?.text]. *)
Definition response_text (data : jsval) : jsval :=
  opt_prop
    (opt_index0
       (opt_prop
          (opt_prop (opt_index0 (read_prop data (lit "candidates"))) (lit "content"))
          (lit "parts")))
    (lit "text").

Section WithEnv.
Variable E : env.

(** The body of the [try] block for one attempt (lines 525-621). *)
Definition try_attempt (prompt apiKey modelName : jsstring) (attempt : Z)
  : M attempt_result :=
  (if attempt >? 0
   then
     let waitTime := 2 ^ attempt * 1000 in
     sleep E waitTime
   else ret tt);;
  response ← fetch E (gemini_request modelName apiKey prompt);
  if negb (ok response) then
    let errorData := match json response with Ok v => v | Throw _ => JObj [] end in
    if status response =? 429 then
      let waitTime :=
        match retryAfter response with
        | Some (c :: r) =>
            option_map (fun n => n * 1000) (parseInt (c :: r))
        | _ => Some (2 ^ (attempt + 2) * 1000)
        end in
      let lastError := rate_limit_error waitTime errorData in
      if attempt <? maxRetries - 1 then
        sleep E (timer_delay waitTime);;
        ret (Continues lastError)
      else ret (Breaks lastError)
    else ret (Breaks errorData)
  else
    data ← lift (json response);
    error ← lift (get_prop data (lit "error"));
    if truthy error then ret (Breaks error)
    else
      let text := response_text data in
      if negb (truthy text) then
        lastError ← lift (no_text_reason data);
        ret (Breaks lastError)
      else
        s ← lift (string_receiver text (lit "match"));
        ret (Returned {| content := s; codeSnippets := extractCodeSnippets s |}).

(** One iteration with its [catch] block (lines 622-629). *)
Definition attempt_once (prompt apiKey modelName : jsstring) (attempt : Z)
  : M attempt_result :=
  try_catch (try_attempt prompt apiKey modelName attempt)
    (fun error =>
       if attempt =? maxRetries - 1 then ret (Breaks error)
       else ret (Continues error)).

(** [for (let attempt = ...; attempt < maxRetries; attempt++)], with
    [remaining] the number of iterations left. *)
Fixpoint retry_loop (remaining : nat) (prompt apiKey modelName : jsstring)
    (attempt : Z) (lastError : jsval) : M (Explanation + jsval) :=
  match remaining with
  | O => ret (inr lastError)
  | S remaining' =>
      r ← attempt_once prompt apiKey modelName attempt;
      match r with
      | Returned e => ret (inl e)
      | Breaks lastError' => ret (inr lastError')
      | Continues lastError' =>
          retry_loop remaining' prompt apiKey modelName (attempt + 1) lastError'
      end
  end.

(** [for (const modelName of modelNames)]. *)
Fixpoint model_loop (models : list jsstring) (prompt apiKey : jsstring)
    (lastError : jsval) : M (Explanation + jsval) :=
  match models with
  | [] => ret (inr lastError)
  | modelName :: rest =>
      r ← retry_loop (Z.to_nat maxRetries) prompt apiKey modelName 0 lastError;
      match r with
      | inl e => ret (inl e)
      | inr lastError' => model_loop rest prompt apiKey lastError'
      end
  end.

End WithEnv.

Definition rate_limit_message : jsstring :=
  [0x26A0; 0xFE0F]%N
  ++ lit " **Gemini API Rate Limit Exceeded**

**Free Tier Limits:**
- 15 requests per minute
- 1500 requests per day

**What to do:**
1. "
  ++ [0x23F3]%N
  ++ lit " Wait 60 seconds and try again
2. "
  ++ [0xD83D; 0xDD04]%N
  ++ lit " Reload the page to reset
3. "
  ++ [0xD83D; 0xDCC9]%N
  ++ lit " Use AI features sparingly
4. "
  ++ [0xD83D; 0xDCB0]%N
  ++ lit " Upgrade your API tier at [Google AI Studio](https://aistudio.google.com)

**Tip:** The batch function explanation feature reduces API calls significantly!".

Definition all_models_failed_message (errorMessage : jsstring) : jsstring :=
  [0x26A0; 0xFE0F]%N
  ++ lit " Unable to generate AI explanation.

**All API models failed.** Please check:

- "
  ++ [0x2713]%N
  ++ lit " Your API key is valid and active
- "
  ++ [0x2713]%N
  ++ lit " You have internet connection
- "
  ++ [0x2713]%N
  ++ lit " The Gemini API is accessible from your location
- "
  ++ [0x2713]%N
  ++ lit " Your API key has proper permissions

**Models tried:** "
  ++ join (lit ", ") modelNames
  ++ lit "

**Last error:** "
  ++ errorMessage
  ++ lit "

Try refreshing the page or checking your API key at: https://aistudio.google.com/app/apikey".

(** [lastError?.status === 429 || lastError?.message?.includes('rate limit')]:
    the second operand is evaluated only when the first is false, and its
    call is made whenever [message] is neither [null] nor [undefined]. *)
Definition is_rate_limit_error (lastError : jsval) : result bool :=
  if is_number (opt_prop lastError (lit "status")) 429 then Ok true
  else
    let message := opt_prop lastError (lit "message") in
    if nullish message then Ok false
    else call_includes message (lit "rate limit").

(** After the loops (lines 633-648). *)
Definition exhausted (lastError : jsval) : result Explanation :=
  let errorMessage :=
    if truthy lastError then JSON_stringify lastError else lit "Unknown error" in
  match is_rate_limit_error lastError with
  | Throw e => Throw e
  | Ok true => Ok {| content := rate_limit_message; codeSnippets := [] |}
  | Ok false =>
      Ok {| content := all_models_failed_message errorMessage; codeSnippets := [] |}
  end.

(** A last error whose [message] can be searched: absent, a string or an
    array. *)
Definition message_searchable (lastError : jsval) : bool :=
  match opt_prop lastError (lit "message") with
  | JUndefined | JNull | JStr _ | JArr _ => true
  | _ => false
  end.

Definition callGeminiAPI (E : env) (prompt apiKey : jsstring) : M Explanation :=
  match apiKey with
  | [] => throw (JError (lit "Gemini API key is required"))
  | _ :: _ =>
      waitForRateLimit E;;
      r ← model_loop E modelNames prompt apiKey JNull;
      match r with
      | inl e => ret e
      | inr lastError => lift (exhausted lastError)
      end
  end.

End WithHost.

End GeminiClient.
Export GeminiClient.

(** ** Prompt construction and truncation ([geminiApi.ts], lines 59-248) *)

Module Prompts.

(** [s.split(sep).pop()]: the last field. *)
Definition last_field (sep : N) (s : jsstring) : jsstring :=
  List.last (split_on sep s) [].

(** The first [n] and the last [n] units of a text. *)
Definition head_units (n : Z) (content : jsstring) : jsstring :=
  take (Z.to_nat n) content.

Definition tail_units (n : Z) (content : jsstring) : jsstring :=
  drop (Z.to_nat (str_length content - n)) content.

(** The marker of [generateFileExplanation] between the head and the tail
    (line 79); [omitted] is [charCount - maxChars]. *)
Definition explanation_marker (omitted : Z) : jsstring :=
  lit "

... [middle section truncated - "
  ++ Number_toString_int omitted
  ++ lit " characters omitted] ...

".

(** The marker of [generateCodeQuestionResponse] (line 173). *)
Definition question_marker : jsstring :=
  lit "

... [middle section omitted] ...

".

(** The head-and-tail window of [generateFileExplanation] (lines 70-80):
    the text to send and whether it was truncated. *)
Definition explanation_window (fileContent : jsstring) : jsstring * bool :=
  let charCount := str_length fileContent in
  let maxChars := 15000 in
  if charCount >? maxChars then
    let halfLimit := maxChars / 2 in
    let start := substring fileContent 0 (Some halfLimit) in
    let end_ := substring fileContent (str_length fileContent - halfLimit) None in
    (start ++ explanation_marker (charCount - maxChars) ++ end_, true)
  else (fileContent, false).

(** The head-and-tail window of [generateCodeQuestionResponse]
    (lines 162-174). *)
Definition question_window (fileContent : jsstring) : jsstring * bool :=
  let charCount := str_length fileContent in
  let maxChars := 12000 in
  if charCount >? maxChars then
    let halfLimit := maxChars / 2 in
    let start := substring fileContent 0 (Some halfLimit) in
    let end_ := substring fileContent (str_length fileContent - halfLimit) None in
    (start ++ question_marker ++ end_, true)
  else (fileContent, false).

Definition truncation_note (isTruncated : bool) : jsstring :=
  if isTruncated
  then lit "- Note: Middle section truncated, but you have beginning and end for full understanding
"
  else lit "- Status: Complete file content provided
".

Definition coverage_phrase (isTruncated : bool) : jsstring :=
  if isTruncated then lit "substantial portions of" else lit "the complete".

Definition coverage_word (isTruncated : bool) : jsstring :=
  if isTruncated then lit "SUBSTANTIAL" else lit "COMPLETE".

(** The part of the file prompt before the embedded text. *)
Definition file_prompt_head (filePath repoName : jsstring) (lineCount charCount : Z)
    (isTruncated : bool) : jsstring :=
  lit "You are analyzing the file "
  ++ dq
  ++ filePath
  ++ dq
  ++ lit " from the "
  ++ repoName
  ++ lit " repository.

FILE STATISTICS:
- Lines: "
  ++ Number_toString_int lineCount
  ++ lit "
- Characters: "
  ++ Number_toString_int charCount
  ++ lit "
"
  ++ truncation_note isTruncated
  ++ lit "

FILE CONTENT:
```
".

(** The part of the file prompt after the embedded text, up to the
    requested sections. *)
Definition file_prompt_tail (isTruncated : bool) : jsstring :=
  lit "
```

IMPORTANT INSTRUCTIONS:
- You have "
  ++ coverage_phrase isTruncated
  ++ lit " file content above
- DO NOT mention "
  ++ dq
  ++ lit "incomplete context"
  ++ dq
  ++ lit ", "
  ++ dq
  ++ lit "limited context"
  ++ dq
  ++ lit ", or "
  ++ dq
  ++ lit "need more information"
  ++ dq
  ++ lit "
- Analyze and explain based on what IS provided
- Be thorough and detailed in your explanation
- Focus on what the code DOES and WHY it matters

".

Definition sections_code : jsstring :=
  lit "Provide a comprehensive explanation covering:

1. **Purpose & Overview**: What this file does and its role in the project (2-3 sentences)
2. **Key Components**: Main functions, classes, or components with their purposes
3. **Implementation Details**: Important patterns, algorithms, or logic flows
4. **Dependencies**: Key imports and how they're used
5. **Notable Features**: Any interesting patterns, optimizations, or important details

Be thorough and detailed. Explain the logic and reasoning behind the code.".

Definition sections_json : jsstring :=
  lit "Provide a detailed explanation covering:

1. **Configuration Purpose**: What this configuration controls (2-3 sentences)
2. **Key Settings**: Important configuration values and their meanings
3. **Impact**: How these settings affect the project
4. **Notable Entries**: Any particularly important or interesting configurations

Be thorough and explain the significance of the configuration.".

Definition sections_markdown : jsstring :=
  lit "Provide a comprehensive summary covering:

1. **Document Purpose**: What this document covers (2-3 sentences)
2. **Main Sections**: Overview of the major sections and topics
3. **Key Information**: Important details, instructions, or guidelines
4. **Highlights**: Notable points that developers should know

Be thorough and informative.".

Definition sections_config : jsstring :=
  lit "Provide a detailed explanation covering:

1. **Configuration Purpose**: What this configuration file controls (2-3 sentences)
2. **Key Settings**: Important configuration values and their effects
3. **Structure**: How the configuration is organized
4. **Impact**: How these settings affect the project

Be thorough and explain the configuration's significance.".

Definition sections_other : jsstring :=
  lit "Provide a comprehensive explanation covering:

1. **Purpose**: What this file does and why it exists (2-3 sentences)
2. **Content Analysis**: Key elements and their purposes
3. **Structure**: How the file is organized
4. **Important Details**: Notable aspects developers should understand

Be thorough and detailed in your explanation.".

Definition question_prompt_head (question filePath repoName : jsstring)
    (isTruncated : bool) : jsstring :=
  lit "You are answering a question about the file "
  ++ dq
  ++ filePath
  ++ dq
  ++ lit " from the "
  ++ repoName
  ++ lit " repository.

USER QUESTION: "
  ++ dq
  ++ question
  ++ dq
  ++ lit "

"
  ++ coverage_word isTruncated
  ++ lit " FILE CONTENT:
```
".

Definition question_prompt_tail : jsstring :=
  lit "
```

INSTRUCTIONS:
- Answer the question directly and thoroughly based on the code provided
- DO NOT mention "
  ++ dq
  ++ lit "incomplete context"
  ++ dq
  ++ lit " or "
  ++ dq
  ++ lit "need more information"
  ++ dq
  ++ lit " - work with what's provided
- Reference specific code sections when relevant
- Be detailed and helpful
- If the answer requires context from the visible code, explain it fully

Provide a clear, comprehensive answer:".

Section WithHost.
Context `{JSHost}.

(** The requested sections, chosen by the extension (lines 104-150). *)
Definition requested_sections (fileExtension : jsstring) : jsstring :=
  if bool_decide (fileExtension ∈ [lit "py"; lit "pyw"; lit "js"; lit "jsx"; lit "ts"; lit "tsx"])
  then sections_code
  else if str_eqb fileExtension (lit "json") then sections_json
  else if str_eqb fileExtension (lit "md") then sections_markdown
  else if bool_decide (fileExtension ∈ [lit "toml"; lit "yaml"; lit "yml"; lit "xml"])
  then sections_config
  else sections_other.

(** The prompt of [generateFileExplanation] (lines 65-150). *)
Definition file_explanation_prompt (filePath fileContent repoName : jsstring) : jsstring :=
  let fileExtension := String_toLowerCase (last_field 46 filePath) in
  let lineCount := Z.of_nat (length (split_on 10 fileContent)) in
  let charCount := str_length fileContent in
  let '(contentToSend, isTruncated) := explanation_window fileContent in
  file_prompt_head filePath repoName lineCount charCount isTruncated
  ++ contentToSend
  ++ file_prompt_tail isTruncated
  ++ requested_sections fileExtension.

(** The prompt of [generateCodeQuestionResponse] (lines 162-192). *)
Definition code_question_prompt (question filePath fileContent repoName : jsstring)
  : jsstring :=
  let '(contentToSend, isTruncated) := question_window fileContent in
  question_prompt_head question filePath repoName isTruncated
  ++ contentToSend
  ++ question_prompt_tail.

Definition generateFileExplanation (E : env)
    (filePath fileContent repoName apiKey : jsstring) : M Explanation :=
  callGeminiAPI E (file_explanation_prompt filePath fileContent repoName) apiKey.

Definition generateCodeQuestionResponse (E : env)
    (question filePath fileContent repoName apiKey : jsstring) : M Explanation :=
  callGeminiAPI E (code_question_prompt question filePath fileContent repoName) apiKey.

End WithHost.

End Prompts.
Export Prompts.

(** ** Batch function explanations ([geminiApi.ts], lines 212-248) *)

Module BatchExplanations.

Record func : Type := {
  name : jsstring;
  code : jsstring;
}.

(** [functions.map((func, idx) => ...)], [idx] counted from [first]. *)
Fixpoint function_blocks (first : Z) (functions : list func) : list jsstring :=
  match functions with
  | [] => []
  | f :: rest =>
      let idx := first in
      (lit "FUNCTION_"
       ++ Number_toString_int (idx + 1)
       ++ lit ": "
       ++ name f
       ++ lit "
```
"
       ++ slice (code f) 0 500
       ++ lit "
```")
      :: function_blocks (first + 1) rest
  end.

Definition batch_prompt (functions : list func) : jsstring :=
  let functionsText := join (lit "

") (function_blocks 0 functions) in
  lit "Explain each function below in 1-2 sentences. Be specific about what each does.

"
  ++ functionsText
  ++ lit "

Respond in this exact format:
FUNCTION_1: [explanation]
FUNCTION_2: [explanation]
...".

(** [explanations[key] = value] on an object literal: the key [__proto__]
    reaches the inherited setter, which ignores a string. *)
Definition set_entry (key value : jsstring) (explanations : gmap jsstring jsstring)
  : gmap jsstring jsstring :=
  if str_eqb key (lit "__proto__") then explanations
  else <[key := value]> explanations.

(** [lines.find(l => l.trim().startsWith(pattern))]. *)
Definition find_line (pattern : jsstring) (lines : list jsstring) : option jsstring :=
  List.find (fun l => startsWith (trim l) pattern) lines.

(** [functions.forEach((func, idx) => ...)] (lines 236-245). *)
Fixpoint collect (first : Z) (functions : list func) (lines : list jsstring)
    (explanations : gmap jsstring jsstring) : gmap jsstring jsstring :=
  match functions with
  | [] => explanations
  | f :: rest =>
      let idx := first in
      let pattern := lit "FUNCTION_"
        ++ Number_toString_int (idx + 1)
        ++ lit ":" in
      let explanations' :=
        match find_line pattern lines with
        | Some (c :: l) =>
            let line := c :: l in
            let explanation :=
              trim (substring line (indexOf line 58 + 1) None) in
            set_entry (name f) explanation explanations
        | _ => set_entry (name f) (lit "No explanation available") explanations
        end in
      collect (first + 1) rest lines explanations'
  end.

Section WithHost.
Context `{JSHost}.

Definition generateBatchFunctionExplanations (E : env)
    (functions : list func) (apiKey : jsstring) : M (gmap jsstring jsstring) :=
  match functions with
  | [] => ret ∅
  | _ :: _ =>
      result ← callGeminiAPI E (batch_prompt functions) apiKey;
      let lines := split_on 10 (content result) in
      ret (collect 0 functions lines ∅)
  end.

End WithHost.

End BatchExplanations.
Export BatchExplanations.

(** ** The diagram compiler ([geminiApi.ts], lines 451-504) *)

Module DiagramCompiler.

Definition nl : jsstring := [10%N].

(** What one [mermaid += ...] statement appends. *)
Inductive line : Type :=
| LHeader                                   (* ['graph TD\n'] *)
| LSubgraph (safeModLabel : jsstring)
| LNode (safeId safeLabel : jsstring)
| LEnd
| LEdge (fromId arrow toId : jsstring)
| LStyle.                                   (* the [classDef default] directive *)

Definition style_directive : jsstring :=
  nl ++ lit "    classDef default fill:#1f2937,stroke:#3b82f6,stroke-width:2px,color:#fff;".

Definition render_line (l : line) : jsstring :=
  match l with
  | LHeader => lit "graph TD" ++ nl
  | LSubgraph safeModLabel =>
      lit "    subgraph " ++ dq ++ safeModLabel ++ dq ++ nl
  | LNode safeId safeLabel =>
      lit "        " ++ safeId ++ lit "[" ++ dq ++ safeLabel ++ dq ++ lit "]" ++ nl
  | LEnd => lit "    end" ++ nl
  | LEdge fromId arrow toId =>
      lit "    " ++ fromId ++ lit " " ++ arrow ++ lit " " ++ toId ++ nl
  | LStyle => style_directive
  end.

(** The string [mermaid] after the given appends. *)
Definition render (ls : list line) : jsstring := concat (List.map render_line ls).

(** [/[^a-zA-Z0-9_]/]. *)
Definition unsafe_id_unit (c : N) : bool :=
  negb (((97 <=? c) && (c <=? 122)) || ((65 <=? c) && (c <=? 90))
        || ((48 <=? c) && (c <=? 57)) || (c =? 95))%N.

(** The class of the second pattern: the double quote alone. *)
Definition is_double_quote (c : N) : bool := (c =? 34)%N.

Definition underscore : N := 95.
Definition single_quote : N := 39.

(** The two locals the loops update: the text so far and the set of
    declared ids. *)
Record compiler_state : Type := {
  mermaid : list line;
  validIds : gset jsstring;
}.

Definition emit (l : line) (st : compiler_state) : compiler_state :=
  {| mermaid := mermaid st ++ [l]; validIds := validIds st |}.

(** [items.forEach(f)], where [f] updates the state or throws. *)
Fixpoint forEach {A S : Type} (f : A -> S -> result S) (items : list A) (st : S)
  : result S :=
  match items with
  | [] => Ok st
  | x :: rest =>
      match f x st with
      | Ok st' => forEach f rest st'
      | Throw e => Throw e
      end
  end.

Definition has (ids : gset jsstring) (id : jsstring) : bool := bool_decide (id ∈ ids).

Section WithHost.
Context `{JSHost}.

(** The body of [mod.components.forEach] (lines 471-480). *)
Definition add_component (comp : jsval) (st : compiler_state) : result compiler_state :=
  id ← get_prop comp (lit "id");
  safeId ← call_replace (js_or id (JStr (lit "node"))) unsafe_id_unit underscore;
  let ids := {[ safeId ]} ∪ validIds st in
  label ← get_prop comp (lit "label");
  safeLabel ← call_replace (js_or label (JStr safeId)) is_double_quote single_quote;
  Ok {| mermaid := mermaid st ++ [LNode safeId safeLabel]; validIds := ids |}.

(** The body of [data.modules.forEach] (lines 464-484). *)
Definition add_module (mod_ : jsval) (st : compiler_state) : result compiler_state :=
  label ← get_prop mod_ (lit "label");
  safeModLabel ← call_replace (js_or label (JStr (lit "Module"))) is_double_quote single_quote;
  let st1 := emit (LSubgraph safeModLabel) st in
  st2 ← match read_prop mod_ (lit "components") with
        | JArr components => forEach add_component components st1
        | _ => Ok st1
        end;
  Ok (emit LEnd st2).

(** The body of [data.relationships.forEach] (lines 488-497). *)
Definition add_relationship (rel : jsval) (st : compiler_state) : result compiler_state :=
  from ← get_prop rel (lit "from");
  fromId ← call_replace (js_or from (JStr [])) unsafe_id_unit underscore;
  to ← get_prop rel (lit "to");
  toId ← call_replace (js_or to (JStr [])) unsafe_id_unit underscore;
  if has (validIds st) fromId && has (validIds st) toId then
    let arrow :=
      if is_string (read_prop rel (lit "type")) (lit "dotted")
      then lit "-.->" else lit "-->" in
    Ok (emit (LEdge fromId arrow toId) st)
  else Ok st.

Definition invalid_diagram_data : jsval := JError (lit "Invalid diagram data structure").

(** The appends of [convertJsonToMermaid], in order. The guard is
    [!data || !data.modules || !Array.isArray(data.modules)]. *)
Definition compile (data : jsval) : result compiler_state :=
  if negb (truthy data) || negb (truthy (read_prop data (lit "modules")))
  then Throw invalid_diagram_data
  else
    match read_prop data (lit "modules") with
    | JArr modules =>
        let st0 := {| mermaid := [LHeader]; validIds := ∅ |} in
        st1 ← forEach add_module modules st0;
        st2 ← match read_prop data (lit "relationships") with
              | JArr relationships => forEach add_relationship relationships st1
              | _ => Ok st1
              end;
        Ok (emit LStyle st2)
    | _ => Throw invalid_diagram_data
    end.

Definition compile_lines (data : jsval) : result (list line) :=
  st ← compile data;
  Ok (mermaid st).

Definition convertJsonToMermaid (data : jsval) : result jsstring :=
  ls ← compile_lines data;
  Ok (render ls).

End WithHost.

(** *** Reading the output and the input

    The ids of the node lines and the edge lines of an output, and, on the
    side of the input, the sanitized id of a component, the sanitized
    endpoints of a relationship and its arrow. *)

Definition node_ids (ls : list line) : list jsstring :=
  flat_map (fun l => match l with LNode safeId _ => [safeId] | _ => [] end) ls.

Definition edge_lines (ls : list line) : list line :=
  List.filter (fun l => match l with LEdge _ _ _ => true | _ => false end) ls.

(** The text an id or endpoint becomes: the given string, or the default
    when the value is falsy, with every unit outside [A-Za-z0-9_] replaced. *)
Definition sanitized (v : jsval) (default : jsstring) : jsstring :=
  match js_or v (JStr default) with
  | JStr s => replace_class unsafe_id_unit underscore s
  | _ => []
  end.

Definition component_id (comp : jsval) : jsstring :=
  sanitized (read_prop comp (lit "id")) (lit "node").

Definition components_of (mod_ : jsval) : list jsval :=
  match read_prop mod_ (lit "components") with
  | JArr components => components
  | _ => []
  end.

(** The sanitized ids of all components of all modules, in order. *)
Definition component_ids (modules : list jsval) : list jsstring :=
  flat_map (fun mod_ => List.map component_id (components_of mod_)) modules.

Definition from_id (rel : jsval) : jsstring := sanitized (read_prop rel (lit "from")) [].
Definition to_id (rel : jsval) : jsstring := sanitized (read_prop rel (lit "to")) [].

Definition arrow_of (rel : jsval) : jsstring :=
  if is_string (read_prop rel (lit "type")) (lit "dotted") then lit "-.->" else lit "-->".

Definition edge_line_of (rel : jsval) : line := LEdge (from_id rel) (arrow_of rel) (to_id rel).

(** The edge lines a list of relationships contributes, given the declared
    ids: one line for each relationship with both endpoints declared. *)
Definition kept_edges (declared : gset jsstring) (relationships : list jsval) : list line :=
  flat_map (fun rel =>
              if has declared (from_id rel) && has declared (to_id rel)
              then [edge_line_of rel] else []) relationships.

(** A string, or a falsy value that the default replaces. *)
Definition string_or_falsy (v : jsval) : bool :=
  match v with
  | JStr _ => true
  | _ => negb (truthy v)
  end.

(** A relationship entry of the shape the prompt asks for, each field
    possibly missing. *)
Definition relationship_shaped (rel : jsval) : bool :=
  negb (nullish rel)
  && string_or_falsy (read_prop rel (lit "from"))
  && string_or_falsy (read_prop rel (lit "to")).

(** A component and a module of the expected shape: an entry that is not
    [null], whose [id] and [label] are strings when present. *)
Definition component_shaped (comp : jsval) : bool :=
  negb (nullish comp)
  && string_or_falsy (read_prop comp (lit "id"))
  && string_or_falsy (read_prop comp (lit "label")).

Definition module_shaped (mod_ : jsval) : bool :=
  negb (nullish mod_)
  && string_or_falsy (read_prop mod_ (lit "label"))
  && forallb component_shaped (components_of mod_).

End DiagramCompiler.
Export DiagramCompiler.

(** ** The GitHub content fetcher ([githubApi.ts]) *)

Module GitHub.

Record GitHubFile : Type := {
  name : jsval;
  path : jsval;
  type : jsval;
  size : jsval;
  download_url : jsval;
  sha : jsval;
  url : jsval;
}.

(** The fields [name], [owner] and [path] of the source carry the prefix
    [repo_] here, where [name] and [path] are already fields of a file. *)
Record GitHubRepo : Type := {
  repo_name : jsstring;
  repo_owner : jsstring;
  repo_path : jsstring;
  default_branch : jsval;
  files : list GitHubFile;
}.

Definition slash : N := 47.

(** The longest run of units other than [/] at the front of [s], and what
    follows it: a greedy [[^\/]+] when the run is not empty. *)
Fixpoint segment (s : jsstring) : jsstring * jsstring :=
  match s with
  | [] => ([], [])
  | c :: s' =>
      if N.eqb c slash then ([], s)
      else let '(run, rest) := segment s' in (c :: run, rest)
  end.

Definition host_prefix : jsstring := lit "github.com/".

(** [/github\.com\/([^\/]+)\/([^\/]+)/] tried at the front of [s]. Each
    group is greedy, and backtracking cannot help: a shorter first group
    would be followed by a unit that is not the [/] the pattern requires. *)
Definition match_here (s : jsstring) : option (jsstring * jsstring) :=
  if startsWith s host_prefix then
    match segment (drop (length host_prefix) s) with
    | (c :: owner, c' :: rest) =>
        (* the segment stopped at a unit, which is the slash *)
        match segment rest with
        | (d :: repo, _) => Some (c :: owner, d :: repo)
        | ([], _) => None
        end
    | _ => None
    end
  else None.

(** [repoUrl.match(regex)]: the leftmost position at which the pattern
    matches, with its two groups. *)
Fixpoint match_repo_url (s : jsstring) : option (jsstring * jsstring) :=
  match match_here s with
  | Some groups => Some groups
  | None =>
      match s with
      | [] => None
      | _ :: s' => match_repo_url s'
      end
  end.

(** The pattern in words: somewhere in the URL stands [github.com/], then
    an owner and a repository, both non-empty and free of [/], separated by
    one [/]; whatever follows is ignored. *)
Definition url_matches (repoUrl owner repo : jsstring) : Prop :=
  exists before after,
    repoUrl = before ++ host_prefix ++ owner ++ [slash] ++ repo ++ after
    /\ owner <> [] /\ repo <> []
    /\ (slash ∉ owner) /\ (slash ∉ repo).

Definition get (u : jsstring) : request := {| req_url := u; req_post := None |}.

Definition Error (message : jsstring) : jsval := JError message.

Definition invalid_url_error : jsval :=
  Error (lit "Invalid GitHub URL. Please provide a valid GitHub repository URL.").

Definition rate_limited_error : jsval :=
  Error (lit "GitHub API rate limit exceeded. Please try again later.").

Definition repo_not_found_error : jsval :=
  Error (lit "Repository not found or is private. Only public repositories are supported.").

Definition fetch_failed_error (r : response) : jsval :=
  Error (lit "Failed to fetch repository: " ++ statusText r).

Definition contents_url (owner repo : jsstring) : jsstring :=
  lit "https://api.github.com/repos/" ++ owner ++ lit "/" ++ repo ++ lit "/contents".

Definition listing_url (owner repo pathText : jsstring) : jsstring :=
  lit "https://api.github.com/repos/" ++ owner ++ lit "/" ++ repo
  ++ lit "/contents/" ++ pathText.

Definition repo_url (owner repo : jsstring) : jsstring :=
  lit "https://api.github.com/repos/" ++ owner ++ lit "/" ++ repo.

(** A node of the structure snapshot: the object literals of lines 116,
    195-207 and 214-219. The node returned at the depth limit has no [path]. *)
#[warnings="-register-all"] Inductive TreeNode : Type :=
| DirNode (name : jsval) (path : option jsval) (children : list TreeNode)
| FileNode (name path size : jsval).

(** [node?.children || []]. *)
Definition children_of (node : TreeNode) : list TreeNode :=
  match node with
  | DirNode _ _ children => children
  | FileNode _ _ _ => []
  end.

(** [for (i = 0; i < data.length; i += 3) data.slice(i, i + 3)]. *)
Fixpoint batches {A : Type} (data : list A) : list (list A) :=
  match data with
  | [] => []
  | [a] => [[a]]
  | [a; b] => [[a; b]]
  | a :: b :: c :: rest => [a; b; c] :: batches rest
  end.

Fixpoint mapM {A B : Type} (f : A -> M B) (items : list A) : M (list B) :=
  match items with
  | [] => ret []
  | x :: rest =>
      y ← f x;
      ys ← mapM f rest;
      ret (y :: ys)
  end.

Section WithHost.
Context `{JSHost}.

(** The callback of [data.map] (lines 47-55 and 87-95). *)
Definition to_file (item : jsval) : result GitHubFile :=
  name_ ← get_prop item (lit "name");
  Ok {| name := name_;
        path := read_prop item (lit "path");
        type := read_prop item (lit "type");
        size := read_prop item (lit "size");
        download_url := read_prop item (lit "download_url");
        sha := read_prop item (lit "sha");
        url := read_prop item (lit "url") |}.

(** The entry built from a listing item that is not [null]. *)
Definition file_entry (item : jsval) : GitHubFile :=
  {| name := read_prop item (lit "name");
     path := read_prop item (lit "path");
     type := read_prop item (lit "type");
     size := read_prop item (lit "size");
     download_url := read_prop item (lit "download_url");
     sha := read_prop item (lit "sha");
     url := read_prop item (lit "url") |}.

Fixpoint map_result {A B : Type} (f : A -> result B) (items : list A) : result (list B) :=
  match items with
  | [] => Ok []
  | x :: rest =>
      y ← f x;
      ys ← map_result f rest;
      Ok (y :: ys)
  end.

(** [data.map(callback)]: only an array has [map]. *)
Definition call_map {B : Type} (data : jsval) (callback : jsval -> result B)
  : result (list B) :=
  match data with
  | JArr items => map_result callback items
  | JUndefined | JNull => Throw (TypeError (ReadOfNullish (lit "map")))
  | _ => Throw (TypeError (NotAFunction (lit "map")))
  end.

(** [p.split('/').pop() || repo] for a string [p]: the last segment of the
    path, or the repository when that segment is empty. *)
Definition last_segment_or (repo p : jsstring) : jsstring :=
  match last_field slash p with
  | [] => repo
  | c :: s => c :: s
  end.

(** [path.split('/').pop() || repo]: only a string has [split]. *)
Definition node_name (path : jsval) (repo : jsstring) : result jsval :=
  p ← string_receiver path (lit "split");
  Ok (JStr (last_segment_or repo p)).

Section WithEnv.
Variable E : env.

(** [fetchGitHubRepo] (lines 20-76). *)
Definition fetchGitHubRepo (repoUrl : jsstring) : M GitHubRepo :=
  match match_repo_url repoUrl with
  | None => throw invalid_url_error
  | Some (owner, repo) =>
      response ← fetch E (get (contents_url owner repo));
      if negb (ok response) then
        if status response =? 403 then throw rate_limited_error
        else if status response =? 404 then throw repo_not_found_error
        else throw (fetch_failed_error response)
      else
        data ← lift (json response);
        files_ ← lift (call_map data to_file);
        defaultBranch ←
          try_catch
            (repoDetailsResponse ← fetch E (get (repo_url owner repo));
             if ok repoDetailsResponse then
               repoDetails ← lift (json repoDetailsResponse);
               lift (get_prop repoDetails (lit "default_branch"))
             else ret (JStr (lit "main")))
            (fun _ => ret (JStr (lit "main")));
        ret {| repo_name := repo; repo_owner := owner; repo_path := [];
               default_branch := defaultBranch; files := files_ |}
  end.

(** [fetchGitHubDirContents] (lines 78-96). *)
Definition fetchGitHubDirContents (owner repo path_ : jsstring) : M (list GitHubFile) :=
  response ← fetch E (get (contents_url owner repo ++ lit "/" ++ path_));
  if negb (ok response) then
    throw (Error (lit "Failed to fetch directory contents: " ++ statusText response))
  else
    data ← lift (json response);
    lift (call_map data to_file).

(** [fetchGitHubFileContent] (lines 98-106). *)
Definition fetchGitHubFileContent (downloadUrl : jsstring) : M jsstring :=
  response ← fetch E (get downloadUrl);
  if negb (ok response) then
    throw (Error (lit "Failed to fetch file content: " ++ statusText response))
  else lift (text response).

(** One member of a batch (lines 191-209); [recur] is the recursive call
    of [fetchCompleteRepoStructure] one level down. *)
Definition process_item (recur : jsval -> M TreeNode) (item : jsval) : M TreeNode :=
  type_ ← lift (get_prop item (lit "type"));
  if is_string type_ (lit "dir") then
    children ← recur (read_prop item (lit "path"));
    ret (DirNode (read_prop item (lit "name")) (Some (read_prop item (lit "path")))
                 (children_of children))
  else
    ret (FileNode (read_prop item (lit "name")) (read_prop item (lit "path"))
                  (read_prop item (lit "size"))).

(** The loop over the batches (lines 188-212). The batches run one after
    the other, and the results are appended in the order of the listing,
    as [Promise.all] returns them. Within a batch the source starts every
    member before it awaits any of them, and the members then advance by
    turns that the arrival of the answers decides; here the members run to
    the end one after the other, in the order of the listing, and the first
    that throws ends the level. The two agree on everything when at most
    one member of each batch is a directory below the depth limit, files
    and directories at the limit taking no turn at all; and on the tree
    that is returned whenever no member throws and the answer to a request
    depends on the request alone, not on its rank among the requests. When
    several members of a batch are fetched they differ otherwise:
    the source sets the 150 ms timers of all of them before the first
    request, so that the delays overlap and the requests leave in an order
    of their own; and when one member throws, the others of the batch have
    been started and go on sending, and the error that reaches the caller
    is the first in time, not the first in the listing. Nothing below is
    stated about the order of events, the clock or the error of such a
    batch. *)
Fixpoint process_batches (recur : jsval -> M TreeNode) (bs : list (list jsval))
    (structure : list TreeNode) : M (list TreeNode) :=
  match bs with
  | [] => ret structure
  | batch :: rest =>
      batchResults ← mapM (process_item recur) batch;
      process_batches recur rest (structure ++ batchResults)
  end.

(** [processDataArray] (lines 176-220). *)
Definition processDataArray (recur : jsval -> M TreeNode) (data : list jsval)
    (repo : jsstring) (path_ : jsval) : M TreeNode :=
  structure ← process_batches recur (batches data) [];
  name_ ← lift (node_name path_ repo);
  ret (DirNode name_ (Some path_) structure).

Definition structure_rate_limited_error : jsval :=
  Error (lit "GitHub API rate limit exceeded. Please wait a few minutes and try again.").

Definition retry_failed_error (pathText : jsstring) (retryResponse : response) : jsval :=
  Error (lit "Failed to fetch " ++ pathText ++ lit ": "
         ++ Number_toString_int (status retryResponse) ++ lit " "
         ++ statusText retryResponse).

Definition not_found_error (owner repo : jsstring) (path_ : jsval) (pathText : jsstring)
  : jsval :=
  Error (lit "Repository or path not found: " ++ owner ++ lit "/" ++ repo
         ++ (if truthy path_ then lit "/" ++ pathText else [])).

Definition structure_failed_error (response : response) : jsval :=
  Error (lit "Failed to fetch repository structure: "
         ++ Number_toString_int (status response) ++ lit " " ++ statusText response).

(** The node returned at the depth limit (line 116). *)
Definition depth_limit_leaf (repo : jsstring) (path_ : jsval) : M TreeNode :=
  name_ ← lift (node_name path_ repo);
  ret (DirNode name_ None []).

(** The body of [fetchCompleteRepoStructure] below the depth limit
    (lines 119-172); [recur] is the recursive call one level down. The
    [catch] block logs and rethrows, which changes nothing. *)
Definition structure_level (recur : jsval -> M TreeNode) (owner repo : jsstring)
    (path_ : jsval) (currentDepth : Z) : M TreeNode :=
  (if currentDepth >? 0 then sleep E 150 else ret tt);;
  pathText ← lift (ToString path_);
  let url_ := listing_url owner repo pathText in
  response ← fetch E (get url_);
  if negb (ok response) then
    if status response =? 429 then
      sleep E 3000;;
      retryResponse ← fetch E (get url_);
      if negb (ok retryResponse) then
        throw (retry_failed_error pathText retryResponse)
      else
        retryData ← lift (json retryResponse);
        match retryData with
        | JArr items => processDataArray recur items repo path_
        | _ => throw (Error (lit "Invalid response format for " ++ pathText))
        end
    else if status response =? 403 then throw structure_rate_limited_error
    else if status response =? 404 then
      throw (not_found_error owner repo path_ pathText)
    else throw (structure_failed_error response)
  else
    data ← lift (json response);
    match data with
    | JArr items => processDataArray recur items repo path_
    | _ => throw (Error (lit "Invalid repository structure response from GitHub API"))
    end.

(** The default of the parameter [path] (line 111): an argument that is
    [undefined], as the [path] of a listing item that has none, stands for
    the empty string. *)
Definition path_or_default (path_ : jsval) : jsval :=
  match path_ with
  | JUndefined => JStr []
  | _ => path_
  end.

(** [fetchCompleteRepoStructure] (lines 108-173), by recursion on the number
    of levels left: [levels] is [maxDepth - currentDepth] when that is
    positive, so the recursive call at [currentDepth + 1] has one level
    fewer, and the case of no level left below the limit does not arise
    ([fetchStructure_levels]). The two depths are integers, as the defaults 3
    and 0 and the step of the recursion make them. *)
Fixpoint fetchStructure (levels : nat) (owner repo : jsstring) (path_ : jsval)
    (maxDepth currentDepth : Z) : M TreeNode :=
  let path_ := path_or_default path_ in
  if currentDepth >=? maxDepth then depth_limit_leaf repo path_
  else
    match levels with
    | O => depth_limit_leaf repo path_
    | S levels' =>
        structure_level
          (fun p => fetchStructure levels' owner repo p maxDepth (currentDepth + 1))
          owner repo path_ currentDepth
    end.

Definition fetchCompleteRepoStructure (owner repo : jsstring) (path_ : jsval)
    (maxDepth currentDepth : Z) : M TreeNode :=
  fetchStructure (Z.to_nat (maxDepth - currentDepth)) owner repo path_
    maxDepth currentDepth.

End WithEnv.

End WithHost.

End GitHub.
Export GitHub.

(** ** The other generators ([geminiApi.ts], lines 22-57 and 197-210) *)

Module Generators.

Section WithHost.
Context `{JSHost}.

(** The prompt of [generateRepoExplanation] (lines 28-43); a README that is
    [null] or empty gives way to the default text. *)
Definition repo_explanation_prompt (repoName : jsstring) (repoStructure : jsval)
    (readmeContent : option jsstring) : jsstring :=
  lit "You are a senior developer explaining a GitHub repository to a teammate. Provide a high-level explanation of the repository "
  ++ dq
  ++ repoName
  ++ dq
  ++ lit " and its structure. Based on the repository structure and README content below, explain:

1. What this project is and what problem it solves
2. The high-level architecture and organization
3. Key directories and their purposes
4. Any important configuration files
5. Main entry points
6. Technology stack used

Be conversational like a coworker. Explain the 'why' not just the 'what'. Point out interesting patterns. Structure your response to be clear and informative.

REPOSITORY STRUCTURE:
"
  ++ JSON_stringify repoStructure
  ++ lit "

README CONTENT:
"
  ++ match readmeContent with
     | Some (c :: s) => c :: s
     | _ => lit "No README found"
     end.

Definition generateRepoExplanation (E : env) (repoName : jsstring)
    (repoStructure : jsval) (readmeContent : option jsstring) (apiKey : jsstring)
  : M Explanation :=
  callGeminiAPI E (repo_explanation_prompt repoName repoStructure readmeContent) apiKey.

(** The callback of [dirContents.map] (line 54). *)
Definition directory_entry (item : jsval) : result jsstring :=
  name_ ← get_prop item (lit "name");
  name_text ← ToString name_;
  type_text ← ToString (read_prop item (lit "type"));
  Ok (lit "- " ++ name_text ++ lit " (" ++ type_text ++ lit ")").

(** The prompt of [generateDirectoryExplanation] (line 54). *)
Definition directory_explanation_prompt (dirPath : jsstring) (dirContents : list jsval)
  : result jsstring :=
  entries ← map_result directory_entry dirContents;
  Ok (lit "Explain the "
      ++ dq
      ++ dirPath
      ++ dq
      ++ lit " directory:

Contents:
"
      ++ join (lit "
") entries
      ++ lit "

Provide:
1. Purpose of this directory (1-2 sentences)
2. Key items and their roles
3. How it fits in the project

Be concise.").

Definition generateDirectoryExplanation (E : env) (dirPath : jsstring)
    (dirContents : list jsval) (repoName apiKey : jsstring) : M Explanation :=
  prompt ← lift (directory_explanation_prompt dirPath dirContents);
  callGeminiAPI E prompt apiKey.

Definition function_explanation_prompt (functionCode : jsstring) : jsstring :=
  lit "Explain the purpose of this function in 1-2 sentences. Be specific about what it does:

```
"
  ++ functionCode
  ++ lit "
```".

Definition generateFunctionExplanation (E : env)
    (functionName functionCode apiKey : jsstring) : M jsstring :=
  result ← callGeminiAPI E (function_explanation_prompt functionCode) apiKey;
  ret (content result).

End WithHost.

End Generators.
Export Generators.

(** ** The architecture diagram ([geminiApi.ts], lines 250-449) *)

Module ArchitectureDiagram.

(** What the engine provides to the diagram generator: [JSON.parse],
    [JSON.stringify] without indentation, and [Array.prototype.sort] with the
    comparator of lines 266-270 (directories first, then by
    [localeCompare]), whose order and whose failures on entries without a
    string name are the engine's. *)
Class DiagramHost : Type := {
  JSON_parse : jsstring -> result jsval;
  JSON_stringify_compact : jsval -> jsstring;
  Array_sort : list jsval -> result (list jsval);
}.

Definition MAX_TREE_DEPTH : Z := 3.
Definition MAX_CHILDREN_PER_DIR : Z := 20.

Definition ignored : list jsstring :=
  [lit "node_modules"; lit ".git"; lit ".vscode"; lit ".idea"; lit "dist"; lit "build";
   lit "coverage"; lit "package-lock.json"; lit "yarn.lock"; lit ".DS_Store"].

(** [name === pattern || name.startsWith(pattern)] for some pattern. *)
Definition matches_ignored (name_ : jsstring) : bool :=
  existsb (fun pattern => str_eqb name_ pattern || startsWith name_ pattern) ignored.

(** What one [output += ...] statement of the tree appends. *)
Inductive tree_line : Type :=
| TEntry (prefix : jsstring) (isLast : bool) (name_ : jsstring) (isDir : bool)
| TMore (prefix : jsstring) (hiddenCount : Z).

Definition last_marker : jsstring := [0x2514; 0x2500; 0x2500; 0x20]%N.
Definition inner_marker : jsstring := [0x251C; 0x2500; 0x2500; 0x20]%N.
Definition last_indent : jsstring := lit "    ".
Definition inner_indent : jsstring := [0x2502; 0x20; 0x20; 0x20]%N.

Definition render_tree_line (l : tree_line) : jsstring :=
  match l with
  | TEntry prefix isLast name_ isDir =>
      prefix ++ (if isLast then last_marker else inner_marker) ++ name_
      ++ (if isDir then lit "/" else []) ++ [10%N]
  | TMore prefix hiddenCount =>
      prefix ++ [0x2514; 0x2500; 0x2500]%N ++ lit " ... ("
      ++ Number_toString_int hiddenCount ++ lit " more files)" ++ [10%N]
  end.

Definition render_tree (ls : list tree_line) : jsstring :=
  concat (List.map render_tree_line ls).

(** [props] with the own property [k] set to [v]. *)
Fixpoint set_own (props : list (jsstring * jsval)) (k : jsstring) (v : jsval)
  : list (jsstring * jsval) :=
  match props with
  | [] => [(k, v)]
  | (k', v') :: rest =>
      if str_eqb k' k then (k', v) :: rest else (k', v') :: set_own rest k v
  end.

(** The number of matches of a global pattern that is a literal text: the
    search resumes behind each match. [skip] units are still covered by the
    last match. *)
Fixpoint count_matches_from (skip : nat) (pattern s : jsstring) : Z :=
  match s with
  | [] => 0
  | _ :: s' =>
      match skip with
      | S skip' => count_matches_from skip' pattern s'
      | O =>
          if startsWith s pattern
          then 1 + count_matches_from (length pattern - 1) pattern s'
          else count_matches_from 0 pattern s'
      end
  end.

Definition count_matches (pattern s : jsstring) : Z := count_matches_from 0 pattern s.

(** [text.replace(/^```json\s*/, '')]. *)
Definition strip_opening_fence (s : jsstring) : jsstring :=
  if startsWith s (lit "```json") then trimStart (drop 7 s) else s.

(** [text.replace(/```\s*$/, '')]: the leftmost fence that only white space
    separates from the end goes, with that white space. *)
Fixpoint strip_closing_fence (s : jsstring) : jsstring :=
  if startsWith s fence && forallb is_js_space (drop 3 s) then []
  else match s with
       | [] => []
       | c :: s' => c :: strip_closing_fence s'
       end.

(** The text handed to [JSON.parse] (line 422). *)
Definition clean_json (s : jsstring) : jsstring :=
  trim (strip_closing_fence (strip_opening_fence s)).

Section WithHost.
Context `{JSHost} `{DiagramHost}.

(** The callback of [children.filter] (lines 273-279): whether the child
    stays. Reading [name] of a child that is [null], and [startsWith] on a
    name that is no string, throw. *)
Definition is_relevant (c : jsval) : result bool :=
  name_ ← get_prop c (lit "name");
  s ← string_receiver name_ (lit "startsWith");
  Ok (negb (matches_ignored s)).

(** [visibleChildren.forEach] (lines 284-294) along the sorted array, each
    child paired with the verdict of the filter; [index] counts the children
    that stayed. The children visited are sorted in place by the recursive
    call, so the array is returned as it is afterwards. *)
Fixpoint walk_children (recur : jsval -> jsstring -> result (list tree_line * jsval))
    (prefix : jsstring) (visibleCount hiddenCount index : Z)
    (children : list (jsval * bool)) : result (list tree_line * list jsval) :=
  match children with
  | [] => Ok ([], [])
  | (child, relevant) :: rest =>
      if relevant && (index <? visibleCount) then
        let isLast := (index =? visibleCount - 1) && (hiddenCount =? 0) in
        let newPrefix := prefix ++ (if isLast then last_indent else inner_indent) in
        let isDir := is_string (read_prop child (lit "type")) (lit "dir") in
        name_text ← ToString (read_prop child (lit "name"));
        sub ← (if isDir then recur child newPrefix else Ok ([], child));
        more ← walk_children recur prefix visibleCount hiddenCount (index + 1) rest;
        Ok (TEntry prefix isLast name_text isDir :: sub.1 ++ more.1, sub.2 :: more.2)
      else
        more ← walk_children recur prefix visibleCount hiddenCount index rest;
        Ok (more.1, child :: more.2)
  end.

(** [generateTreeRepresentation] (lines 262-301), by recursion on the
    number of levels left, which is [MAX_TREE_DEPTH + 1 - depth]: the lines
    appended, and the node as the sorting leaves it. *)
Fixpoint tree_from (levels : nat) (node : jsval) (prefix : jsstring) (depth : Z)
  : result (list tree_line * jsval) :=
  if depth >? MAX_TREE_DEPTH then Ok ([], node)
  else
    match levels with
    | O => Ok ([], node)
    | S levels' =>
        children ← get_prop node (lit "children");
        sorted ← (if truthy children then
                    match children with
                    | JArr items => Array_sort items
                    | _ => Throw (TypeError (NotAFunction (lit "sort")))
                    end
                  else Ok []);
        verdicts ← map_result is_relevant sorted;
        let relevantCount := Z.of_nat (length (List.filter id verdicts)) in
        let visibleCount := Z.min relevantCount MAX_CHILDREN_PER_DIR in
        let hiddenCount := relevantCount - visibleCount in
        walked ← walk_children
                   (fun child newPrefix => tree_from levels' child newPrefix (depth + 1))
                   prefix visibleCount hiddenCount 0 (combine sorted verdicts);
        let node' :=
          match node with
          | JObj props =>
              if truthy children
              then JObj (set_own props (lit "children") (JArr walked.2))
              else node
          | _ => node
          end in
        Ok (walked.1 ++ (if hiddenCount >? 0 then [TMore prefix hiddenCount] else []),
            node')
    end.

Definition generateTreeRepresentation (node : jsval) : result (list tree_line * jsval) :=
  tree_from (Z.to_nat (MAX_TREE_DEPTH + 1)) node [] 0.

(** The prompt (lines 303-356). The two counts are taken from the
    serialization of the structure after the tree has been drawn. *)
Definition architecture_prompt (repoName : jsstring) (repoStructure : jsval)
  : result jsstring :=
  drawn ← generateTreeRepresentation repoStructure;
  let treeStructure := render_tree drawn.1 in
  let serialized := JSON_stringify_compact drawn.2 in
  let fileCount :=
    count_matches (dq ++ lit "type" ++ dq ++ lit ":" ++ dq ++ lit "file" ++ dq) serialized in
  let dirCount :=
    count_matches (dq ++ lit "type" ++ dq ++ lit ":" ++ dq ++ lit "dir" ++ dq) serialized in
  Ok (lit "You are a Senior Software Architect. Analyze the codebase structure and generate a tailored Technical Architecture Diagram in JSON format.

CONTEXT:
- Repository: "
  ++ repoName
  ++ lit "
- Files: ~"
  ++ Number_toString_int fileCount
  ++ lit " | Directories: ~"
  ++ Number_toString_int dirCount
  ++ lit "

FILE STRUCTURE (TreeMap):
```
"
  ++ treeStructure
  ++ lit "
```

INSTRUCTIONS:
1. **Analyze** the structure to identify architectural patterns (MVC, Microservices, Monolith, Clean Arch).
2. **Infer** logical components from naming conventions (e.g., 'auth-controller' -> 'API/Auth', 'users-db' -> 'Data/Users').
3. **Group** components into meaningful layers/modules (e.g., 'Frontend', 'Backend API', 'Database Layer').
4. **Define** relationships to show data flow (e.g., UI -> API -> Service -> DB).

OUTPUT FORMAT:
Return ONLY a valid JSON object matching this TypeScript interface:

```typescript
interface DiagramData {
  // Logical groupings (subgraphs)
  modules: {
    id: string;       // unique alphanumeric id, e.g., "
  ++ dq
  ++ lit "backend_api"
  ++ dq
  ++ lit "
    label: string;    // display name, e.g., "
  ++ dq
  ++ lit "Backend API"
  ++ dq
  ++ lit "
    components: {
      id: string;     // unique alphanumeric id, e.g., "
  ++ dq
  ++ lit "auth_controller"
  ++ dq
  ++ lit "
      label: string;  // display name, e.g., "
  ++ dq
  ++ lit "Auth Controller"
  ++ dq
  ++ lit "
    }[];
  }[];
  // Connections between components
  relationships: {
    from: string;     // component id
    to: string;       // component id
    type: 'solid' | 'dotted'; // solid = flow/call, dotted = dependency/reference
    label?: string;   // optional edge label
  }[];
}
```

CONSTRAINTS:
- IDs must be alphanumeric using underscores (no spaces/dashes).
- Keep it high-level: 15-25 nodes maximum.
- Do NOT output Mermaid code directly. Output strictly JSON.
- Ensure 'from' and 'to' in relationships match defined component IDs.

GENERATE JSON NOW:").

Definition diagram_maxRetries : Z := 3.

#[warnings="-inexact-float"] Definition diagram_request (apiKey prompt : jsstring) : request :=
  {| req_url :=
       lit "https://generativelanguage.googleapis.com/v1beta/models/gemini-2.0-flash:generateContent?key="
       ++ apiKey;
     req_post := Some (JObj [
       (lit "contents",
        JArr [JObj [(lit "parts", JArr [JObj [(lit "text", JStr prompt)]])]]);
       (lit "generationConfig",
        JObj [(lit "temperature", JNum 0.2%float);
              (lit "maxOutputTokens", jsnum 2000);
              (lit "topK", jsnum 40);
              (lit "topP", JNum 0.8%float);
              (lit "responseMimeType", JStr (lit "application/json"))])]) |}.

(** The value recorded after a 429 (line 406). *)
Definition diagram_rate_limited : jsval :=
  JObj [(lit "status", jsnum 429); (lit "message", JStr (lit "Rate limit exceeded"))].

Definition api_error (response : response) (errorData : jsval) : jsval :=
  Error (lit "API error: " ++ Number_toString_int (status response) ++ lit " - "
         ++ JSON_stringify_compact errorData).

Definition no_content_error : jsval := Error (lit "No content returned from API").
Definition invalid_json_error : jsval := Error (lit "AI returned invalid JSON").
Definition diagram_rate_limit_error : jsval :=
  Error (lit "Rate limit exceeded. Please wait a moment and try again.").
Definition diagram_failed_error : jsval := Error (lit "Failed to generate diagram").

(** How one pass through the body of the loop ends: with the diagram, or
    with the error the next pass starts from. *)
Inductive diagram_attempt : Type :=
| Drawn (mermaid_text : jsstring)
| Failed (lastError : jsval).

(** The inner [try] block (lines 420-427): whatever is thrown while the text
    is cleaned and parsed becomes the same error. *)
Definition parse_diagram (text_ : jsval) : result jsval :=
  match (s ← string_receiver text_ (lit "replace"); JSON_parse (clean_json s)) with
  | Ok diagramData => Ok diagramData
  | Throw _ => Throw invalid_json_error
  end.

Section WithEnv.
Variable E : env.

(** The body of the outer [try] block for one attempt (lines 369-430). *)
Definition try_diagram (prompt apiKey : jsstring) (attempt : Z) : M diagram_attempt :=
  (if attempt >? 0
   then
     let waitTime := 2 ^ attempt * 2000 in
     sleep E waitTime
   else ret tt);;
  response ← fetch E (diagram_request apiKey prompt);
  if negb (ok response) then
    let errorData := match json response with Ok v => v | Throw _ => JObj [] end in
    if status response =? 429 then
      let waitTime :=
        match retryAfter response with
        | Some (c :: r) => option_map (fun n => n * 1000) (parseInt (c :: r))
        | _ => Some (2 ^ (attempt + 2) * 1000)
        end in
      sleep E (timer_delay waitTime);;
      ret (Failed diagram_rate_limited)
    else throw (api_error response errorData)
  else
    data ← lift (json response);
    _ ← lift (get_prop data (lit "candidates"));
    let text_ := response_text data in
    if negb (truthy text_) then throw no_content_error
    else
      diagramData ← lift (parse_diagram text_);
      mermaid_text ← lift (convertJsonToMermaid diagramData);
      ret (Drawn mermaid_text).

(** One iteration with its [catch] block (lines 432-438). *)
Definition diagram_attempt_once (prompt apiKey : jsstring) (attempt : Z)
  : M diagram_attempt :=
  try_catch (try_diagram prompt apiKey attempt) (fun error => ret (Failed error)).

(** [for (let attempt = 0; attempt < maxRetries; attempt++)], with
    [remaining] the number of iterations left. *)
Fixpoint diagram_loop (remaining : nat) (prompt apiKey : jsstring) (attempt : Z)
    (lastError : jsval) : M (jsstring + jsval) :=
  match remaining with
  | O => ret (inr lastError)
  | S remaining' =>
      r ← diagram_attempt_once prompt apiKey attempt;
      match r with
      | Drawn mermaid_text => ret (inl mermaid_text)
      | Failed lastError' =>
          diagram_loop remaining' prompt apiKey (attempt + 1) lastError'
      end
  end.

(** After the loop (lines 441-448). *)
Definition diagram_failure (lastError : jsval) : jsval :=
  if is_number (opt_prop lastError (lit "status")) 429 then diagram_rate_limit_error
  else js_or lastError diagram_failed_error.

Definition generateArchitectureDiagram (repoName : jsstring) (repoStructure : jsval)
    (apiKey : jsstring) : M jsstring :=
  prompt ← lift (architecture_prompt repoName repoStructure);
  waitForRateLimit E;;
  r ← diagram_loop (Z.to_nat diagram_maxRetries) prompt apiKey 0 JNull;
  match r with
  | inl mermaid_text => ret mermaid_text
  | inr lastError => throw (diagram_failure lastError)
  end.

End WithEnv.

End WithHost.

End ArchitectureDiagram.
Export ArchitectureDiagram.

(** ** Reading the drawn tree *)

Module TreeShape.

(** The indentation in front of a line of the tree. *)
Definition line_prefix (l : tree_line) : jsstring :=
  match l with
  | TEntry prefix _ _ _ => prefix
  | TMore prefix _ => prefix
  end.

(** The name a line of the tree lists, if it lists one. *)
Definition listed_name (l : tree_line) : option jsstring :=
  match l with
  | TEntry _ _ name_ _ => Some name_
  | TMore _ _ => None
  end.

(** The most lines [levels] levels of directories can take: twenty entries
    and one summary line for a directory, and under each entry what the
    levels below can take. *)
Fixpoint tree_bound (levels : nat) : Z :=
  match levels with
  | O => 0
  | S levels' => 21 + 20 * tree_bound levels'
  end.

End TreeShape.
Export TreeShape.

(** ** Reading a structure snapshot *)

Module StructureShape.

(** The number of levels of a snapshot: one for a file or an empty
    directory. *)
Fixpoint height (node : TreeNode) : nat :=
  match node with
  | FileNode _ _ _ => 1
  | DirNode _ _ children => S (List.list_max (List.map height children))
  end.

Definition is_dir_item (item : jsval) : bool :=
  is_string (read_prop item (lit "type")) (lit "dir").

(** The node of a listing item that is not a directory (lines 203-208). *)
Definition file_node (item : jsval) : TreeNode :=
  FileNode (read_prop item (lit "name")) (read_prop item (lit "path"))
           (read_prop item (lit "size")).

(** A child of a snapshot stands for a listing item: a directory node
    with the name and the path of a directory item, the file node of any
    other item. *)
Definition reflects (item : jsval) (child : TreeNode) : Prop :=
  if is_dir_item item
  then exists children,
         child = DirNode (read_prop item (lit "name"))
                         (Some (read_prop item (lit "path"))) children
  else child = file_node item.

(** The default branch that the outcome of the details request gives
    (lines 58-69 of [githubApi.ts]). *)
Definition branch_of (details : fetch_outcome) : jsval :=
  match details with
  | Responds r =>
      if ok r then
        match json r with
        | Ok repoDetails =>
            if nullish repoDetails then JStr (lit "main")
            else read_prop repoDetails (lit "default_branch")
        | Throw _ => JStr (lit "main")
        end
      else JStr (lit "main")
  | Rejects _ => JStr (lit "main")
  end.

End StructureShape.
Export StructureShape.

(** ** What a computation does to the world *)

Module Footprint.

(** The computation leaves the world as it found it. *)
Definition silent {A : Type} (m : M A) : Prop :=
  forall w, snd (m w) = w.

(** The computation sends nothing and leaves [lastGeminiCallTime] alone: at
    most it sets timers and lets time pass. *)
Definition quiet {A : Type} (m : M A) : Prop :=
  forall w,
    lastGeminiCallTime (snd (m w)) = lastGeminiCallTime w
    /\ fetches (trace (snd (m w))) = fetches (trace w)
    /\ requests (snd (m w)) = requests w.

(** The computation never throws. *)
Definition returns {A : Type} (m : M A) : Prop :=
  forall w, exists a, fst (m w) = Ok a.

(** The computation sends the request [req] between [lo] and [hi] times,
    sends nothing else, and leaves [lastGeminiCallTime] alone. *)
Definition sends {A : Type} (req : request) (lo hi : nat) (m : M A) : Prop :=
  forall w, exists n,
    (lo <= n <= hi)%nat
    /\ lastGeminiCallTime (snd (m w)) = lastGeminiCallTime w
    /\ fetches (trace (snd (m w))) = fetches (trace w) ++ repeat req n
    /\ requests (snd (m w)) = (requests w + n)%nat.

End Footprint.
Export Footprint.

(** ** The diagram as a function of its input

    What [convertJsonToMermaid] appends, written down at once instead of
    statement by statement: used to state what a successful run produces. *)

Module DiagramShape.

(** The text a label becomes: the given string, or the default when the
    value is falsy, with every double quote replaced by a single one. *)
Definition label_text (v : jsval) (default : jsstring) : jsstring :=
  match js_or v (JStr default) with
  | JStr s => replace_class is_double_quote single_quote s
  | _ => []
  end.

Definition node_line_of (comp : jsval) : line :=
  LNode (component_id comp) (label_text (read_prop comp (lit "label")) (component_id comp)).

(** The lines of one module: the opening of the subgraph, one node per
    component, the closing. *)
Definition module_block (mod_ : jsval) : list line :=
  LSubgraph (label_text (read_prop mod_ (lit "label")) (lit "Module"))
  :: List.map node_line_of (components_of mod_) ++ [LEnd].

Definition relationships_of (data : jsval) : list jsval :=
  match read_prop data (lit "relationships") with
  | JArr relationships => relationships
  | _ => []
  end.

Definition diagram_lines (modules relationships : list jsval) : list line :=
  [LHeader]
  ++ flat_map module_block modules
  ++ kept_edges (list_to_set (component_ids modules)) relationships
  ++ [LStyle].

(** The label a line shows, if it shows one. *)
Definition shown_label (l : line) : option jsstring :=
  match l with
  | LSubgraph safeModLabel => Some safeModLabel
  | LNode _ safeLabel => Some safeLabel
  | _ => None
  end.

End DiagramShape.
Export DiagramShape.

(** ** Concrete hosts, environments and inputs used by the examples *)

Module Examples.

(** A host for the examples: ASCII case mapping, decimal [parseInt] of a
    digit string, and fixed texts where the engine's own wording does not
    matter. *)
Definition ascii_lower (c : N) : N :=
  if ((65 <=? c) && (c <=? 90))%N then (c + 32)%N else c.

Fixpoint digits_value (s : jsstring) (acc : Z) : option Z :=
  match s with
  | [] => Some acc
  | c :: s' =>
      if ((48 <=? c) && (c <=? 57))%N
      then digits_value s' (10 * acc + Z.of_N (c - 48))
      else None
  end.

#[local] Instance example_host : JSHost := {|
  String_toLowerCase := List.map ascii_lower;
  Number_toString := fun _ => lit "<number>";
  JSON_stringify := fun _ => lit "<json>";
  parseInt := fun s => match s with [] => None | _ => digits_value s 0 end;
  TypeError_message := fun e =>
    match e with
    | ReadOfNullish prop => lit "Cannot read properties of null or undefined: " ++ prop
    | NotAFunction prop => prop ++ lit " is not a function"
    | NotPrimitive => lit "Cannot convert object to primitive value"
    end;
|}.

Definition response_of (status_ : Z) (body : jsval) : response :=
  {| status := status_; statusText := lit "status text"; retryAfter := None;
     json := Ok body; text := Ok (lit "body") |}.

(** An environment in which every request meets the same response and no
    time passes beyond the timers. *)
Definition always (r : response) : env :=
  {| respond := fun _ _ => Responds r; elapsed := fun _ => 0 |}.

(** An environment that answers the [n]-th request with the [n]-th response
    of a script, and with the last one ever after. *)
Definition scripted (script : list response) (fallback : response) : env :=
  {| respond := fun n _ => Responds (nth n script fallback); elapsed := fun _ => 0 |}.

(** The endpoint answers with one candidate whose text is [reply]. *)
Definition answering (reply : jsstring) : env :=
  always (response_of 200
    (JObj [(lit "candidates",
            JArr [JObj [(lit "content",
                         JObj [(lit "parts", JArr [JObj [(lit "text", JStr reply)]])])]])])).

Definition two_functions : list func :=
  [{| BatchExplanations.name := lit "add"; code := lit "const add = (a, b) => a + b" |};
   {| BatchExplanations.name := lit "sub"; code := lit "const sub = (a, b) => a - b" |}].

(** A server error whose body has a numeric [message]. *)
Definition numeric_message_env : env :=
  always (response_of 500 (JObj [(lit "message", jsnum 500)])).

(** Every request is answered 429 with [Retry-After: 5]. *)
Definition rate_limited_env : env :=
  always {| status := 429; statusText := lit "Too Many Requests";
            retryAfter := Some (lit "5"); json := Ok (JObj []);
            text := Ok [] |}.

(** 12001 copies of the letter [a]. *)
Definition long_content : jsstring := repeat 97%N (Z.to_nat 12001).

(** A module with two components that carry no id. *)
Definition two_anonymous_components : jsval :=
  JObj [(lit "modules",
         JArr [JObj [(lit "label", JStr (lit "Core"));
                     (lit "components", JArr [JObj []; JObj []])]])].

(** A component whose id is the number 1. *)
Definition numeric_component_id : jsval :=
  JObj [(lit "modules",
         JArr [JObj [(lit "label", JStr (lit "Core"));
                     (lit "components",
                      JArr [JObj [(lit "id", jsnum 1);
                                  (lit "label", JStr (lit "Parser"))]])]])].

(** Two declared components and two relationships, the second of which
    points at an id that no component declares. *)
Definition one_dangling_edge : jsval :=
  JObj [(lit "modules",
         JArr [JObj [(lit "label", JStr (lit "Core"));
                     (lit "components",
                      JArr [JObj [(lit "id", JStr (lit "ui")); (lit "label", JStr (lit "UI"))];
                            JObj [(lit "id", JStr (lit "api")); (lit "label", JStr (lit "API"))]])]]);
        (lit "relationships",
         JArr [JObj [(lit "from", JStr (lit "ui")); (lit "to", JStr (lit "api"));
                     (lit "type", JStr (lit "dotted"))];
               JObj [(lit "from", JStr (lit "api")); (lit "to", JStr (lit "db"));
                     (lit "type", JStr (lit "solid"))]])].

(** The listing of the end-to-end scenario. *)
Definition demo_listing : jsval :=
  JArr [JObj [(lit "name", JStr (lit "a.ts")); (lit "path", JStr (lit "a.ts"));
              (lit "type", JStr (lit "file"))];
        JObj [(lit "name", JStr (lit "lib")); (lit "path", JStr (lit "lib"));
              (lit "type", JStr (lit "dir"))]].

Definition demo_url : jsstring := lit "https://github.com/octo/demo".

(** The listing request meets the listing, the details request a
    repository whose default branch is [trunk]. *)
Definition demo_env : env :=
  scripted [response_of 200 demo_listing;
            response_of 200 (JObj [(lit "default_branch", JStr (lit "trunk"))])]
           (response_of 404 JNull).

(** A first answer of 429 and then a server error. *)
Definition throttled_env : env :=
  scripted [response_of 429 JNull] (response_of 500 JNull).

End Examples.

(** ** Further scenarios *)

Module Scenarios.

(** No request gets through. *)
Definition offline : env :=
  {| respond := fun _ _ => Rejects (JError (lit "Failed to fetch"));
     elapsed := fun _ => 0 |}.

(** A first answer of 429, after which no request gets through. *)
Definition throttled_then_offline : env :=
  {| respond := fun n _ =>
       match n with
       | O => Responds (Examples.response_of 429 JNull)
       | S _ => Rejects (JError (lit "Failed to fetch"))
       end;
     elapsed := fun _ => 0 |}.

(** Every request meets a server error with an empty object as its body. *)
Definition server_error : env :=
  Examples.always (Examples.response_of 500 (JObj [])).

(** The body of an answer whose only candidate has the text [reply]. *)
Definition answer_body (reply : jsstring) : jsval :=
  JObj [(lit "candidates",
         JArr [JObj [(lit "content",
                      JObj [(lit "parts", JArr [JObj [(lit "text", JStr reply)]])])]])].

(** A module and a component whose labels hold double quotes. *)
Definition quoted_labels : jsval :=
  JObj [(lit "modules",
         JArr [JObj [(lit "label", JStr (lit "The " ++ dq ++ lit "core" ++ dq));
                     (lit "components",
                      JArr [JObj [(lit "id", JStr (lit "parser"));
                                  (lit "label",
                                   JStr (dq ++ lit "Parser" ++ dq))]])]])].

(** A component with dashes in its id, and a relationship that names it
    once as given and once as sanitized. *)
Definition dashed_component : jsval := JObj [(lit "id", JStr (lit "auth-controller"))].

Definition mixed_endpoints : jsval :=
  JObj [(lit "from", JStr (lit "auth-controller"));
        (lit "to", JStr (lit "auth_controller"))].

(** One declared component, and a relationship whose [from] is the number 1
    where a component id is expected. *)
Definition numeric_endpoint : jsval :=
  JObj [(lit "modules",
         JArr [JObj [(lit "label", JStr (lit "Core"));
                     (lit "components",
                      JArr [JObj [(lit "id", JStr (lit "ui"));
                                  (lit "label", JStr (lit "UI"))]])]]);
        (lit "relationships",
         JArr [JObj [(lit "from", jsnum 1); (lit "to", JStr (lit "ui"))]])].

(** A listing whose one item is a directory that has no [path]. *)
Definition pathless_listing : jsval :=
  JArr [JObj [(lit "name", JStr (lit "lib")); (lit "type", JStr (lit "dir"))]].

(** A directory entry and a file entry of a structure snapshot. *)
Definition dir_entry (name_ : jsstring) (children : list jsval) : jsval :=
  JObj [(lit "name", JStr name_); (lit "type", JStr (lit "dir"));
        (lit "path", JStr name_); (lit "children", JArr children)].

Definition file_entry_of (name_ : jsstring) : jsval :=
  JObj [(lit "name", JStr name_); (lit "type", JStr (lit "file"));
        (lit "path", JStr name_); (lit "size", jsnum 1)].

Definition is_dir_entry (v : jsval) : bool :=
  is_string (read_prop v (lit "type")) (lit "dir").

(** A host for the examples of the diagram generator. The sort puts the
    directories in front and keeps the order otherwise, which is the order of
    the source on entries that stand in name order already; [JSON.parse]
    knows the two texts the examples use. *)
#[local] Instance example_diagram_host : DiagramHost := {|
  JSON_parse := fun s =>
    if str_eqb s (lit "{" ++ dq ++ lit "modules" ++ dq ++ lit ":[]}")
    then Ok (JObj [(lit "modules", JArr [])])
    else if str_eqb s (lit "{}") then Ok (JObj [])
    else Throw (JError (lit "Unexpected token"));
  JSON_stringify_compact := fun _ => lit "<json>";
  Array_sort := fun items =>
    Ok (List.filter is_dir_entry items
        ++ List.filter (fun v => negb (is_dir_entry v)) items);
|}.

(** A small repository: two directories to show, two files to show, and
    three entries the tree leaves out. *)
Definition small_repository : jsval :=
  dir_entry (lit "demo")
    [dir_entry (lit ".github") [file_entry_of (lit "ci.yml")];
     dir_entry (lit "docs") [];
     dir_entry (lit "src") [file_entry_of (lit "main.ts")];
     file_entry_of (lit ".gitignore");
     file_entry_of (lit "build.gradle");
     file_entry_of (lit "package.json");
     file_entry_of (lit "README.md")].

End Scenarios.

(** * Proofs *)

(** Facts about [substring] at the two call shapes of the truncation. *)
Section SubstringFacts.

Lemma str_length_nonneg (s : jsstring) : 0 <= str_length s.
Proof. unfold str_length. lia. Qed.

Lemma substring_prefix (s : jsstring) (n : Z) :
  0 <= n <= str_length s ->
  substring s 0 (Some n) = take (Z.to_nat n) s.
Proof.
  intros Hn. unfold substring.
  replace (Z.min (Z.max 0 0) (str_length s)) with 0 by lia.
  replace (Z.min (Z.max n 0) (str_length s)) with n by lia.
  replace (Z.min 0 n) with 0 by lia.
  replace (Z.max 0 n - 0) with n by lia.
  reflexivity.
Qed.

Lemma substring_suffix (s : jsstring) (n : Z) :
  0 <= n <= str_length s ->
  substring s (str_length s - n) None = drop (Z.to_nat (str_length s - n)) s.
Proof.
  intros Hn. unfold substring.
  set (len := str_length s) in *.
  replace (Z.min (Z.max (len - n) 0) len) with (len - n) by lia.
  replace (Z.min (len - n) len) with (len - n) by lia.
  replace (Z.max (len - n) len - (len - n)) with n by lia.
  apply take_ge. rewrite length_drop. unfold len, str_length in *. lia.
Qed.

End SubstringFacts.

(** ** The rate limiter *)

Section RateLimiter.
Variable E : env.
Hypothesis clock_monotone : forall k, 0 <= elapsed E k.

(** One turn, from any state: it returns, the timestamp it stores is the
    clock at the grant, and that grant is at least [MIN_CALL_INTERVAL] after
    the timestamp it found. *)
Lemma waitForRateLimit_turn (w : world) :
  exists w', waitForRateLimit E w = (Ok tt, w')
    /\ lastGeminiCallTime w' = now w'
    /\ lastGeminiCallTime w + MIN_CALL_INTERVAL <= lastGeminiCallTime w'
    /\ fetches (trace w') = fetches (trace w).
Proof.
  pose proof (clock_monotone (ticks w)) as H0.
  pose proof (clock_monotone (S (ticks w))) as H1.
  pose proof (clock_monotone (S (S (ticks w)))) as H2.
  unfold waitForRateLimit, mbind, M_bind, bind, Date_now, get_lastGeminiCallTime,
    set_lastGeminiCallTime, sleep, ret, pass, MIN_CALL_INTERVAL.
  cbn [now lastGeminiCallTime trace ticks requests].
  destruct (now w + elapsed E (ticks w) - lastGeminiCallTime w <? 1000) eqn:Hlt;
    cbn [now lastGeminiCallTime trace ticks requests].
  - apply Z.ltb_lt in Hlt. eexists. split; [reflexivity|].
    cbn [now lastGeminiCallTime trace ticks requests]. repeat split; try lia.
    unfold fetches. rewrite flat_map_app. cbn. now rewrite app_nil_r.
  - apply Z.ltb_ge in Hlt. eexists. split; [reflexivity|].
    cbn [now lastGeminiCallTime trace ticks requests]. repeat split; lia.
Qed.

End RateLimiter.

(** C9. Under sequential use, with a clock that does not run backwards and
    timers that do not fire early: a turn of [waitForRateLimit] always
    returns (it is delayed, never denied) and stores the grant time in
    [lastGeminiCallTime]; and the next turn, taken from any later state in
    which that timestamp still stands, is granted at least
    [MIN_CALL_INTERVAL] = 1000 ms after it. *)
Theorem waitForRateLimit_consecutive_turns (E : env) (w : world) :
  (forall k, 0 <= elapsed E k) ->
  exists w1, waitForRateLimit E w = (Ok tt, w1)
    /\ lastGeminiCallTime w1 = now w1
    /\ forall w1', lastGeminiCallTime w1' = lastGeminiCallTime w1 ->
         exists w2, waitForRateLimit E w1' = (Ok tt, w2)
           /\ lastGeminiCallTime w2 = now w2
           /\ lastGeminiCallTime w1 + 1000 <= lastGeminiCallTime w2.
Proof.
  intros Hmono.
  destruct (waitForRateLimit_turn E Hmono w) as (w1 & Hrun1 & Hgrant1 & _).
  exists w1. repeat split; try assumption.
  intros w1' Hsame.
  destruct (waitForRateLimit_turn E Hmono w1') as (w2 & Hrun2 & Hgrant2 & Hgap & _).
  exists w2. repeat split; try assumption.
  rewrite <- Hsame. exact Hgap.
Qed.


Lemma waitForRateLimit_consecutive_turns_witness :
  exists w1, waitForRateLimit (Examples.always (Examples.response_of 200 JNull))
               (initial_world 5000) = (Ok tt, w1)
    /\ lastGeminiCallTime w1 = now w1
    /\ forall w1', lastGeminiCallTime w1' = lastGeminiCallTime w1 ->
         exists w2, waitForRateLimit (Examples.always (Examples.response_of 200 JNull)) w1'
                    = (Ok tt, w2)
           /\ lastGeminiCallTime w2 = now w2
           /\ lastGeminiCallTime w1 + 1000 <= lastGeminiCallTime w2.
Proof.
  apply (waitForRateLimit_consecutive_turns
           (Examples.always (Examples.response_of 200 JNull)) (initial_world 5000)).
  intros k. simpl. lia.
Defined.

(** Two turns in immediate succession from a fresh page at time 5000: the
    first is granted at once, the second waits the full second. *)
Example waitForRateLimit_twice :
  let E := Examples.always (Examples.response_of 200 JNull) in
  let '(_, w1) := waitForRateLimit E (initial_world 5000) in
  let '(_, w2) := waitForRateLimit E w1 in
  (lastGeminiCallTime w1, lastGeminiCallTime w2, trace w2) = (5000, 6000, [EvTimer 1000]).
Proof. reflexivity. Qed.

(** ** Batch function explanations *)

(** C10. [generateBatchFunctionExplanations] applied to the empty list
    returns the empty record and leaves the world as it found it: no request
    is issued, no timer is set, and the rate limiter is not consulted (the
    clock is not read and [lastGeminiCallTime] is not written). This holds
    for every API key, the empty one included. *)
Theorem generateBatchFunctionExplanations_empty `{JSHost} (E : env)
    (apiKey : jsstring) (w : world) :
  generateBatchFunctionExplanations E [] apiKey w = (Ok ∅, w).
Proof. reflexivity. Qed.

(** With a function to explain the early return is not taken: the call
    reaches [callGeminiAPI], which rejects an empty key. *)
Lemma generateBatchFunctionExplanations_needs_key `{JSHost} (E : env)
    (f : func) (fs : list func) (w : world) :
  generateBatchFunctionExplanations E (f :: fs) [] w
  = (Throw (JError (lit "Gemini API key is required")), w).
Proof. reflexivity. Qed.

(** With two functions the call goes through the rate limiter and issues
    one request; the reply is read line by line, and a function whose line
    is missing gets the fixed text. *)
Example generateBatchFunctionExplanations_two :
  let run := generateBatchFunctionExplanations (H := Examples.example_host)
               (Examples.answering (lit "Here you go:
  FUNCTION_1: Adds two numbers.
FUNCTION_3: Unrelated."))
               Examples.two_functions (lit "key") (initial_world 5000) in
  match fst run with
  | Ok explanations =>
      explanations !! lit "add" = Some (lit "Adds two numbers.")
      /\ explanations !! lit "sub" = Some (lit "No explanation available")
  | Throw _ => False
  end
  /\ length (fetches (trace (snd run))) = 1%nat
  /\ lastGeminiCallTime (snd run) = 5000.
Proof. vm_compute. repeat split. Qed.

(** ** The structure snapshot at the depth limit *)

(** C7. For every owner, repository, path, [maxDepth] and [currentDepth]
    with [currentDepth >= maxDepth], [fetchCompleteRepoStructure] returns a
    directory node with no children, named after the last segment of the
    path (or after the repository when that is empty), and leaves the world
    unchanged: no request is issued and no timer is set at that level. *)
Theorem fetchCompleteRepoStructure_at_depth_limit `{JSHost} (E : env)
    (owner repo path_ : jsstring) (maxDepth currentDepth : Z) (w : world) :
  currentDepth >= maxDepth ->
  fetchCompleteRepoStructure E owner repo (JStr path_) maxDepth currentDepth w
  = (Ok (DirNode (JStr (last_segment_or repo path_)) None []), w).
Proof.
  intros Hdepth.
  unfold fetchCompleteRepoStructure.
  assert (Hguard : (currentDepth >=? maxDepth) = true) by (apply Z.geb_le; lia).
  destruct (Z.to_nat (maxDepth - currentDepth)) as [|levels];
    cbn [fetchStructure]; rewrite Hguard; reflexivity.
Qed.

Lemma fetchCompleteRepoStructure_at_depth_limit_witness :
  fetchCompleteRepoStructure (H := Examples.example_host)
    (Examples.always (Examples.response_of 200 JNull))
    (lit "octo") (lit "demo") (JStr (lit "src/lib")) 1 1 (initial_world 0)
  = (Ok (DirNode (JStr (lit "lib")) None []), initial_world 0).
Proof.
  apply (fetchCompleteRepoStructure_at_depth_limit (H := Examples.example_host)
           (Examples.always (Examples.response_of 200 JNull))
           (lit "octo") (lit "demo") (lit "src/lib") 1 1 (initial_world 0)).
  lia.
Defined.

(** The same holds of the world for a path of any type, as the recursion
    may pass one: at the depth limit nothing is requested, whether the node
    is returned or the name cannot be computed. *)
Lemma depth_limit_touches_nothing `{JSHost} (E : env) (owner repo : jsstring)
    (path_ : jsval) (maxDepth currentDepth : Z) (w : world) :
  currentDepth >= maxDepth ->
  snd (fetchCompleteRepoStructure E owner repo path_ maxDepth currentDepth w) = w.
Proof.
  intros Hdepth.
  unfold fetchCompleteRepoStructure.
  assert (Hguard : (currentDepth >=? maxDepth) = true) by (apply Z.geb_le; lia).
  destruct (Z.to_nat (maxDepth - currentDepth)) as [|levels];
    cbn [fetchStructure]; rewrite Hguard;
    unfold depth_limit_leaf, lift, mbind, M_bind, bind;
    destruct (node_name (path_or_default path_) repo); reflexivity.
Qed.

(** ** Truncation of the content sent in a prompt *)

Section Truncation.

Lemma head_units_length (n : Z) (content : jsstring) :
  0 <= n <= str_length content -> str_length (head_units n content) = n.
Proof.
  intros Hn. unfold head_units, str_length in *. rewrite length_take. lia.
Qed.

Lemma tail_units_length (n : Z) (content : jsstring) :
  0 <= n <= str_length content -> str_length (tail_units n content) = n.
Proof.
  intros Hn. unfold tail_units, str_length in *. rewrite length_drop. lia.
Qed.

Lemma explanation_window_short (content : jsstring) :
  str_length content <= 15000 -> explanation_window content = (content, false).
Proof.
  intros Hshort. unfold explanation_window.
  destruct (str_length content >? 15000) eqn:Hcmp; [|reflexivity].
  apply Z.gtb_lt in Hcmp. lia.
Qed.

Lemma explanation_window_long (content : jsstring) :
  15000 < str_length content ->
  explanation_window content
  = (head_units 7500 content
     ++ explanation_marker (str_length content - 15000)
     ++ tail_units 7500 content, true).
Proof.
  intros Hlong. unfold explanation_window.
  destruct (str_length content >? 15000) eqn:Hcmp;
    [|rewrite Z.gtb_ltb in Hcmp; apply Z.ltb_ge in Hcmp; lia].
  change (15000 / 2) with 7500.
  rewrite substring_prefix, substring_suffix by lia.
  reflexivity.
Qed.

Lemma question_window_short (content : jsstring) :
  str_length content <= 12000 -> question_window content = (content, false).
Proof.
  intros Hshort. unfold question_window.
  destruct (str_length content >? 12000) eqn:Hcmp; [|reflexivity].
  apply Z.gtb_lt in Hcmp. lia.
Qed.

Lemma question_window_long (content : jsstring) :
  12000 < str_length content ->
  question_window content
  = (head_units 6000 content ++ question_marker ++ tail_units 6000 content, true).
Proof.
  intros Hlong. unfold question_window.
  destruct (str_length content >? 12000) eqn:Hcmp;
    [|rewrite Z.gtb_ltb in Hcmp; apply Z.ltb_ge in Hcmp; lia].
  change (12000 / 2) with 6000.
  rewrite substring_prefix, substring_suffix by lia.
  reflexivity.
Qed.

End Truncation.


(** C1, as amended. For every content string: when its length is at most
    the budget (15000 for file explanation, 12000 for question answering) the
    text embedded in the prompt is the content itself and the prompt is
    annotated as complete; otherwise the embedded text is exactly the first
    [budget / 2] units of the content, a marker, and the last [budget / 2]
    units, and the prompt is annotated as truncated. For file explanation the
    marker notes the omitted count, [length - 15000]; for question answering
    it is a fixed text that carries no count. The annotation of either
    prompt is a function of the same flag. *)
Theorem truncation_policy `{JSHost} (content filePath repoName question : jsstring) :
  (str_length content <= 15000 -> explanation_window content = (content, false))
  /\ (15000 < str_length content ->
      explanation_window content
      = (head_units 7500 content
         ++ explanation_marker (str_length content - 15000)
         ++ tail_units 7500 content, true)
      /\ str_length (head_units 7500 content) = 7500
      /\ str_length (tail_units 7500 content) = 7500)
  /\ (str_length content <= 12000 -> question_window content = (content, false))
  /\ (12000 < str_length content ->
      question_window content
      = (head_units 6000 content ++ question_marker ++ tail_units 6000 content, true)
      /\ str_length (head_units 6000 content) = 6000
      /\ str_length (tail_units 6000 content) = 6000)
  /\ file_explanation_prompt filePath content repoName
     = (let '(sent, isTruncated) := explanation_window content in
        file_prompt_head filePath repoName
          (Z.of_nat (length (split_on 10 content))) (str_length content) isTruncated
        ++ sent
        ++ file_prompt_tail isTruncated
        ++ requested_sections (String_toLowerCase (last_field 46 filePath)))
  /\ code_question_prompt question filePath content repoName
     = (let '(sent, isTruncated) := question_window content in
        question_prompt_head question filePath repoName isTruncated
        ++ sent
        ++ question_prompt_tail).
Proof.
  split; [apply explanation_window_short|].
  split; [intros Hlong; split; [now apply explanation_window_long|];
          split; [apply head_units_length | apply tail_units_length]; lia|].
  split; [apply question_window_short|].
  split; [intros Hlong; split; [now apply question_window_long|];
          split; [apply head_units_length | apply tail_units_length]; lia|].
  split; reflexivity.
Qed.

Lemma long_content_length : str_length Examples.long_content = 12001.
Proof.
  unfold Examples.long_content, str_length. rewrite repeat_length. reflexivity.
Qed.

Lemma truncation_policy_witness :
  explanation_window (lit "const x = 1;") = (lit "const x = 1;", false)
  /\ question_window Examples.long_content
     = (head_units 6000 Examples.long_content
        ++ question_marker
        ++ tail_units 6000 Examples.long_content, true).
Proof.
  split.
  - apply (truncation_policy (H := Examples.example_host) (lit "const x = 1;") [] [] []).
    vm_compute. intros Hgt. inversion Hgt.
  - apply (truncation_policy (H := Examples.example_host) Examples.long_content [] [] []).
    rewrite long_content_length. lia.
Defined.

(** Whatever stands between the head and the tail of a truncated question
    window is the fixed marker. *)
Lemma question_marker_unique (content marker : jsstring) :
  12000 < str_length content ->
  question_window content
  = (head_units 6000 content ++ marker ++ tail_units 6000 content, true) ->
  marker = question_marker.
Proof.
  intros Hlong Hwindow.
  rewrite question_window_long in Hwindow by assumption.
  apply (f_equal fst) in Hwindow. cbn [fst] in Hwindow.
  apply app_inv_head, app_inv_tail in Hwindow. congruence.
Qed.

(** C1 as it was stated does not hold for question answering: on 12001
    copies of the letter a, one unit over the budget, the text between the
    head and the tail does not mention the omitted count, 1. *)
Lemma question_marker_carries_no_count :
  ~ (exists marker,
        question_window Examples.long_content
        = (head_units 6000 Examples.long_content
           ++ marker
           ++ tail_units 6000 Examples.long_content, true)
        /\ includes marker
             (Number_toString_int (str_length Examples.long_content - 12000)) = true).
Proof.
  intros (marker & Hwindow & Hcount).
  assert (Hmarker : marker = question_marker).
  { eapply question_marker_unique; [|exact Hwindow].
    rewrite long_content_length. lia. }
  subst marker. clear Hwindow.
  rewrite long_content_length in Hcount.
  vm_compute in Hcount. discriminate Hcount.
Qed.

(** The same text under the budget of file explanation, 15001 units long,
    does carry the count. *)
Example explanation_marker_carries_count :
  includes (explanation_marker 1) (Number_toString_int 1) = true
  /\ explanation_marker 1
     = lit "

... [middle section truncated - 1 characters omitted] ...

".
Proof. split; vm_compute; reflexivity. Qed.


(** ** The diagram compiler *)

Section Diagram.
Context `{JSHost}.

Lemma bind_Ok {A B : Type} (r : result A) (k : A -> result B) (b : B) :
  r ≫= k = Ok b -> exists a, r = Ok a /\ k a = Ok b.
Proof. destruct r as [a|e]; cbn; [eauto | discriminate]. Qed.

Lemma get_prop_Ok (v : jsval) (k : jsstring) (x : jsval) :
  get_prop v k = Ok x -> nullish v = false /\ x = read_prop v k.
Proof.
  unfold get_prop. destruct (nullish v); [discriminate|]. intros [= <-]. auto.
Qed.

Lemma call_replace_Ok (v : jsval) (in_class : N -> bool) (by_ : N) (s : jsstring) :
  call_replace v in_class by_ = Ok s ->
  exists s0, v = JStr s0 /\ s = replace_class in_class by_ s0.
Proof.
  unfold call_replace, string_receiver.
  destruct v; try discriminate. intros [= <-]. eauto.
Qed.

Lemma sanitized_Ok (v : jsval) (default s : jsstring) :
  call_replace (js_or v (JStr default)) unsafe_id_unit underscore = Ok s ->
  s = sanitized v default.
Proof.
  intros Hcall. apply call_replace_Ok in Hcall as (s0 & Hv & ->).
  unfold sanitized. now rewrite Hv.
Qed.

(** A sanitized text is written in the alphabet [A-Za-z0-9_]. *)
Lemma replace_class_safe (s : jsstring) :
  Forall (fun c => unsafe_id_unit c = false) (replace_class unsafe_id_unit underscore s).
Proof.
  unfold replace_class. apply Forall_forall. intros c Hc.
  apply list_elem_of_In, in_map_iff in Hc as (c0 & <- & _).
  destruct (unsafe_id_unit c0) eqn:Hc0; [reflexivity | exact Hc0].
Qed.

Lemma sanitized_safe (v : jsval) (default : jsstring) :
  Forall (fun c => unsafe_id_unit c = false) (sanitized v default).
Proof.
  unfold sanitized. destruct (js_or v (JStr default)); try (constructor; fail).
  apply replace_class_safe.
Qed.

(** The id under which a component is declared is never empty: an empty
    or missing id gives [node]. *)
Lemma component_id_nonempty (comp : jsval) (st st' : compiler_state) :
  add_component comp st = Ok st' -> component_id comp <> [].
Proof.
  unfold add_component. intros Hrun.
  apply bind_Ok in Hrun as (id & Hid & Hrun).
  apply get_prop_Ok in Hid as (_ & ->).
  apply bind_Ok in Hrun as (safeId & HsafeId & _).
  apply call_replace_Ok in HsafeId as (s0 & Hs0 & _).
  unfold component_id, sanitized. rewrite Hs0.
  unfold js_or in Hs0.
  destruct (truthy (read_prop comp (lit "id"))) eqn:Htruthy.
  - rewrite Hs0 in Htruthy. destruct s0; [discriminate Htruthy|]. discriminate.
  - injection Hs0 as <-. discriminate.
Qed.

Lemma node_ids_app (l1 l2 : list line) : node_ids (l1 ++ l2) = node_ids l1 ++ node_ids l2.
Proof. apply flat_map_app. Qed.

Lemma edge_lines_app (l1 l2 : list line) :
  edge_lines (l1 ++ l2) = edge_lines l1 ++ edge_lines l2.
Proof. apply List.filter_app. Qed.

(** One component appends one node line, whose id is the sanitized id of
    the component, and declares that id. *)
Lemma add_component_Ok (comp : jsval) (st st' : compiler_state) :
  add_component comp st = Ok st' ->
  exists safeLabel,
    mermaid st' = mermaid st ++ [LNode (component_id comp) safeLabel]
    /\ validIds st' = {[ component_id comp ]} ∪ validIds st.
Proof.
  unfold add_component. intros Hrun.
  apply bind_Ok in Hrun as (id & Hid & Hrun).
  apply get_prop_Ok in Hid as (_ & ->).
  apply bind_Ok in Hrun as (safeId & HsafeId & Hrun).
  apply sanitized_Ok in HsafeId. fold (component_id comp) in HsafeId. subst safeId.
  apply bind_Ok in Hrun as (label & _ & Hrun).
  apply bind_Ok in Hrun as (safeLabel & _ & Hrun).
  injection Hrun as <-. exists safeLabel. split; reflexivity.
Qed.

Lemma components_Ok (components : list jsval) (st st' : compiler_state) :
  forEach add_component components st = Ok st' ->
  node_ids (mermaid st') = node_ids (mermaid st) ++ List.map component_id components
  /\ edge_lines (mermaid st') = edge_lines (mermaid st)
  /\ validIds st' = list_to_set (List.map component_id components) ∪ validIds st.
Proof.
  revert st. induction components as [|comp components IH]; intros st; cbn [forEach].
  - intros [= <-]. rewrite app_nil_r. repeat split. cbn. set_solver.
  - destruct (add_component comp st) as [st1|e] eqn:Hcomp; [|discriminate].
    intros Hrest. apply add_component_Ok in Hcomp as (safeLabel & Hlines & Hids).
    apply IH in Hrest as (Hnodes & Hedges & Hdeclared).
    rewrite Hnodes, Hedges, Hdeclared, Hlines, Hids, node_ids_app, edge_lines_app.
    cbn. rewrite !app_nil_r, <- app_assoc. repeat split. set_solver.
Qed.

Lemma add_module_Ok (mod_ : jsval) (st st' : compiler_state) :
  add_module mod_ st = Ok st' ->
  node_ids (mermaid st')
  = node_ids (mermaid st) ++ List.map component_id (components_of mod_)
  /\ edge_lines (mermaid st') = edge_lines (mermaid st)
  /\ validIds st'
     = list_to_set (List.map component_id (components_of mod_)) ∪ validIds st.
Proof.
  unfold add_module, components_of. intros Hrun.
  apply bind_Ok in Hrun as (label & _ & Hrun).
  apply bind_Ok in Hrun as (safeModLabel & _ & Hrun).
  apply bind_Ok in Hrun as (st2 & Hcomps & Hrun).
  injection Hrun as <-.
  destruct (read_prop mod_ (lit "components")) eqn:Hcomponents;
    try (injection Hcomps as <-; cbn; rewrite !node_ids_app, !edge_lines_app; cbn;
         rewrite !app_nil_r; repeat split; set_solver).
  apply components_Ok in Hcomps as (Hnodes & Hedges & Hdeclared).
  cbn [emit mermaid validIds] in *.
  rewrite node_ids_app, edge_lines_app, Hnodes, Hedges, Hdeclared.
  rewrite node_ids_app, edge_lines_app. cbn. rewrite !app_nil_r. repeat split.
Qed.

Lemma modules_Ok (modules : list jsval) (st st' : compiler_state) :
  forEach add_module modules st = Ok st' ->
  node_ids (mermaid st') = node_ids (mermaid st) ++ component_ids modules
  /\ edge_lines (mermaid st') = edge_lines (mermaid st)
  /\ validIds st' = list_to_set (component_ids modules) ∪ validIds st.
Proof.
  revert st. induction modules as [|mod_ modules IH]; intros st; cbn [forEach].
  - intros [= <-]. rewrite app_nil_r. repeat split. cbn. set_solver.
  - destruct (add_module mod_ st) as [st1|e] eqn:Hmod; [|discriminate].
    intros Hrest. apply add_module_Ok in Hmod as (Hnodes1 & Hedges1 & Hids1).
    apply IH in Hrest as (Hnodes & Hedges & Hdeclared).
    rewrite Hnodes, Hedges, Hdeclared, Hnodes1, Hedges1, Hids1.
    unfold component_ids. cbn [flat_map]. rewrite <- app_assoc. repeat split.
    rewrite list_to_set_app_L. set_solver.
Qed.

Lemma components_nonempty (components : list jsval) (st st' : compiler_state) :
  forEach add_component components st = Ok st' ->
  Forall (fun id => id <> []) (List.map component_id components).
Proof.
  revert st. induction components as [|comp components IH]; intros st; cbn [forEach].
  - intros _. constructor.
  - destruct (add_component comp st) as [st1|e] eqn:Hcomp; [|discriminate].
    intros Hrest. constructor; [eapply component_id_nonempty, Hcomp | eapply IH, Hrest].
Qed.

Lemma modules_nonempty (modules : list jsval) (st st' : compiler_state) :
  forEach add_module modules st = Ok st' ->
  Forall (fun id => id <> []) (component_ids modules).
Proof.
  revert st. induction modules as [|mod_ modules IH]; intros st; cbn [forEach].
  - intros _. constructor.
  - destruct (add_module mod_ st) as [st1|e] eqn:Hmod; [|discriminate].
    intros Hrest. unfold component_ids. cbn [flat_map].
    apply Forall_app. split; [|eapply IH, Hrest].
    unfold add_module, components_of in *.
    apply bind_Ok in Hmod as (label & _ & Hmod).
    apply bind_Ok in Hmod as (safeModLabel & _ & Hmod).
    apply bind_Ok in Hmod as (st2 & Hcomps & _).
    destruct (read_prop mod_ (lit "components")); try constructor.
    eapply components_nonempty, Hcomps.
Qed.

Lemma component_ids_safe (modules : list jsval) :
  Forall (Forall (fun c => unsafe_id_unit c = false)) (component_ids modules).
Proof.
  unfold component_ids. apply Forall_forall. intros id Hid.
  apply list_elem_of_In, in_flat_map in Hid as (mod_ & _ & Hid).
  apply in_map_iff in Hid as (comp & <- & _). apply sanitized_safe.
Qed.

(** One relationship leaves the declared ids alone and appends its edge
    line exactly when both of its endpoints are declared. *)
Lemma add_relationship_Ok (rel : jsval) (st st' : compiler_state) :
  add_relationship rel st = Ok st' ->
  validIds st' = validIds st
  /\ mermaid st' = mermaid st ++ kept_edges (validIds st) [rel].
Proof.
  unfold add_relationship, kept_edges. intros Hrun.
  apply bind_Ok in Hrun as (from & Hfrom & Hrun).
  apply get_prop_Ok in Hfrom as (_ & ->).
  apply bind_Ok in Hrun as (fromId & HfromId & Hrun).
  apply sanitized_Ok in HfromId. fold (from_id rel) in HfromId. subst fromId.
  apply bind_Ok in Hrun as (to & Hto & Hrun).
  apply get_prop_Ok in Hto as (_ & ->).
  apply bind_Ok in Hrun as (toId & HtoId & Hrun).
  apply sanitized_Ok in HtoId. fold (to_id rel) in HtoId. subst toId.
  cbn [flat_map]. rewrite app_nil_r.
  destruct (has (validIds st) (from_id rel) && has (validIds st) (to_id rel));
    injection Hrun as <-; cbn; [|rewrite app_nil_r]; split; reflexivity.
Qed.

Lemma relationships_Ok (relationships : list jsval) (st st' : compiler_state) :
  forEach add_relationship relationships st = Ok st' ->
  validIds st' = validIds st
  /\ mermaid st' = mermaid st ++ kept_edges (validIds st) relationships.
Proof.
  revert st. induction relationships as [|rel relationships IH]; intros st; cbn [forEach].
  - intros [= <-]. cbn. now rewrite app_nil_r.
  - destruct (add_relationship rel st) as [st1|e] eqn:Hrel; [|discriminate].
    intros Hrest. apply add_relationship_Ok in Hrel as (Hids1 & Hlines1).
    apply IH in Hrest as (Hids & Hlines).
    rewrite Hids, Hlines, Hids1, Hlines1. split; [reflexivity|].
    unfold kept_edges. cbn [flat_map]. rewrite app_nil_r, <- app_assoc. reflexivity.
Qed.

(** A relationship of the expected shape never throws, whatever its
    endpoints name. *)
Lemma add_relationship_total (rel : jsval) (st : compiler_state) :
  relationship_shaped rel = true -> exists st', add_relationship rel st = Ok st'.
Proof.
  unfold relationship_shaped, add_relationship, get_prop.
  intros Hshape. apply andb_prop in Hshape as (Hshape & Hto).
  apply andb_prop in Hshape as (Hnull & Hfrom).
  apply negb_true_iff in Hnull. rewrite Hnull. unfold mbind, result_bind.
  assert (Hreplace : forall v, string_or_falsy v = true ->
            exists s, call_replace (js_or v (JStr [])) unsafe_id_unit underscore = Ok s).
  { intros v Hv. unfold js_or. destruct v as [| |b|x|s|items|props|message];
      cbn in Hv |- *; try discriminate; eauto.
    - apply negb_true_iff in Hv. rewrite Hv. cbn. eauto.
    - apply negb_true_iff in Hv. rewrite Hv. cbn. eauto.
    - destruct s; cbn; eauto. }
  destruct (Hreplace _ Hfrom) as (fromId & ->).
  destruct (Hreplace _ Hto) as (toId & ->).
  destruct (has (validIds st) fromId && has (validIds st) toId); eauto.
Qed.

Lemma relationships_total (relationships : list jsval) (st : compiler_state) :
  forallb relationship_shaped relationships = true ->
  exists st', forEach add_relationship relationships st = Ok st'.
Proof.
  revert st. induction relationships as [|rel relationships IH]; intros st Hshape.
  - cbn. eauto.
  - cbn in Hshape. apply andb_prop in Hshape as (Hrel & Hrest).
    destruct (add_relationship_total rel st Hrel) as (st1 & Hst1).
    cbn [forEach]. rewrite Hst1. apply IH, Hrest.
Qed.

(** Only an object has an array among the properties read here, and an
    object is truthy. *)
Lemma read_array_truthy (data : jsval) (k : jsstring) (items : list jsval) :
  read_prop data k = JArr items -> truthy data = true.
Proof.
  destruct data; cbn; try discriminate; try reflexivity;
    destruct (str_eqb _ _); discriminate.
Qed.

Lemma replace_total (v : jsval) (default : jsstring) (in_class : N -> bool) (by_ : N) :
  string_or_falsy v = true ->
  exists s, call_replace (js_or v (JStr default)) in_class by_ = Ok s.
Proof.
  intros Hv. unfold js_or. destruct v as [| |b|x|s|items|props|message];
    cbn in Hv |- *; try discriminate; eauto.
  - apply negb_true_iff in Hv. rewrite Hv. cbn. eauto.
  - apply negb_true_iff in Hv. rewrite Hv. cbn. eauto.
  - destruct s; cbn; eauto.
Qed.

Lemma add_component_total (comp : jsval) (st : compiler_state) :
  component_shaped comp = true -> exists st', add_component comp st = Ok st'.
Proof.
  unfold component_shaped, add_component, get_prop.
  intros Hshape. apply andb_prop in Hshape as (Hshape & Hlabel).
  apply andb_prop in Hshape as (Hnull & Hid).
  apply negb_true_iff in Hnull. rewrite Hnull. unfold mbind, result_bind.
  destruct (replace_total _ (lit "node") unsafe_id_unit underscore Hid) as (safeId & ->).
  destruct (replace_total _ safeId is_double_quote single_quote Hlabel) as (safeLabel & ->).
  eauto.
Qed.

Lemma components_total (components : list jsval) (st : compiler_state) :
  forallb component_shaped components = true ->
  exists st', forEach add_component components st = Ok st'.
Proof.
  revert st. induction components as [|comp components IH]; intros st Hshape.
  - cbn. eauto.
  - cbn in Hshape. apply andb_prop in Hshape as (Hcomp & Hrest).
    destruct (add_component_total comp st Hcomp) as (st1 & Hst1).
    cbn [forEach]. rewrite Hst1. apply IH, Hrest.
Qed.

Lemma add_module_total (mod_ : jsval) (st : compiler_state) :
  module_shaped mod_ = true -> exists st', add_module mod_ st = Ok st'.
Proof.
  unfold module_shaped, add_module, get_prop, components_of.
  intros Hshape. apply andb_prop in Hshape as (Hshape & Hcomps).
  apply andb_prop in Hshape as (Hnull & Hlabel).
  apply negb_true_iff in Hnull. rewrite Hnull. unfold mbind, result_bind.
  destruct (replace_total _ (lit "Module") is_double_quote single_quote Hlabel)
    as (safeModLabel & ->).
  destruct (read_prop mod_ (lit "components")); eauto.
  destruct (components_total items (emit (LSubgraph safeModLabel) st) Hcomps)
    as (st2 & ->).
  eauto.
Qed.

Lemma modules_total (modules : list jsval) (st : compiler_state) :
  forallb module_shaped modules = true ->
  exists st', forEach add_module modules st = Ok st'.
Proof.
  revert st. induction modules as [|mod_ modules IH]; intros st Hshape.
  - cbn. eauto.
  - cbn in Hshape. apply andb_prop in Hshape as (Hmod & Hrest).
    destruct (add_module_total mod_ st Hmod) as (st1 & Hst1).
    cbn [forEach]. rewrite Hst1. apply IH, Hrest.
Qed.

Lemma node_ids_kept_edges (declared : gset jsstring) (relationships : list jsval) :
  node_ids (kept_edges declared relationships) = [].
Proof.
  induction relationships as [|rel relationships IH]; [reflexivity|].
  unfold kept_edges in *. cbn [flat_map]. rewrite node_ids_app, IH, app_nil_r.
  destruct (has declared (from_id rel) && has declared (to_id rel)); reflexivity.
Qed.

Lemma edge_lines_kept_edges (declared : gset jsstring) (relationships : list jsval) :
  edge_lines (kept_edges declared relationships) = kept_edges declared relationships.
Proof.
  induction relationships as [|rel relationships IH]; [reflexivity|].
  unfold kept_edges in *. cbn [flat_map]. rewrite edge_lines_app, IH.
  destruct (has declared (from_id rel) && has declared (to_id rel)); reflexivity.
Qed.

(** Past the guard, the only failures are [TypeError]s of the runtime. *)
Lemma bind_type_error {A B : Type} (r : result A) (k : A -> result B) :
  ok_or_type_error r -> (forall a, ok_or_type_error (k a)) ->
  ok_or_type_error (r ≫= k).
Proof. destruct r as [a|e]; cbn; auto. Qed.

Lemma get_prop_type_error (v : jsval) (k : jsstring) : ok_or_type_error (get_prop v k).
Proof. unfold get_prop. destruct (nullish v); cbn; eauto. Qed.

Lemma call_replace_type_error (v : jsval) (in_class : N -> bool) (by_ : N) :
  ok_or_type_error (call_replace v in_class by_).
Proof. unfold call_replace, string_receiver. destruct v; cbn; eauto. Qed.

Lemma forEach_type_error {A S : Type} (f : A -> S -> result S) (items : list A) :
  (forall x st, ok_or_type_error (f x st)) ->
  forall st, ok_or_type_error (forEach f items st).
Proof.
  intros Hf. induction items as [|x items IH]; intros st; cbn [forEach]; [exact I|].
  specialize (Hf x st). destruct (f x st) as [st'|e]; [apply IH | exact Hf].
Qed.

Lemma add_component_type_error (comp : jsval) (st : compiler_state) :
  ok_or_type_error (add_component comp st).
Proof.
  unfold add_component.
  apply bind_type_error; [apply get_prop_type_error|intros id].
  apply bind_type_error; [apply call_replace_type_error|intros safeId].
  apply bind_type_error; [apply get_prop_type_error|intros label].
  apply bind_type_error; [apply call_replace_type_error|intros safeLabel].
  exact I.
Qed.

Lemma add_module_type_error (mod_ : jsval) (st : compiler_state) :
  ok_or_type_error (add_module mod_ st).
Proof.
  unfold add_module.
  apply bind_type_error; [apply get_prop_type_error|intros label].
  apply bind_type_error; [apply call_replace_type_error|intros safeModLabel].
  apply bind_type_error; [|intros st2; exact I].
  destruct (read_prop mod_ (lit "components")); try exact I.
  apply forEach_type_error, add_component_type_error.
Qed.

Lemma add_relationship_type_error (rel : jsval) (st : compiler_state) :
  ok_or_type_error (add_relationship rel st).
Proof.
  unfold add_relationship.
  apply bind_type_error; [apply get_prop_type_error|intros from].
  apply bind_type_error; [apply call_replace_type_error|intros fromId].
  apply bind_type_error; [apply get_prop_type_error|intros to].
  apply bind_type_error; [apply call_replace_type_error|intros toId].
  destruct (has (validIds st) fromId && has (validIds st) toId); exact I.
Qed.

(** An input whose [modules] is an array is never rejected by the guard:
    it compiles, or a [TypeError] is thrown on the way. *)
Lemma compile_array_outcomes (data : jsval) (modules : list jsval) :
  read_prop data (lit "modules") = JArr modules ->
  ok_or_type_error (compile data).
Proof.
  intros Hmodules. unfold compile.
  rewrite (read_array_truthy _ _ _ Hmodules), Hmodules. cbn [negb orb truthy].
  apply bind_type_error; [apply forEach_type_error, add_module_type_error|intros st1].
  apply bind_type_error; [|intros st2; exact I].
  destruct (read_prop data (lit "relationships")); try exact I.
  apply forEach_type_error, add_relationship_type_error.
Qed.

(** The shape of a successful compilation: the header, the lines of the
    modules, the kept edges, the style directive; the declared ids are the
    sanitized ids of the components. *)
Lemma compile_Ok (data : jsval) (st : compiler_state) :
  compile data = Ok st ->
  exists modules st1,
    read_prop data (lit "modules") = JArr modules
    /\ forEach add_module modules {| mermaid := [LHeader]; validIds := ∅ |} = Ok st1
    /\ validIds st = validIds st1
    /\ validIds st1 = list_to_set (component_ids modules)
    /\ node_ids (mermaid st1) = component_ids modules
    /\ edge_lines (mermaid st1) = []
    /\ mermaid st
       = mermaid st1
         ++ kept_edges (validIds st1)
              (match read_prop data (lit "relationships") with
               | JArr relationships => relationships
               | _ => []
               end)
         ++ [LStyle].
Proof.
  unfold compile. intros Hrun.
  destruct (negb (truthy data) || negb (truthy (read_prop data (lit "modules"))));
    [discriminate|].
  destruct (read_prop data (lit "modules")) as [| | | | |modules| |] eqn:Hmodules;
    try discriminate.
  apply bind_Ok in Hrun as (st1 & Hmods & Hrun).
  apply bind_Ok in Hrun as (st2 & Hrels & Hrun).
  injection Hrun as <-.
  exists modules, st1.
  pose proof (modules_Ok _ _ _ Hmods) as (Hnodes & Hedges & Hdeclared).
  cbn in Hnodes, Hedges, Hdeclared.
  assert (Hst2 : validIds st2 = validIds st1
                 /\ mermaid st2
                    = mermaid st1
                      ++ kept_edges (validIds st1)
                           (match read_prop data (lit "relationships") with
                            | JArr relationships => relationships
                            | _ => []
                            end)).
  { destruct (read_prop data (lit "relationships"));
      try (injection Hrels as <-; cbn; now rewrite app_nil_r).
    now apply relationships_Ok. }
  destruct Hst2 as (Hids2 & Hlines2).
  cbn [emit mermaid validIds]. rewrite Hlines2, <- app_assoc.
  repeat split; try assumption.
  rewrite Hdeclared. set_solver.
Qed.

End Diagram.


(** C3, as amended. For every diagram input whose [modules] field is an
    array and that compiles: the output holds one node line per component,
    in the order of the input, each under the sanitized id of its component,
    which is not empty and is written in the alphabet [A-Za-z0-9_], and the
    declared-id set is the set of these ids. The compiler neither
    renames nor drops a component whose sanitized id repeats an earlier one,
    so the ids of the node lines are pairwise distinct exactly when the
    sanitized ids of the input's components are. *)
Theorem node_ids_follow_components `{JSHost} (data : jsval) (modules : list jsval)
    (st : compiler_state) :
  read_prop data (lit "modules") = JArr modules ->
  compile data = Ok st ->
  node_ids (mermaid st) = component_ids modules
  /\ Forall (fun id => id <> [] /\ Forall (fun c => unsafe_id_unit c = false) id)
       (node_ids (mermaid st))
  /\ (forall id, id ∈ validIds st <-> id ∈ component_ids modules)
  /\ (NoDup (node_ids (mermaid st)) <-> NoDup (component_ids modules)).
Proof.
  intros Hmodules Hrun.
  apply compile_Ok in Hrun
    as (modules' & st1 & Hmodules' & Hmods & Hids & Hdeclared & Hnodes & _ & Hlines).
  rewrite Hmodules in Hmodules'. injection Hmodules' as <-.
  assert (Hsame : node_ids (mermaid st) = component_ids modules).
  { rewrite Hlines, !node_ids_app, node_ids_kept_edges, Hnodes. cbn.
    now rewrite !app_nil_r. }
  split; [exact Hsame|]. split; [|split].
  - rewrite Hsame. apply Forall_and. split.
    + eapply modules_nonempty, Hmods.
    + apply component_ids_safe.
  - intros id. rewrite Hids, Hdeclared. apply elem_of_list_to_set.
  - now rewrite Hsame.
Qed.

Lemma node_ids_follow_components_witness :
  exists st,
    compile (H := Examples.example_host) Examples.one_dangling_edge = Ok st
    /\ node_ids (mermaid st) = [lit "ui"; lit "api"]
    /\ NoDup (node_ids (mermaid st)).
Proof.
  destruct (compile (H := Examples.example_host) Examples.one_dangling_edge)
    as [st|e] eqn:Hrun; [|vm_compute in Hrun; discriminate Hrun].
  exists st. split; [reflexivity|].
  destruct (node_ids_follow_components (H := Examples.example_host)
              Examples.one_dangling_edge _ st eq_refl Hrun)
    as (Hnodes & _ & _ & Hdistinct).
  split; [exact Hnodes|].
  apply Hdistinct. apply (bool_decide_unpack _). vm_compute. exact I.
Defined.

(** C3 as it was stated does not hold: two components without an id both
    become [node], and the compiled diagram declares that id twice. *)
Lemma anonymous_components_share_an_id :
  convertJsonToMermaid (H := Examples.example_host) Examples.two_anonymous_components
  = Ok (lit "graph TD
    subgraph " ++ dq ++ lit "Core" ++ dq ++ lit "
        node[" ++ dq ++ lit "node" ++ dq ++ lit "]
        node[" ++ dq ++ lit "node" ++ dq ++ lit "]
    end

    classDef default fill:#1f2937,stroke:#3b82f6,stroke-width:2px,color:#fff;")
  /\ (exists ls,
        compile_lines (H := Examples.example_host) Examples.two_anonymous_components = Ok ls
        /\ node_ids ls = [lit "node"; lit "node"]
        /\ ~ NoDup (node_ids ls)).
Proof.
  split; [vm_compute; reflexivity|].
  eexists. split; [vm_compute; reflexivity|].
  split; [vm_compute; reflexivity|].
  intros Hdistinct. vm_compute in Hdistinct.
  inversion Hdistinct as [|? ? Hnotin _]. apply Hnotin. left.
Qed.


(** The edges of a compiled diagram. For every diagram input whose [modules]
    field is an array, with the declared-id set being the sanitized ids of
    the modules' components: whenever the input compiles, the edge lines of the output are those of
    the relationships whose sanitized [from] and [to] are both declared, in
    order, so that the line of a relationship is in the output if and only
    if both of its endpoints are declared; the arrow of the line is dotted
    when the [type] of the relationship is [dotted] and solid otherwise. A
    relationship is never the reason for a failure: once the modules have
    been processed, relationships of the expected shape compile whatever
    ids they name, the undeclared ones being dropped. *)
Theorem relationships_become_edges `{JSHost} (data : jsval)
    (modules relationships : list jsval) :
  read_prop data (lit "modules") = JArr modules ->
  read_prop data (lit "relationships") = JArr relationships ->
  (forall st, compile data = Ok st ->
     (forall id, id ∈ validIds st <-> id ∈ component_ids modules)
     /\ edge_lines (mermaid st) = kept_edges (validIds st) relationships
     /\ (forall rel, rel ∈ relationships ->
           (LEdge (from_id rel)
                  (if is_string (read_prop rel (lit "type")) (lit "dotted")
                   then lit "-.->" else lit "-->")
                  (to_id rel) ∈ mermaid st
            <-> from_id rel ∈ validIds st /\ to_id rel ∈ validIds st)))
  /\ (forall st1,
        forEach add_module modules {| mermaid := [LHeader]; validIds := ∅ |} = Ok st1 ->
        forallb relationship_shaped relationships = true ->
        exists st, compile data = Ok st /\ validIds st = validIds st1).
Proof.
  intros Hmodules Hrelationships. split.
  - intros st Hrun.
    apply compile_Ok in Hrun
      as (modules' & st1 & Hmodules' & _ & Hids & Hdeclared & _ & Hnoedges & Hlines).
    rewrite Hmodules in Hmodules'. injection Hmodules' as <-.
    rewrite Hrelationships in Hlines.
    assert (Hedges : edge_lines (mermaid st) = kept_edges (validIds st) relationships).
    { rewrite Hlines, !edge_lines_app, Hnoedges, edge_lines_kept_edges, Hids. cbn.
      now rewrite app_nil_r. }
    split; [intros id; rewrite Hids, Hdeclared; apply elem_of_list_to_set|].
    split; [exact Hedges|].
    intros rel Hrel. fold (arrow_of rel). fold (edge_line_of rel).
    assert (Hline : edge_line_of rel ∈ mermaid st
                    <-> edge_line_of rel ∈ edge_lines (mermaid st)).
    { unfold edge_lines. rewrite !list_elem_of_In, List.filter_In. cbn. tauto. }
    rewrite Hline, Hedges. unfold kept_edges.
    rewrite list_elem_of_In, in_flat_map. split.
    + intros (rel' & _ & Hkept).
      destruct (has (validIds st) (from_id rel') && has (validIds st) (to_id rel'))
        eqn:Hboth; [|destruct Hkept].
      destruct Hkept as [Hsame|[]]. injection Hsame as Hfrom _ Hto.
      apply andb_prop in Hboth as (Hf & Ht). unfold has in Hf, Ht.
      apply bool_decide_eq_true in Hf, Ht. rewrite <- Hfrom, <- Hto. auto.
    + intros (Hf & Ht). exists rel. split; [now apply list_elem_of_In|].
      unfold has. rewrite !bool_decide_true by assumption. now left.
  - intros st1 Hmods Hshape.
    destruct (relationships_total relationships st1 Hshape) as (st2 & Hst2).
    exists (emit LStyle st2). unfold compile.
    pose proof (read_array_truthy _ _ _ Hmodules) as Hdata.
    rewrite Hdata, Hmodules, Hrelationships. cbn [negb orb truthy].
    unfold mbind, result_bind. rewrite Hmods, Hst2. split; [reflexivity|].
    apply relationships_Ok in Hst2 as (Hids & _). exact Hids.
Qed.

Lemma relationships_become_edges_witness :
  exists st,
    compile (H := Examples.example_host) Examples.one_dangling_edge = Ok st
    /\ edge_lines (mermaid st) = [LEdge (lit "ui") (lit "-.->") (lit "api")].
Proof.
  destruct (relationships_become_edges (H := Examples.example_host)
              Examples.one_dangling_edge _ _ eq_refl eq_refl) as (Hedges & Htotal).
  destruct (compile (H := Examples.example_host) Examples.one_dangling_edge)
    as [st|e] eqn:Hrun; [|vm_compute in Hrun; discriminate Hrun].
  exists st. split; [reflexivity|].
  destruct (Hedges st eq_refl) as (_ & -> & _).
  clear Hedges Htotal. vm_compute in Hrun. injection Hrun as <-.
  vm_compute. reflexivity.
Defined.

(** The scenario of the specification: the relationship from [api] to the
    undeclared [db] leaves no line, and compilation succeeds. *)
Example dangling_edge_is_dropped :
  convertJsonToMermaid (H := Examples.example_host) Examples.one_dangling_edge
  = Ok (lit "graph TD
    subgraph " ++ dq ++ lit "Core" ++ dq ++ lit "
        ui[" ++ dq ++ lit "UI" ++ dq ++ lit "]
        api[" ++ dq ++ lit "API" ++ dq ++ lit "]
    end
    ui -.-> api

    classDef default fill:#1f2937,stroke:#3b82f6,stroke-width:2px,color:#fff;").
Proof. vm_compute. reflexivity. Qed.

(** C4 does not hold of the code. The claim: for every input whose [modules]
    is an array and for every entry of its [relationships], the entry leaves
    an edge line if and only if both of its sanitized ids are declared, and
    an entry that names an undeclared id is dropped without ever making the
    compilation fail. The code: on an input whose [modules] is an array that
    compiles by itself, and whose one relationship has the number 1 as its
    [from], [(rel.from || '').replace] is not a function (line 489), and
    [convertJsonToMermaid] throws that [TypeError]: no line is produced at
    all. The defect is the one met on a numeric component id (line 473). *)
Theorem convertJsonToMermaid_throws_on_numeric_endpoint `{JSHost} :
  isArray (read_prop Scenarios.numeric_endpoint (lit "modules")) = true
  /\ (exists modules relationships st1,
        read_prop Scenarios.numeric_endpoint (lit "modules") = JArr modules
        /\ read_prop Scenarios.numeric_endpoint (lit "relationships") = JArr relationships
        /\ forEach add_module modules {| mermaid := [LHeader]; validIds := ∅ |} = Ok st1
        /\ forallb relationship_shaped relationships = false)
  /\ compile Scenarios.numeric_endpoint = Throw (TypeError (NotAFunction (lit "replace")))
  /\ convertJsonToMermaid Scenarios.numeric_endpoint
     = Throw (TypeError (NotAFunction (lit "replace"))).
Proof.
  split; [reflexivity|]. split; [|split; reflexivity].
  eexists _, _, _. repeat split; reflexivity.
Qed.

(** [convertJsonToMermaid] rejects an input exactly on its guard: a falsy
    input, or a [modules] field that is missing or not an array. *)
Lemma compile_rejects (data : jsval) `{JSHost} :
  isArray (read_prop data (lit "modules")) = false ->
  compile data = Throw invalid_diagram_data.
Proof.
  intros Hnot. unfold compile.
  destruct (negb (truthy data) || negb (truthy (read_prop data (lit "modules"))));
    [reflexivity|].
  destruct (read_prop data (lit "modules")); try reflexivity. discriminate.
Qed.

(** An input whose entries all have the expected shape, fields missing or
    not, compiles, and the text ends with the style directive. *)
Lemma compile_total_on_shaped `{JSHost} (data : jsval) (modules : list jsval) :
  read_prop data (lit "modules") = JArr modules ->
  forallb module_shaped modules = true ->
  forallb relationship_shaped
    (match read_prop data (lit "relationships") with
     | JArr relationships => relationships
     | _ => []
     end) = true ->
  exists text, convertJsonToMermaid data = Ok (text ++ style_directive).
Proof.
  intros Hmodules Hmods Hrels.
  pose proof (read_array_truthy _ _ _ Hmodules) as Hdata.
  destruct (modules_total modules {| mermaid := [LHeader]; validIds := ∅ |} Hmods)
    as (st1 & Hst1).
  assert (Hst2 : exists st2,
             match read_prop data (lit "relationships") with
             | JArr relationships => forEach add_relationship relationships st1
             | _ => Ok st1
             end = Ok st2).
  { destruct (read_prop data (lit "relationships")); eauto.
    now apply relationships_total. }
  destruct Hst2 as (st2 & Hst2).
  exists (render (mermaid st2)).
  unfold convertJsonToMermaid, compile_lines, compile.
  rewrite Hdata, Hmodules. cbn [negb orb truthy].
  unfold mbind, result_bind. rewrite Hst1, Hst2.
  cbn [emit mermaid]. unfold render.
  rewrite List.map_app, concat_app. cbn [List.map concat render_line].
  now rewrite app_nil_r.
Qed.

(** C5 does not hold of the code. The claim: compilation fails, with
    [InvalidDiagramData], if and only if [modules] is missing or not an
    array, and succeeds on every input whose [modules] is an array. The
    code: on an input whose [modules] is an array holding one component
    with the numeric id 1, [(comp.id || 'node').replace] is not a function,
    and [convertJsonToMermaid] throws that [TypeError]. *)
Theorem convertJsonToMermaid_throws_on_numeric_id `{JSHost} :
  isArray (read_prop Examples.numeric_component_id (lit "modules")) = true
  /\ convertJsonToMermaid Examples.numeric_component_id
     = Throw (TypeError (NotAFunction (lit "replace"))).
Proof. split; reflexivity. Qed.

(** A [null] entry among the modules ends the same way. *)
Example convertJsonToMermaid_throws_on_null_module `{JSHost} :
  convertJsonToMermaid (JObj [(lit "modules", JArr [JNull])])
  = Throw (TypeError (ReadOfNullish (lit "label"))).
Proof. reflexivity. Qed.


(** ** The repository URL *)

Section RepoUrl.

Lemma startsWith_app (s p : jsstring) :
  startsWith s p = true -> s = p ++ drop (length p) s.
Proof.
  revert s. induction p as [|c p IH]; intros s; [reflexivity|].
  destruct s as [|d s]; cbn; [discriminate|].
  intros Hstarts. apply andb_prop in Hstarts as (Heq & Hrest).
  apply N.eqb_eq in Heq. subst d. f_equal. now apply IH.
Qed.

Lemma startsWith_prefix (p rest : jsstring) : startsWith (p ++ rest) p = true.
Proof.
  induction p as [|c p IH]; [reflexivity|].
  cbn. now rewrite N.eqb_refl, IH.
Qed.

(** A segment is the part of the text before its first slash. *)
Lemma segment_spec (s run rest : jsstring) :
  segment s = (run, rest) ->
  s = run ++ rest /\ (slash ∉ run) /\ (rest = [] \/ exists rest', rest = slash :: rest').
Proof.
  revert run rest. induction s as [|c s IH]; intros run rest; cbn.
  - intros [= <- <-]. repeat split; [apply not_elem_of_nil | now left].
  - destruct (N.eqb c slash) eqn:Hc.
    + intros [= <- <-]. apply N.eqb_eq in Hc. subst c.
      repeat split; [apply not_elem_of_nil | right; eauto].
    + destruct (segment s) as (run' & rest') eqn:Hseg.
      intros [= <- <-]. destruct (IH _ _ eq_refl) as (-> & Hnotin & Hrest).
      apply N.eqb_neq in Hc. repeat split; [|assumption].
      rewrite not_elem_of_cons. auto.
Qed.

(** The segment of a text that begins with a slash-free run followed by a
    slash is that run. *)
Lemma segment_run (run rest : jsstring) :
  slash ∉ run -> segment (run ++ slash :: rest) = (run, slash :: rest).
Proof.
  induction run as [|c run IH]; intros Hnotin; cbn.
  - reflexivity.
  - apply not_elem_of_cons in Hnotin as (Hc & Hrun).
    destruct (N.eqb c slash) eqn:Heq; [apply N.eqb_eq in Heq; congruence|].
    now rewrite IH.
Qed.

(** The segment of a text that begins with a slash-free run at least
    includes that run. *)
Lemma segment_extends (run after : jsstring) :
  slash ∉ run -> exists more rest, segment (run ++ after) = (run ++ more, rest).
Proof.
  induction run as [|c run IH]; intros Hnotin; cbn.
  - destruct (segment after) as (more & rest). eauto.
  - apply not_elem_of_cons in Hnotin as (Hc & Hrun).
    destruct (N.eqb c slash) eqn:Heq; [apply N.eqb_eq in Heq; congruence|].
    destruct (IH Hrun) as (more & rest & ->). eauto.
Qed.

Lemma match_here_sound (s owner repo : jsstring) :
  match_here s = Some (owner, repo) -> url_matches s owner repo.
Proof.
  unfold match_here.
  destruct (startsWith s host_prefix) eqn:Hprefix; [|discriminate].
  apply startsWith_app in Hprefix.
  destruct (segment (drop (length host_prefix) s)) as (run1 & rest1) eqn:Hseg1.
  destruct run1 as [|c owner']; [discriminate|].
  destruct rest1 as [|c' rest1]; [discriminate|].
  destruct (segment rest1) as (run2 & rest2) eqn:Hseg2.
  destruct run2 as [|d repo']; [discriminate|].
  intros [= <- <-].
  apply segment_spec in Hseg1 as (Hs1 & Hnotin1 & Hrest1).
  apply segment_spec in Hseg2 as (Hs2 & Hnotin2 & _).
  destruct Hrest1 as [Hnil|(rest' & Hslash)]; [discriminate|].
  injection Hslash as -> ->.
  exists [], rest2. cbn [app]. rewrite Hprefix at 1. rewrite Hs1, Hs2.
  repeat split; try assumption; try discriminate.
Qed.

Lemma match_here_complete (owner repo after : jsstring) :
  owner <> [] -> repo <> [] -> slash ∉ owner -> slash ∉ repo ->
  exists repo', match_here (host_prefix ++ owner ++ [slash] ++ repo ++ after)
                = Some (owner, repo').
Proof.
  intros Howner Hrepo Hnotin1 Hnotin2. unfold match_here.
  rewrite startsWith_prefix, drop_app_length.
  cbn [app]. rewrite segment_run by assumption.
  destruct owner as [|c owner]; [congruence|].
  destruct (segment_extends repo after Hnotin2) as (more & rest & ->).
  destruct repo as [|d repo]; [congruence|]. cbn [app]. eauto.
Qed.

Lemma match_repo_url_sound (repoUrl owner repo : jsstring) :
  match_repo_url repoUrl = Some (owner, repo) -> url_matches repoUrl owner repo.
Proof.
  induction repoUrl as [|c s IH].
  - cbn. discriminate.
  - cbn [match_repo_url].
    destruct (match_here (c :: s)) as [[o r]|] eqn:Hhere.
    + intros [= <- <-]. now apply match_here_sound.
    + intros Hlater. destruct (IH Hlater)
        as (before & after & -> & Howner & Hrepo & Hnotin1 & Hnotin2).
      exists (c :: before), after. repeat split; assumption.
Qed.

Lemma match_repo_url_complete (repoUrl owner repo : jsstring) :
  url_matches repoUrl owner repo -> exists groups, match_repo_url repoUrl = Some groups.
Proof.
  intros (before & after & -> & Howner & Hrepo & Hnotin1 & Hnotin2).
  induction before as [|c before IH].
  - destruct (match_here_complete owner repo after) as (repo' & Hhere); try assumption.
    cbn [app] in *.
    destruct (host_prefix ++ owner ++ slash :: repo ++ after) eqn:Hurl;
      cbn [match_repo_url]; rewrite Hhere; eauto.
  - destruct IH as (groups & Hlater).
    change ((c :: before) ++ host_prefix ++ owner ++ [slash] ++ repo ++ after)
      with (c :: (before ++ host_prefix ++ owner ++ [slash] ++ repo ++ after)).
    cbn [match_repo_url]. destruct (match_here _); [eauto|].
    rewrite Hlater. eauto.
Qed.

(** The regular expression fails exactly on the URLs that do not have the
    pattern. *)
Lemma match_repo_url_None (repoUrl : jsstring) :
  match_repo_url repoUrl = None
  <-> ~ (exists owner repo, url_matches repoUrl owner repo).
Proof.
  split.
  - intros Hnone (owner & repo & Hmatches).
    apply match_repo_url_complete in Hmatches as (groups & Hsome). congruence.
  - intros Hnot. destruct (match_repo_url repoUrl) as [[owner repo]|] eqn:Hmatch;
      [|reflexivity].
    exfalso. apply Hnot. exists owner, repo. now apply match_repo_url_sound.
Qed.

End RepoUrl.


(** ** The root listing *)

Section RootListing.
Context `{JSHost}.
Variable E : env.

Lemma map_result_entries (items : list jsval) :
  forallb (fun item => negb (nullish item)) items = true ->
  map_result to_file items = Ok (List.map file_entry items).
Proof.
  induction items as [|item items IH]; [reflexivity|].
  cbn [forallb]. intros Hitems. apply andb_prop in Hitems as (Hitem & Hrest).
  apply negb_true_iff in Hitem.
  cbn [map_result List.map]. rewrite (IH Hrest).
  unfold to_file, get_prop, mbind, result_bind. rewrite Hitem. reflexivity.
Qed.

(** A run that got past the pattern has issued a request. *)
Lemma fetchGitHubRepo_requests (repoUrl owner repo : jsstring) (w : world) :
  match_repo_url repoUrl = Some (owner, repo) ->
  (requests w < requests (snd (fetchGitHubRepo E repoUrl w)))%nat.
Proof.
  intros Hmatch. unfold fetchGitHubRepo. rewrite Hmatch.
  unfold mbind, M_bind, bind, fetch, throw, lift, try_catch, ret.
  destruct (respond E (requests w) _) as [r|e]; cbn [snd requests]; [|lia].
  destruct (ok r); cbn [negb].
  - destruct (json r) as [data|e]; cbn [snd requests]; [|lia].
    destruct (call_map data to_file) as [entries|e]; cbn [snd requests]; [|lia].
    destruct (respond E _ _) as [r'|e]; cbn [snd requests]; [|lia].
    destruct (ok r'); cbn [snd requests]; [|lia].
    destruct (json r') as [details|e]; cbn [snd requests]; [|lia].
    destruct (get_prop details _); cbn [snd requests]; lia.
  - destruct (status r =? 403); [cbn; lia|].
    destruct (status r =? 404); cbn; lia.
Qed.

End RootListing.

(** C6. [fetchGitHubRepo] throws the invalid-URL error, before any request,
    exactly when the URL does not have the pattern [github.com/owner/repo]
    (whatever follows the repository is ignored). When the URL matches, the
    owner and the repository are those of the match and one listing request
    is issued; a response that is not a success makes the call throw: the
    not-found error on 404, the rate-limit error on 403, and the
    fetch-failed error with the status text on any other status; a
    successful response whose body is an array of items returns a
    repository with that owner and name and one file entry per item, in
    order. *)
Theorem fetchGitHubRepo_outcomes `{JSHost} (E : env) (repoUrl : jsstring) (w : world) :
  (fetchGitHubRepo E repoUrl w = (Throw invalid_url_error, w)
   <-> ~ (exists owner repo, url_matches repoUrl owner repo))
  /\ (forall owner repo, match_repo_url repoUrl = Some (owner, repo) ->
        url_matches repoUrl owner repo
        /\ forall r, respond E (requests w) (get (contents_url owner repo)) = Responds r ->
             (ok r = false ->
              exists w',
                trace w' = trace w ++ [EvFetch (get (contents_url owner repo))]
                /\ (status r = 404 ->
                    fetchGitHubRepo E repoUrl w = (Throw repo_not_found_error, w'))
                /\ (status r = 403 ->
                    fetchGitHubRepo E repoUrl w = (Throw rate_limited_error, w'))
                /\ (status r <> 404 -> status r <> 403 ->
                    fetchGitHubRepo E repoUrl w = (Throw (fetch_failed_error r), w')))
             /\ (forall items,
                   ok r = true -> json r = Ok (JArr items) ->
                   forallb (fun item => negb (nullish item)) items = true ->
                   exists branch w',
                     fetchGitHubRepo E repoUrl w
                     = (Ok {| repo_name := repo; repo_owner := owner; repo_path := [];
                              default_branch := branch;
                              files := List.map file_entry items |}, w')
                     /\ length (List.map file_entry items) = length items)).
Proof.
  split.
  - rewrite <- match_repo_url_None. split.
    + intros Hrun.
      destruct (match_repo_url repoUrl) as [[owner repo]|] eqn:Hmatch; [|reflexivity].
      pose proof (fetchGitHubRepo_requests E repoUrl owner repo w Hmatch) as Hreq.
      rewrite Hrun in Hreq. cbn in Hreq. lia.
    + intros Hnone. unfold fetchGitHubRepo. now rewrite Hnone.
  - intros owner repo Hmatch.
    split; [now apply match_repo_url_sound|].
    intros r Hresponse. unfold fetchGitHubRepo. rewrite Hmatch.
    unfold mbind, M_bind, bind, fetch. rewrite Hresponse. split.
    + intros Hok. rewrite Hok. cbn [negb]. eexists.
      split; [|split; [|split]].
      2: { intros H404. rewrite H404. cbn. reflexivity. }
      2: { intros H403. rewrite H403. cbn. reflexivity. }
      2: { intros H404 H403. apply Z.eqb_neq in H404, H403.
           rewrite H403, H404. reflexivity. }
      reflexivity.
    + intros items Hok Hjson Hitems. rewrite Hok, Hjson. cbn [negb].
      unfold lift at 1 2. cbn [call_map]. rewrite (map_result_entries _ Hitems).
      unfold try_catch, ret.
      destruct (respond E _ (get (repo_url owner repo))) as [r'|e].
      * destruct (ok r').
        -- destruct (json r') as [details|e]; unfold lift.
           ++ destruct (get_prop details (lit "default_branch")) as [branch|e];
                eexists _, _; (split; [reflexivity | apply length_map]).
           ++ eexists _, _; (split; [reflexivity | apply length_map]).
        -- eexists _, _; (split; [reflexivity | apply length_map]).
      * eexists _, _; (split; [reflexivity | apply length_map]).
Qed.


Lemma fetchGitHubRepo_outcomes_witness :
  exists branch w',
    fetchGitHubRepo (H := Examples.example_host) Examples.demo_env Examples.demo_url
      (initial_world 0)
    = (Ok {| repo_name := lit "demo"; repo_owner := lit "octo"; repo_path := [];
             default_branch := branch;
             files := List.map file_entry
                        [JObj [(lit "name", JStr (lit "a.ts")); (lit "path", JStr (lit "a.ts"));
                               (lit "type", JStr (lit "file"))];
                         JObj [(lit "name", JStr (lit "lib")); (lit "path", JStr (lit "lib"));
                               (lit "type", JStr (lit "dir"))]] |}, w').
Proof.
  destruct (fetchGitHubRepo_outcomes (H := Examples.example_host)
              Examples.demo_env Examples.demo_url (initial_world 0)) as (_ & Hmatched).
  destruct (Hmatched (lit "octo") (lit "demo") eq_refl) as (_ & Hresponse).
  destruct (Hresponse (Examples.response_of 200 Examples.demo_listing) eq_refl)
    as (_ & Hlisting).
  destruct (Hlisting _ eq_refl eq_refl eq_refl) as (branch & w' & Hrun & _).
  exists branch, w'. exact Hrun.
Defined.

(** The end-to-end scenario of the specification, run: owner [octo], name
    [demo], two entries, the default branch of the details request, and two
    requests in all. *)
Example fetchGitHubRepo_demo :
  let '(r, w') := fetchGitHubRepo (H := Examples.example_host) Examples.demo_env
                    Examples.demo_url (initial_world 0) in
  match r with
  | Ok snapshot =>
      repo_owner snapshot = lit "octo" /\ repo_name snapshot = lit "demo"
      /\ default_branch snapshot = JStr (lit "trunk")
      /\ List.map GitHub.name (files snapshot) = [JStr (lit "a.ts"); JStr (lit "lib")]
      /\ List.map req_url (fetches (trace w'))
         = [lit "https://api.github.com/repos/octo/demo/contents";
            lit "https://api.github.com/repos/octo/demo"]
  | Throw _ => False
  end.
Proof. vm_compute. repeat split. Qed.

(** What follows the repository in the URL is ignored. *)
Example match_repo_url_trailing_segments :
  match_repo_url (lit "https://github.com/octo/demo/tree/main/src")
  = Some (lit "octo", lit "demo").
Proof. vm_compute. reflexivity. Qed.

(** A URL without a repository is rejected before any request. *)
Example fetchGitHubRepo_invalid :
  fetchGitHubRepo (H := Examples.example_host) Examples.demo_env
    (lit "https://github.com/octo") (initial_world 0)
  = (Throw invalid_url_error, initial_world 0).
Proof. vm_compute. reflexivity. Qed.


(** ** The structure snapshot: one level *)

Section StructureLevel.
Context `{JSHost}.
Variable E : env.

Lemma levels_left (maxDepth currentDepth : Z) :
  currentDepth < maxDepth ->
  Z.to_nat (maxDepth - currentDepth) = S (Z.to_nat (maxDepth - (currentDepth + 1))).
Proof. lia. Qed.

(** Below the depth limit a level is one unfolding of the recursion, whose
    recursive calls are calls of [fetchCompleteRepoStructure] one level
    down. *)
Lemma fetchCompleteRepoStructure_unfold (owner repo : jsstring) (path_ : jsval)
    (maxDepth currentDepth : Z) :
  currentDepth < maxDepth ->
  fetchCompleteRepoStructure E owner repo path_ maxDepth currentDepth
  = fetchStructure E (S (Z.to_nat (maxDepth - (currentDepth + 1))))
      owner repo path_ maxDepth currentDepth.
Proof.
  intros Hdepth. unfold fetchCompleteRepoStructure. now rewrite levels_left.
Qed.

Lemma ok_429 (r : response) : status r = 429 -> ok r = false.
Proof. unfold ok. intros ->. reflexivity. Qed.

Lemma ok_403 (r : response) : status r = 403 -> ok r = false.
Proof. unfold ok. intros ->. reflexivity. Qed.

(** The level depends on the recursive call only through its runs. *)
Lemma mapM_ext {A B : Type} (f g : A -> M B) (items : list A) :
  (forall x w, f x w = g x w) -> forall w, mapM f items w = mapM g items w.
Proof.
  intros Hfg. induction items as [|x items IH]; intros w; [reflexivity|].
  cbn [mapM]. unfold mbind, M_bind, bind. rewrite Hfg.
  destruct (g x w) as [[y|e] w1]; [|reflexivity]. now rewrite IH.
Qed.

Lemma process_item_ext (recur1 recur2 : jsval -> M TreeNode) :
  (forall p w, recur1 p w = recur2 p w) ->
  forall item w, process_item recur1 item w = process_item recur2 item w.
Proof.
  intros Hrecur item w. unfold process_item, mbind, M_bind, bind.
  destruct (lift (get_prop item (lit "type")) w) as [[type_|e] w1]; [|reflexivity].
  destruct (is_string type_ (lit "dir")); [|reflexivity]. now rewrite Hrecur.
Qed.

Lemma process_batches_ext (recur1 recur2 : jsval -> M TreeNode) (bs : list (list jsval)) :
  (forall p w, recur1 p w = recur2 p w) ->
  forall structure w,
    process_batches recur1 bs structure w = process_batches recur2 bs structure w.
Proof.
  intros Hrecur. induction bs as [|batch bs IH]; intros structure w; [reflexivity|].
  cbn [process_batches]. unfold mbind, M_bind, bind.
  rewrite (mapM_ext _ _ batch (process_item_ext _ _ Hrecur)).
  destruct (mapM (process_item recur2) batch w) as [[results|e] w1]; [|reflexivity].
  apply IH.
Qed.

Lemma processDataArray_ext (recur1 recur2 : jsval -> M TreeNode) :
  (forall p w, recur1 p w = recur2 p w) ->
  forall data repo path_ w,
    processDataArray recur1 data repo path_ w = processDataArray recur2 data repo path_ w.
Proof.
  intros Hrecur data repo path_ w. unfold processDataArray, mbind, M_bind, bind.
  now rewrite (process_batches_ext _ _ _ Hrecur).
Qed.

Lemma structure_level_ext (recur1 recur2 : jsval -> M TreeNode) :
  (forall p w, recur1 p w = recur2 p w) ->
  forall owner repo path_ currentDepth w,
    structure_level E recur1 owner repo path_ currentDepth w
    = structure_level E recur2 owner repo path_ currentDepth w.
Proof.
  intros Hrecur owner repo path_ currentDepth w.
  unfold structure_level, mbind, M_bind, bind.
  destruct ((if currentDepth >? 0 then sleep E 150 else ret tt) w) as [[[]|e] w0];
    [|reflexivity].
  destruct (lift (ToString path_) w0) as [[pathText|e] w0']; [|reflexivity].
  destruct (fetch E _ w0') as [[r|e] w1]; [|reflexivity].
  destruct (negb (ok r)).
  - destruct (status r =? 429); [|reflexivity].
    destruct (sleep E 3000 w1) as [[[]|e] w2]; [|reflexivity].
    destruct (fetch E _ w2) as [[r'|e] w3]; [|reflexivity].
    destruct (negb (ok r')); [reflexivity|].
    destruct (lift (json r') w3) as [[retryData|e] w4]; [|reflexivity].
    destruct retryData; try reflexivity. now apply processDataArray_ext.
  - destruct (lift (json r) w1) as [[data|e] w2]; [|reflexivity].
    destruct data; try reflexivity. now apply processDataArray_ext.
Qed.

(** The recursion never runs out of levels: with at least
    [maxDepth - currentDepth] of them the result is that of
    [fetchCompleteRepoStructure], so the function is total and the levels
    only bound the depth that the comparison of the source bounds. *)
Lemma fetchStructure_levels (owner repo : jsstring) (maxDepth : Z) (levels : nat) :
  forall (path_ : jsval) (currentDepth : Z) (w : world),
    (Z.to_nat (maxDepth - currentDepth) <= levels)%nat ->
    fetchStructure E levels owner repo path_ maxDepth currentDepth w
    = fetchCompleteRepoStructure E owner repo path_ maxDepth currentDepth w.
Proof.
  induction levels as [|levels IH]; intros path_ currentDepth w Hlevels.
  - unfold fetchCompleteRepoStructure.
    replace (Z.to_nat (maxDepth - currentDepth)) with 0%nat by lia. reflexivity.
  - destruct (Z_lt_le_dec currentDepth maxDepth) as [Hbelow|Hlimit].
    + rewrite fetchCompleteRepoStructure_unfold by assumption.
      cbn [fetchStructure]. destruct (currentDepth >=? maxDepth); [reflexivity|].
      apply structure_level_ext. intros p w'.
      rewrite IH by lia. reflexivity.
    + unfold fetchCompleteRepoStructure.
      assert (Hguard : (currentDepth >=? maxDepth) = true) by (apply Z.geb_le; lia).
      cbn [fetchStructure]. rewrite Hguard.
      destruct (Z.to_nat (maxDepth - currentDepth)); cbn [fetchStructure];
        now rewrite Hguard.
Qed.

End StructureLevel.

(** A 403 answer at a level below the depth limit: the call throws the
    rate-limit error at once. The path of the level is the argument, or the
    empty string for an argument that is [undefined]; [pathText] is its
    text in the address of the listing. *)
Lemma structure_level_403 `{JSHost} (E : env) (owner repo : jsstring) (path_ : jsval)
    (pathText : jsstring) (maxDepth currentDepth : Z) (w : world) (r : response) :
  currentDepth < maxDepth ->
  ToString (path_or_default path_) = Ok pathText ->
  let req := get (listing_url owner repo pathText) in
  let w0 := if currentDepth >? 0 then snd (sleep E 150 w) else w in
  respond E (requests w0) req = Responds r ->
  status r = 403 ->
  fetchCompleteRepoStructure E owner repo path_ maxDepth currentDepth w
  = (Throw structure_rate_limited_error, snd (fetch E req w0)).
Proof.
  intros Hdepth Htext req w0 Hfirst H403.
  assert (Hguard : (currentDepth >=? maxDepth) = false)
    by (rewrite Z.geb_leb; apply Z.leb_gt; lia).
  rewrite fetchCompleteRepoStructure_unfold by assumption.
  cbn [fetchStructure]. rewrite Hguard. unfold structure_level.
  unfold mbind at 1, M_bind at 1, bind at 1.
  assert (Hdelay : (if currentDepth >? 0 then sleep E 150 else ret tt) w = (Ok tt, w0)).
  { unfold w0. destruct (currentDepth >? 0); reflexivity. }
  rewrite Hdelay.
  unfold mbind at 1, M_bind at 1, bind at 1. rewrite Htext. cbn [lift].
  unfold mbind at 1, M_bind at 1, bind at 1.
  fold req.
  assert (Hw1 : fetch E req w0 = (Ok r, snd (fetch E req w0)))
    by (unfold fetch; rewrite Hfirst; reflexivity).
  rewrite Hw1, (ok_403 r H403), H403. reflexivity.
Qed.

(** C8, as amended. At a level of [fetchCompleteRepoStructure] below the
    depth limit whose listing request is answered with status 429, the
    fetcher waits 3000 ms and issues the same request once more, and nothing
    else. If that retry fails, the call throws right after these three
    events, with no further retry: the rejection value itself when the
    request of the retry is rejected, and the fetch-failed error, built from
    the path and from the status and status text of the retry, when the
    retry is answered without success, whatever its status. If the retry
    succeeds, the level goes on with the retried listing. A listing request
    answered with status 403, which the code reports as an exceeded rate
    limit, is not retried: the call throws the rate-limit error right after
    that one request. The level is any level that sends its request: the
    path is the argument, or the empty string for an argument that is
    [undefined], and [pathText] is its text in the address. *)
Theorem structure_level_retries_once `{JSHost} (E : env) (owner repo : jsstring)
    (path_ : jsval) (pathText : jsstring) (maxDepth currentDepth : Z) (w : world)
    (r : response) :
  currentDepth < maxDepth ->
  ToString (path_or_default path_) = Ok pathText ->
  let req := get (listing_url owner repo pathText) in
  let w0 := if currentDepth >? 0 then snd (sleep E 150 w) else w in
  respond E (requests w0) req = Responds r ->
  let w1 := snd (fetch E req w0) in
  let w2 := snd (sleep E 3000 w1) in
  let w3 := snd (fetch E req w2) in
  let run := fetchCompleteRepoStructure E owner repo path_ maxDepth currentDepth w in
  (status r = 429 ->
     trace w3 = trace w0 ++ [EvFetch req; EvTimer 3000; EvFetch req]
     /\ (forall e, respond E (requests w2) req = Rejects e -> run = (Throw e, w3))
     /\ (forall r', respond E (requests w2) req = Responds r' ->
           (ok r' = false -> run = (Throw (retry_failed_error pathText r'), w3))
           /\ (ok r' = true ->
               run = match json r' with
                     | Ok (JArr items) =>
                         processDataArray
                           (fun p => fetchCompleteRepoStructure E owner repo p maxDepth
                                       (currentDepth + 1))
                           items repo (path_or_default path_) w3
                     | Ok _ =>
                         (Throw (Error (lit "Invalid response format for " ++ pathText)),
                          w3)
                     | Throw e => (Throw e, w3)
                     end)))
  /\ (status r = 403 ->
      trace w1 = trace w0 ++ [EvFetch req]
      /\ run = (Throw structure_rate_limited_error, w1)).
Proof.
  intros Hdepth Htext req w0 Hfirst w1 w2 w3 run. split; [intros H429|intros H403].
  2: { split; [reflexivity|].
       now apply (structure_level_403 E owner repo path_ pathText _ _ w r). }
  assert (Hguard : (currentDepth >=? maxDepth) = false)
    by (rewrite Z.geb_leb; apply Z.leb_gt; lia).
  assert (Hrun : run
                 = (sleep E 3000;;
                    retryResponse ← fetch E req;
                    if negb (ok retryResponse) then
                      throw (retry_failed_error pathText retryResponse)
                    else
                      retryData ← lift (json retryResponse);
                      match retryData with
                      | JArr items =>
                          processDataArray
                            (fun p => fetchCompleteRepoStructure E owner repo p maxDepth
                                        (currentDepth + 1))
                            items repo (path_or_default path_)
                      | _ => throw (Error (lit "Invalid response format for " ++ pathText))
                      end) w1).
  { unfold run. rewrite fetchCompleteRepoStructure_unfold by assumption.
    cbn [fetchStructure]. rewrite Hguard. unfold structure_level.
    unfold mbind at 1, M_bind at 1, bind at 1.
    assert (Hdelay : (if currentDepth >? 0 then sleep E 150 else ret tt) w = (Ok tt, w0)).
    { unfold w0. destruct (currentDepth >? 0); reflexivity. }
    rewrite Hdelay.
    unfold mbind at 1, M_bind at 1, bind at 1. rewrite Htext. cbn [lift].
    unfold mbind at 1, M_bind at 1, bind at 1.
    fold req.
    assert (Hw1 : fetch E req w0 = (Ok r, w1))
      by (unfold w1, fetch; rewrite Hfirst; reflexivity).
    rewrite Hw1, (ok_429 r H429), H429. cbn [negb Z.eqb Pos.eqb]. reflexivity. }
  split; [cbn; now rewrite <- !app_assoc|].
  assert (Hsleep : sleep E 3000 w1 = (Ok tt, w2)) by reflexivity.
  assert (Hretry_run : fetch E req w2
                       = (match respond E (requests w2) req with
                          | Responds r' => Ok r'
                          | Rejects e => Throw e
                          end, w3)) by reflexivity.
  rewrite Hrun. unfold mbind, M_bind, bind. rewrite Hsleep, Hretry_run. split.
  - intros e Hretry. rewrite Hretry. reflexivity.
  - intros r' Hretry. rewrite Hretry. split.
    + intros Hok. rewrite Hok. reflexivity.
    + intros Hok. rewrite Hok. cbn [negb]. unfold lift.
      destruct (json r') as [retryData|e]; [|reflexivity].
      destruct retryData; reflexivity.
Qed.


Lemma structure_level_retries_once_witness :
  let req := get (listing_url (lit "octo") (lit "demo") []) in
  let run := fetchCompleteRepoStructure (H := Examples.example_host) Examples.throttled_env
               (lit "octo") (lit "demo") (JStr []) 3 0 (initial_world 0) in
  fst run = Throw (retry_failed_error [] (Examples.response_of 500 JNull))
  /\ trace (snd run) = [EvFetch req; EvTimer 3000; EvFetch req].
Proof.
  intros req run.
  destruct (structure_level_retries_once (H := Examples.example_host)
              Examples.throttled_env (lit "octo") (lit "demo") (JStr []) [] 3 0
              (initial_world 0) (Examples.response_of 429 JNull) ltac:(lia) eq_refl eq_refl)
    as (Hthrottled & _).
  destruct (Hthrottled eq_refl) as (Htrace & _ & Hretry).
  destruct (Hretry (Examples.response_of 500 JNull) eq_refl) as (Hfailed & _).
  unfold run. rewrite (Hfailed eq_refl). cbn [fst snd].
  split; [reflexivity | exact Htrace].
Defined.

(** C8 as it was stated does not hold of every rate-limit response: on the
    403 with which GitHub answers an exhausted quota, and which the code
    itself reports as an exceeded rate limit, the level issues its one
    request and throws, without the 3000 ms delay and without a retry. *)
Lemma quota_response_is_not_retried :
  let run := fetchCompleteRepoStructure (H := Examples.example_host)
               (Examples.always (Examples.response_of 403 JNull))
               (lit "octo") (lit "demo") (JStr []) 3 0 (initial_world 0) in
  fst run = Throw (Error (lit "GitHub API rate limit exceeded. Please wait a few minutes and try again."))
  /\ trace (snd run) = [EvFetch (get (listing_url (lit "octo") (lit "demo") []))].
Proof. vm_compute. split; reflexivity. Qed.

(** A retry that is rejected: what the call throws is the rejection value,
    as it is, after the one retry. Here the call has no path argument. *)
Example rejected_retry_is_rethrown :
  let req := get (listing_url (lit "octo") (lit "demo") []) in
  let run := fetchCompleteRepoStructure (H := Examples.example_host)
               Scenarios.throttled_then_offline
               (lit "octo") (lit "demo") JUndefined 3 0 (initial_world 0) in
  fst run = Throw (JError (lit "Failed to fetch"))
  /\ trace (snd run) = [EvFetch req; EvTimer 3000; EvFetch req].
Proof. vm_compute. split; reflexivity. Qed.

(** The scenario of the specification for the depth limit: with
    [maxDepth = 1] the listing of the root is fetched, its subdirectory
    [lib] comes back with no children, and no second request is made. *)
Example depth_one_snapshot :
  let run := fetchCompleteRepoStructure (H := Examples.example_host)
               (Examples.always (Examples.response_of 200 Examples.demo_listing))
               (lit "octo") (lit "demo") (JStr []) 1 0 (initial_world 0) in
  fst run
  = Ok (DirNode (JStr (lit "demo")) (Some (JStr []))
          [FileNode (JStr (lit "a.ts")) (JStr (lit "a.ts")) JUndefined;
           DirNode (JStr (lit "lib")) (Some (JStr (lit "lib"))) []])
  /\ trace (snd run) = [EvFetch (get (listing_url (lit "octo") (lit "demo") []))].
Proof. vm_compute. split; reflexivity. Qed.


(** ** Code snippets *)

Section Snippets.

Lemma split_at_fence_shorter (s before after : jsstring) :
  split_at_fence s = Some (before, after) -> (length after + 3 <= length s)%nat.
Proof.
  revert before. induction s as [|c s IH]; intros before; cbn [split_at_fence].
  - cbn. discriminate.
  - destruct (startsWith (c :: s) fence) eqn:Hfence.
    + intros [= <- <-]. apply startsWith_app in Hfence.
      apply (f_equal (@length N)) in Hfence. rewrite length_app in Hfence.
      change (length fence) with 3%nat in Hfence.
      rewrite length_drop in *. cbn [length] in *. lia.
    + destruct (split_at_fence s) as [[before' after']|] eqn:Hrest; [|discriminate].
      intros [= <- <-]. specialize (IH _ eq_refl). cbn. lia.
Qed.

(** One more unit of fuel than the length of the text changes nothing. *)
Lemma fenced_blocks_step (fuel : nat) :
  forall s, (length s <= fuel)%nat -> fenced_blocks (S fuel) s = fenced_blocks fuel s.
Proof.
  induction fuel as [|fuel IH]; intros s Hlen.
  - destruct s; [reflexivity | cbn in Hlen; lia].
  - cbn [fenced_blocks].
    destruct (split_at_fence s) as [[before opened]|] eqn:Hopen; [|reflexivity].
    destruct (split_at_fence opened) as [[inside rest]|] eqn:Hclose; [|reflexivity].
    apply split_at_fence_shorter in Hopen, Hclose.
    f_equal. apply IH. lia.
Qed.

(** The fuel [extractCodeSnippets] gives is enough: more finds no more. *)
Lemma fenced_blocks_fuel (s : jsstring) (extra : nat) :
  fenced_blocks (length s + extra) s = extractCodeSnippets s.
Proof.
  unfold extractCodeSnippets. induction extra as [|extra IH].
  - now rewrite Nat.add_0_r.
  - rewrite Nat.add_succ_r, fenced_blocks_step by lia. exact IH.
Qed.

(** The scenario of the specification: two fenced blocks give two
    snippets, each from fence to fence. *)
Example two_fenced_blocks :
  extractCodeSnippets (lit "Use ```let x = 1``` and then
```
run(x)
``` as shown.")
  = [lit "```let x = 1```"; lit "```
run(x)
```"].
Proof. vm_compute. reflexivity. Qed.

End Snippets.

(** ** The Gemini client after its loops *)

Section Exhaustion.
Context `{JSHost}.

(** The error recorded for a 429 answer is recognised as a rate-limit
    error, whatever the wait and the body were. *)
Lemma rate_limit_error_recognised (waitTime : option Z) (errorData : jsval) :
  exhausted (rate_limit_error waitTime errorData)
  = Ok {| content := rate_limit_message; codeSnippets := [] |}.
Proof. reflexivity. Qed.

(** With such a last error the client returns one of its two fallback
    explanations, with no code snippets. *)
Lemma exhausted_fallback (lastError : jsval) :
  message_searchable lastError = true ->
  exists rate_limited,
    is_rate_limit_error lastError = Ok rate_limited
    /\ exhausted lastError
       = Ok {| content :=
                 if rate_limited then rate_limit_message
                 else all_models_failed_message
                        (if truthy lastError then JSON_stringify lastError
                         else lit "Unknown error");
               codeSnippets := [] |}.
Proof.
  unfold message_searchable, exhausted, is_rate_limit_error. intros Hmessage.
  destruct (is_number (opt_prop lastError (lit "status")) 429);
    [exists true; split; reflexivity|].
  destruct (opt_prop lastError (lit "message")) eqn:Hm; try discriminate;
    cbn [nullish call_includes].
  - exists false. split; reflexivity.
  - exists false. split; reflexivity.
  - destruct (includes s (lit "rate limit")); eexists; split; reflexivity.
  - destruct (existsb _ items); eexists; split; reflexivity.
Qed.

(** The first turn of the rate limiter in an environment where no time
    passes beyond the timers. *)
Lemma waitForRateLimit_returns (E : env) (w : world) :
  exists w', waitForRateLimit E w = (Ok tt, w').
Proof.
  unfold waitForRateLimit, mbind, M_bind, bind, Date_now, get_lastGeminiCallTime,
    set_lastGeminiCallTime, sleep, ret.
  cbn [now lastGeminiCallTime trace ticks requests].
  destruct (_ <? MIN_CALL_INTERVAL); eauto.
Qed.

(** When every attempt is answered 429 the loops end on the error recorded
    for a 429, and the call returns the rate-limit explanation. *)
Lemma callGeminiAPI_all_429 (E : env) (prompt apiKey : jsstring) (c : N) (w : world) :
  (forall n req, exists r, respond E n req = Responds r /\ status r = 429) ->
  fst (callGeminiAPI E prompt (c :: apiKey) w)
  = Ok {| content := rate_limit_message; codeSnippets := [] |}.
Proof.
  intros Hall. unfold callGeminiAPI.
  destruct (waitForRateLimit_returns E w) as (w0 & Hturn).
  unfold mbind at 1, M_bind at 1, bind at 1. rewrite Hturn.
  unfold modelNames. cbn [model_loop].
  change (Z.to_nat maxRetries) with 2%nat. cbn [retry_loop].
  set (req := gemini_request (lit "gemini-2.5-flash") (c :: apiKey) prompt).
  assert (Hattempt : forall attempt w1,
             exists waitTime errorData w2,
               attempt_once E prompt (c :: apiKey) (lit "gemini-2.5-flash") attempt w1
               = (if attempt <? maxRetries - 1
                  then Ok (Continues (rate_limit_error waitTime errorData))
                  else Ok (Breaks (rate_limit_error waitTime errorData)), w2)).
  { intros attempt w1. unfold attempt_once, try_catch, try_attempt. fold req.
    unfold mbind, M_bind, bind.
    destruct ((if attempt >? 0 then sleep E (2 ^ attempt * 1000) else ret tt) w1)
      as [[[]|e] w1'] eqn:Hbackoff;
      [|destruct (attempt >? 0); discriminate Hbackoff].
    destruct (Hall (requests w1') req) as (r & Hr & H429).
    unfold fetch. rewrite Hr, H429.
    replace (ok r) with false by (unfold ok; now rewrite H429).
    cbn [negb Z.eqb Pos.eqb].
    destruct (attempt <? maxRetries - 1); eexists _, _, _; reflexivity. }
  unfold mbind, M_bind, bind.
  destruct (Hattempt 0 w0) as (waitTime0 & errorData0 & w1 & ->).
  change (0 <? maxRetries - 1) with true. cbn iota beta.
  destruct (Hattempt (0 + 1) w1) as (waitTime1 & errorData1 & w2 & ->).
  change (0 + 1 <? maxRetries - 1) with false. cbn iota beta.
  unfold ret, lift. cbn [fst]. apply rate_limit_error_recognised.
Qed.

End Exhaustion.

(** C2 does not hold of the code. The claim: once all models and attempts
    are exhausted, [callGeminiAPI] returns a fallback explanation instead of
    throwing. The code: when the endpoint answers a server error whose JSON
    body has a numeric [message], that body becomes [lastError], the loops
    end, and [lastError?.message?.includes('rate limit')] calls [includes] on
    a number; the [TypeError] is raised after the loops, outside every [try],
    and the call throws it. *)
Theorem callGeminiAPI_throws_on_numeric_message `{JSHost} (prompt apiKey : jsstring)
    (c : N) (w : world) :
  fst (callGeminiAPI Examples.numeric_message_env prompt (c :: apiKey) w)
  = Throw (TypeError (NotAFunction (lit "includes"))).
Proof.
  unfold callGeminiAPI.
  destruct (waitForRateLimit_returns Examples.numeric_message_env w) as (w' & Hturn).
  unfold mbind at 1, M_bind at 1, bind at 1. rewrite Hturn. reflexivity.
Qed.

(** The scenario of the specification: a 429 with [Retry-After: 5] on every
    attempt. The first answer is waited for 5000 ms, the second attempt
    waits its 2000 ms of backoff, and the call returns the rate-limit
    explanation; nothing is thrown. *)
Example callGeminiAPI_rate_limited :
  let run := callGeminiAPI (H := Examples.example_host) Examples.rate_limited_env
               (lit "Explain this") (lit "key") (initial_world 5000) in
  fst run = Ok {| content := rate_limit_message; codeSnippets := [] |}
  /\ timers (trace (snd run)) = [5000; 2000]
  /\ length (fetches (trace (snd run))) = 2%nat.
Proof. vm_compute. repeat split. Qed.

(** A server error with an ordinary body: the generic explanation, which
    lists the model tried and the last error as [JSON.stringify] prints
    it. *)
Example callGeminiAPI_all_models_failed :
  fst (callGeminiAPI (H := Examples.example_host)
         (Examples.always (Examples.response_of 500
            (JObj [(lit "error", JObj [(lit "message", JStr (lit "backend down"))])])))
         (lit "Explain this") (lit "key") (initial_world 5000))
  = Ok {| content := all_models_failed_message (lit "<json>");
          codeSnippets := [] |}.
Proof. vm_compute. reflexivity. Qed.
(** * Further properties of the code

    What follows goes beyond the behaviours listed in the specification:
    the same definitions, read for their edge cases, their invariants and
    the way they compose. *)

(** ** Footprints *)

Section Footprints.

Lemma fetches_app (tr tr' : list event) :
  fetches (tr ++ tr') = fetches tr ++ fetches tr'.
Proof. unfold fetches. now rewrite flat_map_app. Qed.

Lemma timers_app (tr tr' : list event) :
  timers (tr ++ tr') = timers tr ++ timers tr'.
Proof. unfold timers. now rewrite flat_map_app. Qed.

Lemma silent_ret {A : Type} (a : A) : silent (mret (M := M) a).
Proof. intros w. reflexivity. Qed.

Lemma silent_throw {A : Type} (e : jsval) : silent (throw (A := A) e).
Proof. intros w. reflexivity. Qed.

Lemma silent_lift {A : Type} (r : result A) : silent (lift r).
Proof. intros w. reflexivity. Qed.

Lemma silent_bind {A B : Type} (m : M A) (k : A -> M B) :
  silent m -> (forall a, silent (k a)) -> silent (m ≫= k).
Proof.
  intros Hm Hk w. unfold mbind, M_bind, bind. specialize (Hm w).
  destruct (m w) as [[a|e] w']; cbn [snd] in *; subst; [apply Hk | reflexivity].
Qed.

Lemma silent_quiet {A : Type} (m : M A) : silent m -> quiet m.
Proof. intros Hm w. now rewrite Hm. Qed.

Lemma quiet_sleep (E : env) (ms : Z) : quiet (sleep E ms).
Proof.
  intros w. unfold sleep. cbn [snd lastGeminiCallTime trace requests].
  rewrite fetches_app. cbn. now rewrite app_nil_r.
Qed.

Lemma quiet_bind {A B : Type} (m : M A) (k : A -> M B) :
  quiet m -> (forall a, quiet (k a)) -> quiet (m ≫= k).
Proof.
  intros Hm Hk w. unfold mbind, M_bind, bind. specialize (Hm w).
  destruct (m w) as [[a|e] w']; cbn [snd] in *; [|exact Hm].
  destruct Hm as (HL & HF & HR). destruct (Hk a w') as (HL' & HF' & HR').
  repeat split; congruence.
Qed.

Lemma returns_ret {A : Type} (a : A) : returns (mret (M := M) a).
Proof. intros w. now exists a. Qed.

Lemma returns_sleep (E : env) (ms : Z) : returns (sleep E ms).
Proof. intros w. now exists tt. Qed.

Lemma returns_bind {A B : Type} (m : M A) (k : A -> M B) :
  returns m -> (forall a, returns (k a)) -> returns (m ≫= k).
Proof.
  intros Hm Hk w. unfold mbind, M_bind, bind. destruct (Hm w) as (a & Ha).
  destruct (m w) as [r w']. cbn [fst] in Ha. subst r. apply Hk.
Qed.

Lemma returns_try_catch {A : Type} (m : M A) (handler : jsval -> M A) :
  (forall e, returns (handler e)) -> returns (try_catch m handler).
Proof.
  intros Hh w. unfold try_catch. destruct (m w) as [[a|e] w']; [now exists a | apply Hh].
Qed.

Lemma quiet_sends {A : Type} (req : request) (m : M A) : quiet m -> sends req 0 0 m.
Proof.
  intros Hm w. exists 0%nat. destruct (Hm w) as (HL & HF & HR).
  cbn [repeat]. rewrite app_nil_r, Nat.add_0_r. auto.
Qed.

Lemma sends_weaken {A : Type} (req : request) (lo hi lo' hi' : nat) (m : M A) :
  (lo' <= lo)%nat -> (hi <= hi')%nat -> sends req lo hi m -> sends req lo' hi' m.
Proof.
  intros Hlo Hhi Hm w. destruct (Hm w) as (n & Hn & Hrest). exists n. split; [lia | exact Hrest].
Qed.

(** A computation that returns and is quiet in front changes nothing of
    what is sent. *)
Lemma sends_after_quiet {A B : Type} (req : request) (lo hi : nat)
    (pre : M A) (k : A -> M B) :
  quiet pre -> returns pre -> (forall a, sends req lo hi (k a)) ->
  sends req lo hi (pre ≫= k).
Proof.
  intros Hq Hr Hk w. unfold mbind, M_bind, bind.
  destruct (Hr w) as (a & Ha). destruct (Hq w) as (HL & HF & HR).
  destruct (pre w) as [r w']. cbn [fst snd] in *. subst r.
  destruct (Hk a w') as (n & Hn & HL' & HF' & HR'). exists n.
  repeat split; try lia; congruence.
Qed.

(** A request followed by a quiet continuation: one request, whether the
    request is answered or fails. *)
Lemma sends_fetch {B : Type} (E : env) (req : request) (k : response -> M B) :
  (forall r, quiet (k r)) -> sends req 1 1 (fetch E req ≫= k).
Proof.
  intros Hk w. exists 1%nat. unfold mbind, M_bind, bind, fetch.
  set (w' := {| now := _ |}).
  assert (Hw' : lastGeminiCallTime w' = lastGeminiCallTime w
                /\ fetches (trace w') = fetches (trace w) ++ [req]
                /\ requests w' = (requests w + 1)%nat).
  { subst w'. cbn [lastGeminiCallTime trace requests]. rewrite fetches_app.
    repeat split; try reflexivity; lia. }
  destruct Hw' as (HL & HF & HR).
  destruct (respond E (requests w) req) as [r|e]; cbn [snd].
  - destruct (Hk r w') as (HL' & HF' & HR'). cbn [repeat].
    repeat split; try lia; congruence.
  - cbn [repeat]. repeat split; try lia; congruence.
Qed.

Lemma sends_try_catch {A : Type} (req : request) (lo hi : nat) (m : M A)
    (handler : jsval -> M A) :
  sends req lo hi m -> (forall e, quiet (handler e)) ->
  sends req lo hi (try_catch m handler).
Proof.
  intros Hm Hh w. unfold try_catch. destruct (Hm w) as (n & Hn & HL & HF & HR).
  destruct (m w) as [[a|e] w']; cbn [snd] in *.
  - exists n. auto.
  - destruct (Hh e w') as (HL' & HF' & HR'). exists n.
    repeat split; try lia; congruence.
Qed.

(** Sequencing: what the first part sends and, when it returns, what the
    second part sends. *)
Lemma sends_bind {A B : Type} (req : request) (lo hi hi' : nat)
    (m : M A) (k : A -> M B) :
  sends req lo hi m -> (forall a, sends req 0 hi' (k a)) ->
  sends req lo (hi + hi') (m ≫= k).
Proof.
  intros Hm Hk w. unfold mbind, M_bind, bind.
  destruct (Hm w) as (n & Hn & HL & HF & HR).
  destruct (m w) as [[a|e] w']; cbn [snd] in *.
  - destruct (Hk a w') as (n' & Hn' & HL' & HF' & HR'). exists (n + n')%nat.
    rewrite repeat_app, app_assoc. repeat split; try lia; congruence.
  - exists n. repeat split; try lia; congruence.
Qed.

Lemma snd_bind_silent {A B : Type} (m : M A) (k : A -> M B) (w : world) :
  (forall a, silent (k a)) -> snd ((m ≫= k) w) = snd (m w).
Proof.
  intros Hk. unfold mbind, M_bind, bind.
  destruct (m w) as [[a|e] w']; cbn [snd]; [apply Hk | reflexivity].
Qed.

Lemma snd_try_catch_silent {A : Type} (m : M A) (handler : jsval -> M A) (w : world) :
  (forall e, silent (handler e)) -> snd (try_catch m handler w) = snd (m w).
Proof.
  intros Hh. unfold try_catch.
  destruct (m w) as [[a|e] w']; cbn [snd]; [reflexivity | apply Hh].
Qed.

Lemma snd_after_sleep {B : Type} (E : env) (ms : Z) (m : M B) (w : world) :
  snd ((sleep E ms;; m) w) = snd (m (snd (sleep E ms w))).
Proof. reflexivity. Qed.

End Footprints.

Create HintDb footprint.

#[local] Hint Resolve silent_ret silent_throw silent_lift quiet_sleep silent_quiet
  returns_ret returns_sleep : footprint.

(** Decides [quiet] and [silent] goals over computations built from [ret],
    [lift], [throw], [sleep], sequencing and case distinctions. *)
Ltac footprint :=
  repeat first
    [ progress intros
    | apply silent_ret | apply silent_throw | apply silent_lift
    | apply quiet_sleep
    | apply silent_bind | apply quiet_bind
    | apply silent_quiet; solve [footprint]
    | match goal with
      | |- silent (if ?c then _ else _) => destruct c
      | |- quiet (if ?c then _ else _) => destruct c
      | |- silent (match ?x with _ => _ end) => destruct x
      | |- quiet (match ?x with _ => _ end) => destruct x
      end ].

(** ** Runs of the Gemini client *)

Section ClientRuns.
Context `{JSHost}.
Variable E : env.

(** The rate limiter always returns, sets a timer only when fewer than 1000
    milliseconds separate the reading of the clock from the last grant, and
    sends nothing. *)
Lemma waitForRateLimit_effects (w : world) :
  exists w',
    waitForRateLimit E w = (Ok tt, w')
    /\ trace w' = trace w
         ++ (if now w + pass E w - lastGeminiCallTime w <? MIN_CALL_INTERVAL
             then [EvTimer (MIN_CALL_INTERVAL - (now w + pass E w - lastGeminiCallTime w))]
             else [])
    /\ requests w' = requests w.
Proof.
  unfold waitForRateLimit, mbind, M_bind, bind, Date_now, get_lastGeminiCallTime,
    set_lastGeminiCallTime, sleep, ret.
  cbn [now lastGeminiCallTime trace ticks requests].
  destruct (_ <? MIN_CALL_INTERVAL); eexists; (split; [reflexivity|]);
    cbn [trace requests]; rewrite ?app_nil_r; auto.
Qed.

Lemma try_attempt_sends (prompt apiKey modelName : jsstring) (attempt : Z) :
  sends (gemini_request modelName apiKey prompt) 1 1
    (try_attempt E prompt apiKey modelName attempt).
Proof.
  unfold try_attempt. apply sends_after_quiet.
  - destruct (attempt >? 0); footprint.
  - destruct (attempt >? 0); auto with footprint.
  - intros _. apply sends_fetch. footprint.
Qed.

Lemma attempt_once_sends (prompt apiKey modelName : jsstring) (attempt : Z) :
  sends (gemini_request modelName apiKey prompt) 1 1
    (attempt_once E prompt apiKey modelName attempt).
Proof.
  unfold attempt_once. apply sends_try_catch; [apply try_attempt_sends | footprint].
Qed.

Lemma attempt_once_returns (prompt apiKey modelName : jsstring) (attempt : Z) :
  returns (attempt_once E prompt apiKey modelName attempt).
Proof.
  unfold attempt_once. apply returns_try_catch. intros e.
  destruct (attempt =? maxRetries - 1); apply returns_ret.
Qed.

Lemma retry_loop_returns (remaining : nat) (prompt apiKey modelName : jsstring)
    (attempt : Z) (lastError : jsval) :
  returns (retry_loop E remaining prompt apiKey modelName attempt lastError).
Proof.
  revert attempt lastError.
  induction remaining as [|remaining IH]; intros attempt lastError; cbn [retry_loop].
  - apply returns_ret.
  - apply returns_bind; [apply attempt_once_returns|].
    intros [e|lastError'|lastError']; auto using returns_ret.
Qed.

Lemma retry_loop_sends (remaining : nat) (prompt apiKey modelName : jsstring)
    (attempt : Z) (lastError : jsval) :
  sends (gemini_request modelName apiKey prompt) (Nat.min 1 remaining) remaining
    (retry_loop E remaining prompt apiKey modelName attempt lastError).
Proof.
  revert attempt lastError.
  induction remaining as [|remaining IH]; intros attempt lastError; cbn [retry_loop].
  - apply quiet_sends. footprint.
  - apply (sends_weaken _ 1 (1 + remaining)); [lia | lia |].
    apply sends_bind; [apply attempt_once_sends|].
    intros [e|lastError'|lastError'].
    + apply (sends_weaken _ 0 0); [lia | lia |]. apply quiet_sends. footprint.
    + apply (sends_weaken _ (Nat.min 1 remaining) remaining); [lia | lia | apply IH].
    + apply (sends_weaken _ 0 0); [lia | lia |]. apply quiet_sends. footprint.
Qed.

(** The loops of [callGeminiAPI]: they return, with the explanation or with
    the last error, after one or two copies of the same request. *)
Lemma model_loop_run (prompt apiKey : jsstring) (w : world) :
  exists r w' n,
    model_loop E modelNames prompt apiKey JNull w = (Ok r, w')
    /\ (n = 1 \/ n = 2)%nat
    /\ lastGeminiCallTime w' = lastGeminiCallTime w
    /\ fetches (trace w')
       = fetches (trace w)
         ++ repeat (gemini_request (lit "gemini-2.5-flash") apiKey prompt) n.
Proof.
  unfold modelNames. cbn [model_loop]. change (Z.to_nat maxRetries) with 2%nat.
  unfold mbind, M_bind, bind.
  destruct (retry_loop_returns 2 prompt apiKey (lit "gemini-2.5-flash") 0 JNull w)
    as (r & Hr).
  destruct (retry_loop_sends 2 prompt apiKey (lit "gemini-2.5-flash") 0 JNull w)
    as (n & Hn & HL & HF & _).
  destruct (retry_loop E 2 _ _ _ _ _ w) as [r' w']. cbn [fst snd] in *. subst r'.
  exists (match r with inl e => inl e | inr lastError => inr lastError end), w', n.
  split; [now destruct r|]. split; [cbn in Hn; lia|]. auto.
Qed.

End ClientRuns.

Section ClientProperties.
Context `{JSHost}.
Variable E : env.

(** [callGeminiAPI] with a key: the turn at the rate limiter, then the
    attempts on the one model, then the choice between the explanation and
    the fallback. *)
Lemma callGeminiAPI_unfold (prompt apiKey : jsstring) (c : N) (w : world) :
  callGeminiAPI E prompt (c :: apiKey) w
  = (r ← retry_loop E 2 prompt (c :: apiKey) (lit "gemini-2.5-flash") 0 JNull;
     match r with
     | inl e => ret e
     | inr lastError => lift (exhausted lastError)
     end) (snd (waitForRateLimit E w)).
Proof.
  unfold callGeminiAPI, modelNames. cbn [model_loop].
  destruct (waitForRateLimit_effects E w) as (w1 & Hturn & _).
  unfold mbind at 1, M_bind at 1, bind at 1. rewrite Hturn. cbn [snd].
  change (Z.to_nat maxRetries) with 2%nat.
  unfold mbind, M_bind, bind.
  destruct (retry_loop E 2 _ _ _ _ _ w1) as [[[e|lastError]|e] w2]; reflexivity.
Qed.

Lemma requests_after_turn (w : world) :
  requests (snd (waitForRateLimit E w)) = requests w.
Proof.
  destruct (waitForRateLimit_effects E w) as (w1 & Hturn & _ & Hrequests).
  now rewrite Hturn.
Qed.

(** The second attempt is the last: it waits 2000 ms, sends the request,
    and sets no further timer whatever the answer. *)
Lemma last_attempt_trace (prompt apiKey modelName : jsstring) (w : world) :
  trace (snd (attempt_once E prompt apiKey modelName 1 w))
  = trace w ++ [EvTimer 2000; EvFetch (gemini_request modelName apiKey prompt)].
Proof.
  unfold attempt_once. rewrite snd_try_catch_silent by footprint.
  unfold try_attempt. change (1 >? 0) with true. cbv iota.
  rewrite snd_after_sleep.
  rewrite snd_bind_silent by (change (1 <? maxRetries - 1) with false; footprint).
  unfold fetch, sleep. cbn [snd trace]. now rewrite <- app_assoc.
Qed.

(** What is left of a run once the first attempt has ended with
    [continue]. *)
Lemma trace_after_continue (prompt apiKey : jsstring) (lastError : jsval) (w : world) :
  trace (snd ((r ← retry_loop E 1 prompt apiKey (lit "gemini-2.5-flash") (0 + 1) lastError;
               match r with
               | inl e => ret e
               | inr lastError' => lift (exhausted lastError')
               end) w))
  = trace w
    ++ [EvTimer 2000; EvFetch (gemini_request (lit "gemini-2.5-flash") apiKey prompt)].
Proof.
  rewrite snd_bind_silent by footprint. cbn [retry_loop].
  rewrite snd_bind_silent by footprint.
  change (0 + 1) with 1. apply last_attempt_trace.
Qed.

Lemma retry_loop_after_continue {B : Type} (prompt apiKey modelName : jsstring)
    (lastError lastError' : jsval) (k : Explanation + jsval -> M B) (w w' : world) :
  attempt_once E prompt apiKey modelName 0 w = (Ok (Continues lastError'), w') ->
  (r ← retry_loop E 2 prompt apiKey modelName 0 lastError; k r) w
  = (r ← retry_loop E 1 prompt apiKey modelName (0 + 1) lastError'; k r) w'.
Proof.
  intros Hfirst. cbn [retry_loop]. unfold mbind, M_bind, bind. now rewrite Hfirst.
Qed.

(** X1. Whatever the network does, a call of [callGeminiAPI] with a key
    lets nothing escape but the [TypeError] of the search in the last error's
    [message]: a rejected request, an unreadable body and every other failure
    inside the loops are caught and end in a returned explanation. *)
Theorem callGeminiAPI_swallows_failures (prompt apiKey : jsstring) (c : N) (w : world) :
  match fst (callGeminiAPI E prompt (c :: apiKey) w) with
  | Ok _ => True
  | Throw e => e = TypeError (NotAFunction (lit "includes"))
  end.
Proof.
  rewrite callGeminiAPI_unfold. set (w1 := snd (waitForRateLimit E w)).
  unfold mbind, M_bind, bind.
  destruct (retry_loop_returns E 2 prompt (c :: apiKey) (lit "gemini-2.5-flash") 0 JNull w1)
    as (r & Hr).
  destruct (retry_loop E 2 _ _ _ _ _ w1) as [r' w2]. cbn [fst] in Hr. subst r'.
  destruct r as [e|lastError]; [exact I|].
  unfold lift, exhausted, is_rate_limit_error. cbn [fst].
  destruct (is_number _ 429); [exact I|].
  destruct (opt_prop lastError (lit "message")) as [| |b|x|s|items|props|message];
    cbn [nullish call_includes]; try exact I; try reflexivity.
  - now destruct (includes s _).
  - now destruct (existsb _ items).
Qed.

(** X2. A call of [callGeminiAPI] with a key sends the same request once
    or twice, and sends nothing else. *)
Theorem callGeminiAPI_sends_one_or_two (prompt apiKey : jsstring) (c : N) (w : world) :
  exists n,
    (n = 1 \/ n = 2)%nat
    /\ fetches (trace (snd (callGeminiAPI E prompt (c :: apiKey) w)))
       = fetches (trace w)
         ++ repeat (gemini_request (lit "gemini-2.5-flash") (c :: apiKey) prompt) n.
Proof.
  rewrite callGeminiAPI_unfold. rewrite snd_bind_silent by footprint.
  destruct (waitForRateLimit_effects E w) as (w1 & Hturn & Htrace & _).
  rewrite Hturn. cbn [snd].
  destruct (retry_loop_sends E 2 prompt (c :: apiKey) (lit "gemini-2.5-flash") 0 JNull w1)
    as (n & Hn & _ & HF & _).
  exists n. split; [cbn in Hn; lia|]. rewrite HF. f_equal.
  rewrite Htrace, fetches_app. destruct (_ <? MIN_CALL_INTERVAL); cbn; now rewrite app_nil_r.
Qed.

(** X3. The rate limiter is passed once per call: the grant recorded in
    [lastGeminiCallTime] at the end of a call is the one taken before the
    first attempt, however many attempts follow. *)
Theorem callGeminiAPI_takes_one_turn (prompt apiKey : jsstring) (c : N) (w : world) :
  lastGeminiCallTime (snd (callGeminiAPI E prompt (c :: apiKey) w))
  = lastGeminiCallTime (snd (waitForRateLimit E w)).
Proof.
  rewrite callGeminiAPI_unfold. rewrite snd_bind_silent by footprint.
  destruct (retry_loop_sends E 2 prompt (c :: apiKey) (lit "gemini-2.5-flash") 0 JNull
              (snd (waitForRateLimit E w))) as (n & _ & HL & _).
  exact HL.
Qed.

(** X4. A response that is neither a success nor a 429 ends the call at
    once: one request, no retry and no timer after the turn at the rate
    limiter, and the outcome is the one the response body gives after the
    loops. *)
Theorem callGeminiAPI_does_not_retry_http_errors
    (prompt apiKey : jsstring) (c : N) (w : world) (r : response) :
  let req := gemini_request (lit "gemini-2.5-flash") (c :: apiKey) prompt in
  respond E (requests w) req = Responds r ->
  ok r = false ->
  status r <> 429 ->
  fst (callGeminiAPI E prompt (c :: apiKey) w)
  = exhausted (match json r with Ok v => v | Throw _ => JObj [] end)
  /\ trace (snd (callGeminiAPI E prompt (c :: apiKey) w))
     = trace (snd (waitForRateLimit E w)) ++ [EvFetch req].
Proof.
  intros req Hr Hok H429. rewrite callGeminiAPI_unfold.
  set (w1 := snd (waitForRateLimit E w)).
  assert (Hfirst : attempt_once E prompt (c :: apiKey) (lit "gemini-2.5-flash") 0 w1
                   = (Ok (Breaks (match json r with Ok v => v | Throw _ => JObj [] end)),
                      snd (fetch E req w1))).
  { unfold attempt_once, try_catch, try_attempt. fold req.
    change (0 >? 0) with false. cbv iota.
    unfold mbind, M_bind, bind. unfold ret at 1. unfold fetch at 1.
    unfold w1 at 1. rewrite requests_after_turn, Hr, Hok. cbn [negb].
    rewrite (proj2 (Z.eqb_neq _ _) H429). reflexivity. }
  cbn [retry_loop]. unfold mbind, M_bind, bind. rewrite Hfirst.
  unfold ret, lift, fetch. cbn [fst snd trace]. split; reflexivity.
Qed.

(** X5. A request that fails in transit is retried once: the second
    request follows after a timer of 2000 ms, and nothing follows it. *)
Theorem callGeminiAPI_retries_a_rejected_request
    (prompt apiKey : jsstring) (c : N) (w : world) (e : jsval) :
  let req := gemini_request (lit "gemini-2.5-flash") (c :: apiKey) prompt in
  respond E (requests w) req = Rejects e ->
  trace (snd (callGeminiAPI E prompt (c :: apiKey) w))
  = trace (snd (waitForRateLimit E w)) ++ [EvFetch req; EvTimer 2000; EvFetch req].
Proof.
  intros req Hr. rewrite callGeminiAPI_unfold.
  set (w1 := snd (waitForRateLimit E w)).
  assert (Hfirst : attempt_once E prompt (c :: apiKey) (lit "gemini-2.5-flash") 0 w1
                   = (Ok (Continues e), snd (fetch E req w1))).
  { unfold attempt_once, try_catch, try_attempt. fold req.
    change (0 >? 0) with false. cbv iota.
    unfold mbind, M_bind, bind. unfold ret at 1. unfold fetch at 1.
    unfold w1 at 1. rewrite requests_after_turn, Hr. reflexivity. }
  rewrite (retry_loop_after_continue _ _ _ _ _ _ _ _ Hfirst).
  rewrite trace_after_continue. fold req. unfold fetch. cbn [snd trace].
  now rewrite <- app_assoc.
Qed.

(** X6. After a first answer of 429 the client waits and tries once more.
    The wait is the number of seconds of the [Retry-After] header when the
    header is present and not empty, no time at all when that header is not
    a number, and 4000 ms without the header; the backoff of 2000 ms
    before the second request comes on top. *)
Theorem callGeminiAPI_waits_as_told
    (prompt apiKey : jsstring) (c : N) (w : world) (r : response) :
  let req := gemini_request (lit "gemini-2.5-flash") (c :: apiKey) prompt in
  let wait :=
    match retryAfter r with
    | Some (d :: header) =>
        match parseInt (d :: header) with
        | Some seconds => seconds * 1000
        | None => 0
        end
    | _ => 4000
    end in
  respond E (requests w) req = Responds r ->
  status r = 429 ->
  trace (snd (callGeminiAPI E prompt (c :: apiKey) w))
  = trace (snd (waitForRateLimit E w))
    ++ [EvFetch req; EvTimer wait; EvTimer 2000; EvFetch req].
Proof.
  intros req wait Hr H429. rewrite callGeminiAPI_unfold.
  set (w1 := snd (waitForRateLimit E w)).
  set (waitTime := match retryAfter r with
                   | Some (d :: header) =>
                       option_map (fun n => n * 1000) (parseInt (d :: header))
                   | _ => Some (2 ^ (0 + 2) * 1000)
                   end).
  assert (Hwait : timer_delay waitTime = wait).
  { unfold waitTime, wait. destruct (retryAfter r) as [[|d header]|]; try reflexivity.
    now destruct (parseInt (d :: header)). }
  assert (Hfirst : attempt_once E prompt (c :: apiKey) (lit "gemini-2.5-flash") 0 w1
                   = (Ok (Continues
                            (rate_limit_error waitTime
                               (match json r with Ok v => v | Throw _ => JObj [] end))),
                      snd (sleep E wait (snd (fetch E req w1))))).
  { unfold attempt_once, try_catch, try_attempt. fold req.
    change (0 >? 0) with false. cbv iota.
    unfold mbind, M_bind, bind. unfold ret at 1. unfold fetch at 1.
    unfold w1 at 1. rewrite requests_after_turn, Hr.
    replace (ok r) with false by (unfold ok; now rewrite H429).
    rewrite H429. cbn [negb Z.eqb Pos.eqb].
    change (0 <? maxRetries - 1) with true. cbv iota.
    fold waitTime. rewrite Hwait. reflexivity. }
  rewrite (retry_loop_after_continue _ _ _ _ _ _ _ _ Hfirst).
  rewrite trace_after_continue. fold req. unfold fetch, sleep. cbn [snd trace].
  now rewrite <- !app_assoc.
Qed.

(** X7. A first answer that is a success, carries no [error] and has a
    text is returned as it is, with the fenced blocks of that text as its
    snippets, after one request. *)
Theorem callGeminiAPI_returns_the_text
    (prompt apiKey : jsstring) (c : N) (w : world) (r : response)
    (data : jsval) (d : N) (reply : jsstring) :
  let req := gemini_request (lit "gemini-2.5-flash") (c :: apiKey) prompt in
  respond E (requests w) req = Responds r ->
  ok r = true ->
  json r = Ok data ->
  nullish data = false ->
  truthy (read_prop data (lit "error")) = false ->
  response_text data = JStr (d :: reply) ->
  callGeminiAPI E prompt (c :: apiKey) w
  = (Ok {| content := d :: reply; codeSnippets := extractCodeSnippets (d :: reply) |},
     snd (fetch E req (snd (waitForRateLimit E w)))).
Proof.
  intros req Hr Hok Hjson Hdata Herror Htext. rewrite callGeminiAPI_unfold.
  set (w1 := snd (waitForRateLimit E w)).
  assert (Hfirst : attempt_once E prompt (c :: apiKey) (lit "gemini-2.5-flash") 0 w1
                   = (Ok (Returned {| content := d :: reply;
                                      codeSnippets := extractCodeSnippets (d :: reply) |}),
                      snd (fetch E req w1))).
  { unfold attempt_once, try_catch, try_attempt. fold req.
    change (0 >? 0) with false. cbv iota.
    unfold mbind, M_bind, bind. unfold ret at 1. unfold fetch at 1.
    unfold w1 at 1. rewrite requests_after_turn, Hr, Hok. cbn [negb].
    rewrite Hjson. unfold lift at 1. unfold get_prop. rewrite Hdata.
    unfold lift at 1. rewrite Herror. rewrite Htext. reflexivity. }
  cbn [retry_loop]. unfold mbind, M_bind, bind. rewrite Hfirst. reflexivity.
Qed.

End ClientProperties.

Lemma callGeminiAPI_does_not_retry_http_errors_witness :
  let run := callGeminiAPI (H := Examples.example_host) Scenarios.server_error
               (lit "p") (lit "k") (initial_world 5000) in
  fst run = exhausted (H := Examples.example_host) (JObj [])
  /\ trace (snd run)
     = [EvFetch (gemini_request (lit "gemini-2.5-flash") (lit "k") (lit "p"))].
Proof.
  intros run.
  destruct (callGeminiAPI_does_not_retry_http_errors (H := Examples.example_host)
              Scenarios.server_error (lit "p") [] 107%N (initial_world 5000)
              (Examples.response_of 500 (JObj [])) eq_refl eq_refl ltac:(discriminate))
    as (Hfst & Htrace).
  split; [exact Hfst | exact Htrace].
Defined.

Lemma callGeminiAPI_retries_a_rejected_request_witness :
  let req := gemini_request (lit "gemini-2.5-flash") (lit "k") (lit "p") in
  trace (snd (callGeminiAPI (H := Examples.example_host) Scenarios.offline
                (lit "p") (lit "k") (initial_world 5000)))
  = [EvFetch req; EvTimer 2000; EvFetch req].
Proof.
  exact (callGeminiAPI_retries_a_rejected_request (H := Examples.example_host)
           Scenarios.offline (lit "p") [] 107%N (initial_world 5000)
           (JError (lit "Failed to fetch")) eq_refl).
Defined.

Lemma callGeminiAPI_waits_as_told_witness :
  let req := gemini_request (lit "gemini-2.5-flash") (lit "k") (lit "p") in
  trace (snd (callGeminiAPI (H := Examples.example_host) Examples.rate_limited_env
                (lit "p") (lit "k") (initial_world 5000)))
  = [EvFetch req; EvTimer 5000; EvTimer 2000; EvFetch req].
Proof.
  exact (callGeminiAPI_waits_as_told (H := Examples.example_host)
           Examples.rate_limited_env (lit "p") [] 107%N (initial_world 5000)
           {| status := 429; statusText := lit "Too Many Requests";
              retryAfter := Some (lit "5"); json := Ok (JObj []); text := Ok [] |}
           eq_refl eq_refl).
Defined.

Lemma callGeminiAPI_returns_the_text_witness :
  fst (callGeminiAPI (H := Examples.example_host) (Examples.answering (lit "Hi"))
         (lit "p") (lit "k") (initial_world 5000))
  = Ok {| content := lit "Hi"; codeSnippets := [] |}.
Proof.
  exact (f_equal fst
           (callGeminiAPI_returns_the_text (H := Examples.example_host)
              (Examples.answering (lit "Hi")) (lit "p") [] 107%N (initial_world 5000)
              (Examples.response_of 200 (Scenarios.answer_body (lit "Hi")))
              (Scenarios.answer_body (lit "Hi")) 72%N (lit "i")
              eq_refl eq_refl eq_refl eq_refl eq_refl eq_refl)).
Defined.

(** ** Code snippets *)

Section SnippetProperties.
Context `{JSHost}.

Lemma startsWith_weaken (s p rest : jsstring) :
  startsWith s p = true -> startsWith (s ++ rest) p = true.
Proof.
  intros Hstarts. apply startsWith_app in Hstarts. rewrite Hstarts, <- app_assoc.
  apply startsWith_prefix.
Qed.

(** The first fence of a text: what stands before it holds no fence. *)
Lemma split_at_fence_spec (s before after : jsstring) :
  split_at_fence s = Some (before, after) ->
  s = before ++ fence ++ after /\ includes before fence = false.
Proof.
  revert before. induction s as [|c s IH]; intros before; cbn [split_at_fence].
  - cbn. discriminate.
  - destruct (startsWith (c :: s) fence) eqn:Hfence.
    + intros [= <- <-]. split; [|reflexivity].
      apply startsWith_app in Hfence. exact Hfence.
    + destruct (split_at_fence s) as [[before' after']|] eqn:Hrest; [|discriminate].
      intros [= <- <-]. destruct (IH _ eq_refl) as (Hs & Hfree). split.
      * now rewrite Hs.
      * cbn [includes]. rewrite Hfree, orb_false_r.
        destruct (startsWith (c :: before') fence) eqn:Hhere; [|reflexivity].
        apply (startsWith_weaken _ _ (fence ++ after')) in Hhere.
        rewrite Hs in Hfence. cbn [app] in Hhere. congruence.
Qed.

Lemma fenced_blocks_shape (fuel : nat) (s : jsstring) :
  Forall (fun block => exists inside,
            block = fence ++ inside ++ fence /\ includes inside fence = false)
         (fenced_blocks fuel s).
Proof.
  revert s. induction fuel as [|fuel IH]; intros s; cbn [fenced_blocks]; [constructor|].
  destruct (split_at_fence s) as [[before opened]|]; [|constructor].
  destruct (split_at_fence opened) as [[inside rest]|] eqn:Hclose; [|constructor].
  constructor; [|apply IH].
  apply split_at_fence_spec in Hclose as (_ & Hfree). eauto.
Qed.

Lemma fenced_blocks_in_order (fuel : nat) (s : jsstring) :
  exists gaps rest,
    length gaps = length (fenced_blocks fuel s)
    /\ s = concat (zip_with app gaps (fenced_blocks fuel s)) ++ rest
    /\ Forall (fun gap => includes gap fence = false) gaps.
Proof.
  revert s. induction fuel as [|fuel IH]; intros s; cbn [fenced_blocks].
  - exists [], s. repeat split. constructor.
  - destruct (split_at_fence s) as [[before opened]|] eqn:Hopen;
      [|exists [], s; repeat split; constructor].
    destruct (split_at_fence opened) as [[inside rest]|] eqn:Hclose;
      [|exists [], s; repeat split; constructor].
    apply split_at_fence_spec in Hopen as (Hs & Hbefore).
    apply split_at_fence_spec in Hclose as (Hopened & _).
    destruct (IH rest) as (gaps & rest' & Hlen & Hrest & Hgaps).
    exists (before :: gaps), rest'. split; [cbn; now rewrite Hlen|]. split.
    + cbn [zip_with concat]. rewrite Hs, Hopened. rewrite Hrest at 1.
      now rewrite <- !app_assoc.
    + now constructor.
Qed.

(** X8. Every snippet begins and ends with a fence of three backquotes,
    and holds no fence in between: a snippet runs from a fence to the
    nearest fence after it. *)
Theorem extractCodeSnippets_fenced (text_ : jsstring) :
  Forall (fun snippet => exists inside,
            snippet = fence ++ inside ++ fence /\ includes inside fence = false)
         (extractCodeSnippets text_).
Proof. apply fenced_blocks_shape. Qed.

(** X9. The snippets are pieces of the text, disjoint and in the order
    in which they stand: the text is a gap, the first snippet, a gap, the
    second snippet and so on, followed by a rest; no gap holds a fence, so
    each snippet starts at the first fence after the one before. *)
Theorem extractCodeSnippets_in_order (text_ : jsstring) :
  exists gaps rest,
    length gaps = length (extractCodeSnippets text_)
    /\ text_ = concat (zip_with app gaps (extractCodeSnippets text_)) ++ rest
    /\ Forall (fun gap => includes gap fence = false) gaps.
Proof. apply fenced_blocks_in_order. Qed.

End SnippetProperties.

(** ** The windows and the extension *)

Section PromptProperties.
Context `{JSHost}.

(** X10. What [generateCodeQuestionResponse] sends of a file is bounded:
    a file of more than 12000 units goes out as 12036 units, the two
    halves and the marker, whatever its length. A file of 12001 to 12035
    units therefore goes out longer than it is. *)
Theorem question_window_length (content : jsstring) :
  str_length (fst (question_window content))
  = if str_length content >? 12000 then 12036 else str_length content.
Proof.
  destruct (str_length content >? 12000) eqn:Hcmp.
  - apply Z.gtb_lt in Hcmp. rewrite question_window_long by lia. cbn [fst].
    pose proof (head_units_length 6000 content ltac:(lia)) as Hhead.
    pose proof (tail_units_length 6000 content ltac:(lia)) as Htail.
    unfold str_length in *. rewrite !length_app.
    change (length question_marker) with 36%nat. lia.
  - rewrite Z.gtb_ltb in Hcmp. apply Z.ltb_ge in Hcmp.
    now rewrite question_window_short by lia.
Qed.

Lemma split_on_nonempty (sep : N) (s : jsstring) : split_on sep s <> [].
Proof.
  destruct s as [|c s]; cbn [split_on]; [discriminate|].
  destruct (N.eqb c sep); [discriminate|]. now destruct (split_on sep s).
Qed.

Lemma split_on_without (sep : N) (s : jsstring) : sep ∉ s -> split_on sep s = [s].
Proof.
  induction s as [|c s IH]; intros Hnotin; [reflexivity|].
  apply not_elem_of_cons in Hnotin as (Hc & Hs). cbn [split_on].
  destruct (N.eqb c sep) eqn:Heq; [apply N.eqb_eq in Heq; congruence|].
  now rewrite IH.
Qed.

Lemma split_on_two_fields (sep : N) (s : jsstring) :
  sep ∈ s -> exists field field' fields, split_on sep s = field :: field' :: fields.
Proof.
  induction s as [|c s IH]; intros Hin; [now apply elem_of_nil in Hin|].
  cbn [split_on]. destruct (N.eqb c sep) eqn:Heq.
  - destruct (split_on sep s) as [|field' fields] eqn:Hsplit;
      [now apply split_on_nonempty in Hsplit | eauto].
  - apply N.eqb_neq in Heq. apply elem_of_cons in Hin as [Hin|Hin]; [congruence|].
    destruct (IH Hin) as (field & field' & fields & ->). eauto.
Qed.

(** The last field of a text is what follows its last separator. *)
Lemma last_field_after (sep : N) (stem ext : jsstring) :
  sep ∉ ext -> last_field sep (stem ++ sep :: ext) = ext.
Proof.
  intros Hnotin. unfold last_field. induction stem as [|c stem IH]; cbn [app split_on].
  - rewrite N.eqb_refl, split_on_without by assumption. reflexivity.
  - assert (Hin : sep ∈ stem ++ sep :: ext) by (apply elem_of_app; right; left).
    destruct (split_on_two_fields sep _ Hin) as (field & field' & fields & Hsplit).
    rewrite Hsplit in *. destruct (N.eqb c sep); exact IH.
Qed.

(** X11. The sections a file explanation asks for are chosen by what
    follows the last dot of the path, in lower case, wherever that dot
    stands; a path without a dot is its own extension. *)
Theorem sections_follow_the_last_dot (stem ext content repoName : jsstring) :
  46%N ∉ ext ->
  (exists front,
     file_explanation_prompt (stem ++ 46%N :: ext) content repoName
     = front ++ requested_sections (String_toLowerCase ext))
  /\ (exists front,
        file_explanation_prompt ext content repoName
        = front ++ requested_sections (String_toLowerCase ext)).
Proof.
  intros Hnotin. unfold file_explanation_prompt.
  rewrite last_field_after by assumption.
  unfold last_field at 1. rewrite (split_on_without 46%N ext) by assumption.
  cbn [List.last].
  destruct (explanation_window content) as [contentToSend isTruncated].
  split;
    match goal with
    | |- exists front, ?a ++ ?b ++ ?c ++ ?d = _ => exists (a ++ b ++ c)
    end; rewrite <- !app_assoc; reflexivity.
Qed.

End PromptProperties.

Lemma sections_follow_the_last_dot_witness :
  (exists front,
     file_explanation_prompt (H := Examples.example_host)
       (lit "docs/v1.2/notes.MD") (lit "# Notes") (lit "demo")
     = front ++ sections_markdown)
  /\ (exists front,
        file_explanation_prompt (H := Examples.example_host)
          (lit "MD") (lit "# Notes") (lit "demo")
        = front ++ sections_markdown).
Proof.
  apply (sections_follow_the_last_dot (H := Examples.example_host)
           (lit "docs/v1.2/notes") (lit "MD") (lit "# Notes") (lit "demo")).
  vm_compute. intros Hin. repeat (apply elem_of_cons in Hin as [Hin|Hin]; [discriminate|]).
  now apply elem_of_nil in Hin.
Defined.

(** ** Batch explanations *)

Section BatchProperties.
Context `{JSHost}.

Lemma startsWith_shorter (s p q : jsstring) :
  startsWith s (p ++ q) = true -> startsWith s p = true.
Proof.
  revert s. induction p as [|c p IH]; intros s; [reflexivity|].
  destruct s as [|d s]; cbn; [discriminate|].
  intros Hstarts. apply andb_prop in Hstarts as (-> & Hrest). now rewrite (IH _ Hrest).
Qed.

(** What one step of [collect] does to the record: it sets the entry of
    the function to some text. *)
Lemma collect_step (f : func) (pattern : jsstring) (lines : list jsstring)
    (explanations : gmap jsstring jsstring) :
  exists value,
    match find_line pattern lines with
    | Some (c :: l) =>
        set_entry (BatchExplanations.name f)
          (trim (substring (c :: l) (indexOf (c :: l) 58 + 1) None)) explanations
    | _ => set_entry (BatchExplanations.name f) (lit "No explanation available") explanations
    end = set_entry (BatchExplanations.name f) value explanations.
Proof. destruct (find_line pattern lines) as [[|c l]|]; eauto. Qed.

Lemma set_entry_is_Some (key value k : jsstring) (explanations : gmap jsstring jsstring) :
  is_Some (set_entry key value explanations !! k)
  <-> is_Some (explanations !! k) \/ (k <> lit "__proto__" /\ k = key).
Proof.
  unfold set_entry, str_eqb. case_bool_decide as Hproto.
  - split; [auto|]. intros [Hk|(Hk & ->)]; [assumption | contradiction].
  - rewrite lookup_insert_is_Some. split.
    + intros [->|(_ & Hk)]; auto.
    + intros [Hk|(_ & ->)]; [|auto].
      destruct (decide (key = k)); auto.
Qed.

Lemma collect_is_Some (first : Z) (functions : list func) (lines : list jsstring)
    (explanations : gmap jsstring jsstring) (k : jsstring) :
  is_Some (collect first functions lines explanations !! k)
  <-> is_Some (explanations !! k)
      \/ (k <> lit "__proto__" /\ k ∈ List.map BatchExplanations.name functions).
Proof.
  revert first explanations.
  induction functions as [|f functions IH]; intros first explanations; cbn [collect List.map].
  - split; [auto|]. intros [Hk|(_ & Hk)]; [assumption | now apply elem_of_nil in Hk].
  - destruct (collect_step f
                (lit "FUNCTION_" ++ Number_toString_int (first + 1) ++ lit ":")
                lines explanations) as (value & ->).
    rewrite IH, set_entry_is_Some, elem_of_cons. tauto.
Qed.

(** X12. When the client returns, the record of explanations has one
    entry for every function name other than [__proto__], and no other
    entry: a function whose tag the reply lacks still gets one. *)
Theorem generateBatchFunctionExplanations_keys (E : env) (f : func) (functions : list func)
    (apiKey : jsstring) (w w' : world) (result : Explanation) :
  callGeminiAPI E (batch_prompt (f :: functions)) apiKey w = (Ok result, w') ->
  exists explanations,
    generateBatchFunctionExplanations E (f :: functions) apiKey w = (Ok explanations, w')
    /\ forall k, is_Some (explanations !! k)
                 <-> k <> lit "__proto__"
                     /\ k ∈ List.map BatchExplanations.name (f :: functions).
Proof.
  intros Hcall. unfold generateBatchFunctionExplanations, mbind, M_bind, bind.
  rewrite Hcall. eexists. split; [reflexivity|].
  intros k. rewrite collect_is_Some, lookup_empty, is_Some_alt. tauto.
Qed.

(** A reply without any tagged line gives every function the same text. *)
Lemma collect_without_tags (first : Z) (functions : list func) (lines : list jsstring)
    (explanations : gmap jsstring jsstring) (k : jsstring) :
  Forall (fun l => startsWith (trim l) (lit "FUNCTION_") = false) lines ->
  k <> lit "__proto__" ->
  k ∈ List.map BatchExplanations.name functions ->
  collect first functions lines explanations !! k = Some (lit "No explanation available").
Proof.
  intros Hlines Hproto.
  assert (Hfind : forall pattern, find_line (lit "FUNCTION_" ++ pattern) lines = None).
  { intros pattern. unfold find_line.
    induction Hlines as [|l lines Hl _ IH]; [reflexivity|]. cbn [List.find].
    destruct (startsWith (trim l) (lit "FUNCTION_" ++ pattern)) eqn:Hstarts; [|exact IH].
    apply startsWith_shorter in Hstarts. congruence. }
  assert (Hkeep : forall functions first explanations,
             explanations !! k = Some (lit "No explanation available") ->
             collect first functions lines explanations !! k
             = Some (lit "No explanation available")).
  { clear functions first explanations.
    induction functions as [|f functions IH]; intros first explanations Hk; [exact Hk|].
    cbn [collect]. rewrite Hfind. apply IH. unfold set_entry, str_eqb.
    case_bool_decide; [exact Hk|].
    destruct (decide (BatchExplanations.name f = k)) as [->|Hne];
      [apply lookup_insert_eq | now rewrite lookup_insert_ne]. }
  revert first explanations.
  induction functions as [|f functions IH]; intros first explanations Hk;
    [now apply elem_of_nil in Hk|].
  cbn [collect]. rewrite Hfind. cbn [List.map] in Hk.
  destruct (decide (k = BatchExplanations.name f)) as [->|Hne].
  - apply Hkeep. unfold set_entry, str_eqb.
    rewrite bool_decide_eq_false_2 by assumption. apply lookup_insert_eq.
  - apply elem_of_cons in Hk as [Hk|Hk]; [contradiction | now apply IH].
Qed.

Lemma rate_limit_message_has_no_tags :
  Forall (fun l => startsWith (trim l) (lit "FUNCTION_") = false)
         (split_on 10 rate_limit_message).
Proof.
  apply Forall_forall. intros l Hl.
  assert (Hall : forallb (fun l => negb (startsWith (trim l) (lit "FUNCTION_")))
                   (split_on 10 rate_limit_message) = true)
    by (vm_compute; reflexivity).
  rewrite forallb_forall in Hall. apply list_elem_of_In in Hl.
  now apply negb_true_iff, Hall.
Qed.

(** X13. While the endpoint answers 429, a batch request does not fail:
    the rate-limit text the client returns holds no tagged line, so every
    function is recorded with [No explanation available]. *)
Theorem generateBatchFunctionExplanations_when_rate_limited (E : env) (f : func)
    (functions : list func) (apiKey : jsstring) (c : N) (w : world) :
  (forall n req, exists r, respond E n req = Responds r /\ status r = 429) ->
  exists explanations,
    fst (generateBatchFunctionExplanations E (f :: functions) (c :: apiKey) w)
    = Ok explanations
    /\ forall g, g ∈ f :: functions ->
                 BatchExplanations.name g <> lit "__proto__" ->
                 explanations !! BatchExplanations.name g
                 = Some (lit "No explanation available").
Proof.
  intros Hall.
  pose proof (callGeminiAPI_all_429 E (batch_prompt (f :: functions)) apiKey c w Hall)
    as Hcall.
  unfold generateBatchFunctionExplanations, mbind, M_bind, bind.
  destruct (callGeminiAPI E _ (c :: apiKey) w) as [r w']. cbn [fst] in Hcall. subst r.
  eexists. split; [reflexivity|]. intros g Hg Hproto.
  apply collect_without_tags; [apply rate_limit_message_has_no_tags | assumption |].
  apply list_elem_of_In, in_map, list_elem_of_In, Hg.
Qed.

End BatchProperties.

Lemma generateBatchFunctionExplanations_keys_witness :
  exists explanations,
    fst (generateBatchFunctionExplanations (H := Examples.example_host)
           (Examples.answering (lit "FUNCTION_1: adds two numbers"))
           Examples.two_functions (lit "k") (initial_world 5000))
    = Ok explanations
    /\ forall k, is_Some (explanations !! k)
                 <-> k <> lit "__proto__" /\ k ∈ [lit "add"; lit "sub"].
Proof.
  set (E := Examples.answering (lit "FUNCTION_1: adds two numbers")).
  set (run := callGeminiAPI (H := Examples.example_host) E
                (batch_prompt Examples.two_functions) (lit "k") (initial_world 5000)).
  assert (Hfst : fst run
                 = Ok {| content := lit "FUNCTION_1: adds two numbers"; codeSnippets := [] |})
    by (vm_compute; reflexivity).
  assert (Hcall : run
                  = (Ok {| content := lit "FUNCTION_1: adds two numbers";
                           codeSnippets := [] |}, snd run))
    by (destruct run as [r w']; cbn [fst snd] in *; now subst r).
  destruct (generateBatchFunctionExplanations_keys (H := Examples.example_host) E
              {| BatchExplanations.name := lit "add"; code := lit "const add = (a, b) => a + b" |}
              [{| BatchExplanations.name := lit "sub"; code := lit "const sub = (a, b) => a - b" |}]
              (lit "k") (initial_world 5000) (snd run) _ Hcall)
    as (explanations & Hrun & Hkeys).
  exists explanations. split; [|exact Hkeys].
  change Examples.two_functions
    with [{| BatchExplanations.name := lit "add"; code := lit "const add = (a, b) => a + b" |};
          {| BatchExplanations.name := lit "sub"; code := lit "const sub = (a, b) => a - b" |}].
  now rewrite Hrun.
Defined.

Lemma generateBatchFunctionExplanations_when_rate_limited_witness :
  exists explanations,
    fst (generateBatchFunctionExplanations (H := Examples.example_host)
           Examples.rate_limited_env Examples.two_functions (lit "k") (initial_world 5000))
    = Ok explanations
    /\ explanations !! lit "add" = Some (lit "No explanation available")
    /\ explanations !! lit "sub" = Some (lit "No explanation available").
Proof.
  destruct (generateBatchFunctionExplanations_when_rate_limited (H := Examples.example_host)
              Examples.rate_limited_env
              {| BatchExplanations.name := lit "add"; code := lit "const add = (a, b) => a + b" |}
              [{| BatchExplanations.name := lit "sub"; code := lit "const sub = (a, b) => a - b" |}]
              [] 107%N (initial_world 5000))
    as (explanations & Hrun & Hall).
  - intros n req. eexists. split; reflexivity.
  - exists explanations. split; [exact Hrun|]. split.
    + apply (Hall {| BatchExplanations.name := lit "add";
                     code := lit "const add = (a, b) => a + b" |}); [left|].
      intros Heq. vm_compute in Heq. discriminate Heq.
    + apply (Hall {| BatchExplanations.name := lit "sub";
                     code := lit "const sub = (a, b) => a - b" |}); [right; left|].
      intros Heq. vm_compute in Heq. discriminate Heq.
Defined.

(** ** Tags of the batch reply *)

Section Tags.

Lemma lit_inj (s t : string) : lit s = lit t -> s = t.
Proof.
  unfold lit. intros Heq.
  assert (Hlist : list_ascii_of_string s = list_ascii_of_string t).
  { revert Heq. generalize (list_ascii_of_string s) (list_ascii_of_string t).
    intros l. induction l as [|a l IH]; intros [|b l']; cbn; try discriminate; [reflexivity|].
    intros [= Hab Hrest]. f_equal; [|now apply IH].
    rewrite <- (ascii_N_embedding a), <- (ascii_N_embedding b). now rewrite Hab. }
  rewrite <- (string_of_list_ascii_of_string s), <- (string_of_list_ascii_of_string t).
  now rewrite Hlist.
Qed.

Lemma string_of_uint_digits (d : Decimal.uint) :
  Forall (fun c => c <> 58%N) (lit (NilEmpty.string_of_uint d)).
Proof.
  induction d; cbn [NilEmpty.string_of_uint]; try (constructor; [discriminate | exact IHd]).
  constructor.
Qed.

Lemma decimal_digits (n : N) : Forall (fun c => c <> 58%N) (decimal n).
Proof.
  unfold decimal, NilZero.string_of_uint.
  destruct (N.to_uint n) eqn:Hd; try apply string_of_uint_digits.
  repeat constructor. discriminate.
Qed.

Lemma decimal_inj (n m : N) : decimal n = decimal m -> n = m.
Proof.
  unfold decimal. intros Heq. apply lit_inj in Heq.
  assert (Hnonnil : forall k, N.to_uint k <> Decimal.Nil).
  { intros [|p]; cbn; [discriminate | apply DecimalPos.Unsigned.to_uint_nonnil]. }
  apply (f_equal NilZero.uint_of_string) in Heq.
  rewrite !NilZero.usu in Heq by apply Hnonnil.
  injection Heq as Heq. now apply DecimalN.Unsigned.to_uint_inj.
Qed.

(** Two runs of digits, each closed by a colon: when one text starts with
    the other, the runs are the same. *)
Lemma digits_then_colon (a b rest : jsstring) :
  Forall (fun c => c <> 58%N) a -> Forall (fun c => c <> 58%N) b ->
  startsWith (a ++ 58%N :: rest) (b ++ [58%N]) = true -> a = b.
Proof.
  intros Ha. revert b. induction Ha as [|c a Hc Ha IH]; intros b Hb.
  - destruct Hb as [|d b Hd Hb]; [reflexivity|]. cbn [startsWith app].
    intros Hstarts. apply andb_prop in Hstarts as (Heq & _).
    apply N.eqb_eq in Heq. congruence.
  - destruct Hb as [|d b Hd Hb]; cbn [startsWith app].
    + intros Hstarts. apply andb_prop in Hstarts as (Heq & _).
      apply N.eqb_eq in Heq. congruence.
    + intros Hstarts. apply andb_prop in Hstarts as (Heq & Hrest).
      apply N.eqb_eq in Heq. subst d. f_equal. now apply IH.
Qed.

Lemma startsWith_same_front (p s q : jsstring) :
  startsWith (p ++ s) (p ++ q) = startsWith s q.
Proof. induction p as [|c p IH]; [reflexivity|]. cbn. now rewrite N.eqb_refl. Qed.

(** X14. The line found for one function is never a line tagged for
    another: the tag ends with its colon, so [FUNCTION_1:] does not match a
    line that starts with [FUNCTION_10:]. *)
Theorem tags_do_not_collide (i j : Z) (lines : list jsstring) (l : jsstring) :
  0 <= i -> 0 <= j -> i <> j ->
  find_line (lit "FUNCTION_" ++ Number_toString_int (i + 1) ++ lit ":") lines = Some l ->
  startsWith (trim l) (lit "FUNCTION_" ++ Number_toString_int (j + 1) ++ lit ":") = false.
Proof.
  intros Hi Hj Hij Hfind. unfold find_line in Hfind.
  apply find_some in Hfind as (_ & Hhere). apply startsWith_app in Hhere.
  destruct (startsWith (trim l) _) eqn:Hthere; [|reflexivity]. exfalso.
  rewrite Hhere in Hthere. rewrite <- !app_assoc in Hthere.
  rewrite startsWith_same_front in Hthere.
  unfold Number_toString_int in Hthere.
  destruct (i + 1 <? 0) eqn:Hni; [apply Z.ltb_lt in Hni; lia|].
  destruct (j + 1 <? 0) eqn:Hnj; [apply Z.ltb_lt in Hnj; lia|].
  change (lit ":") with [58%N] in Hthere. cbn [app] in Hthere.
  apply digits_then_colon in Hthere; try apply decimal_digits.
  apply decimal_inj in Hthere. lia.
Qed.

End Tags.

Lemma tags_do_not_collide_witness :
  startsWith (trim (lit "FUNCTION_1: one")) (lit "FUNCTION_10:") = false.
Proof.
  apply (tags_do_not_collide 0 9 [lit "FUNCTION_10: ten"; lit "FUNCTION_1: one"]
           (lit "FUNCTION_1: one")); [lia | lia | lia | vm_compute; reflexivity].
Defined.

(** ** The diagram as a whole *)

Section DiagramProperties.
Context `{JSHost}.

Lemma label_text_Ok (v : jsval) (default s : jsstring) :
  call_replace (js_or v (JStr default)) is_double_quote single_quote = Ok s ->
  s = label_text v default.
Proof.
  intros Hcall. apply call_replace_Ok in Hcall as (s0 & Hv & ->).
  unfold label_text. now rewrite Hv.
Qed.

Lemma add_component_shape (comp : jsval) (st st' : compiler_state) :
  add_component comp st = Ok st' -> mermaid st' = mermaid st ++ [node_line_of comp].
Proof.
  unfold add_component. intros Hrun.
  apply bind_Ok in Hrun as (id & Hid & Hrun).
  apply get_prop_Ok in Hid as (_ & ->).
  apply bind_Ok in Hrun as (safeId & HsafeId & Hrun).
  apply sanitized_Ok in HsafeId. fold (component_id comp) in HsafeId. subst safeId.
  apply bind_Ok in Hrun as (label & Hlabel & Hrun).
  apply get_prop_Ok in Hlabel as (_ & ->).
  apply bind_Ok in Hrun as (safeLabel & HsafeLabel & Hrun).
  apply label_text_Ok in HsafeLabel. subst safeLabel.
  injection Hrun as <-. reflexivity.
Qed.

Lemma components_shape (components : list jsval) (st st' : compiler_state) :
  forEach add_component components st = Ok st' ->
  mermaid st' = mermaid st ++ List.map node_line_of components.
Proof.
  revert st. induction components as [|comp components IH]; intros st; cbn [forEach].
  - intros [= <-]. now rewrite app_nil_r.
  - destruct (add_component comp st) as [st1|e] eqn:Hcomp; [|discriminate].
    intros Hrest. apply add_component_shape in Hcomp. apply IH in Hrest.
    rewrite Hrest, Hcomp, <- app_assoc. reflexivity.
Qed.

Lemma add_module_shape (mod_ : jsval) (st st' : compiler_state) :
  add_module mod_ st = Ok st' -> mermaid st' = mermaid st ++ module_block mod_.
Proof.
  unfold add_module, module_block, components_of. intros Hrun.
  apply bind_Ok in Hrun as (label & Hlabel & Hrun).
  apply get_prop_Ok in Hlabel as (_ & ->).
  apply bind_Ok in Hrun as (safeModLabel & HsafeModLabel & Hrun).
  apply label_text_Ok in HsafeModLabel. subst safeModLabel.
  apply bind_Ok in Hrun as (st2 & Hcomps & Hrun).
  injection Hrun as <-.
  destruct (read_prop mod_ (lit "components")) eqn:Hcomponents;
    try (injection Hcomps as <-; cbn [emit mermaid List.map app];
         now rewrite <- app_assoc).
  apply components_shape in Hcomps. cbn [emit mermaid] in *.
  rewrite Hcomps, <- !app_assoc. reflexivity.
Qed.

Lemma modules_shape (modules : list jsval) (st st' : compiler_state) :
  forEach add_module modules st = Ok st' ->
  mermaid st' = mermaid st ++ flat_map module_block modules.
Proof.
  revert st. induction modules as [|mod_ modules IH]; intros st; cbn [forEach].
  - intros [= <-]. cbn. now rewrite app_nil_r.
  - destruct (add_module mod_ st) as [st1|e] eqn:Hmod; [|discriminate].
    intros Hrest. apply add_module_shape in Hmod. apply IH in Hrest.
    rewrite Hrest, Hmod. cbn [flat_map]. now rewrite <- app_assoc.
Qed.

(** A successful compilation appends the lines of [diagram_lines]. *)
Lemma compile_lines_Ok (data : jsval) (ls : list line) :
  compile_lines data = Ok ls ->
  exists modules,
    read_prop data (lit "modules") = JArr modules
    /\ ls = diagram_lines modules (relationships_of data).
Proof.
  unfold compile_lines. intros Hrun.
  apply bind_Ok in Hrun as (st & Hcompile & Hls). injection Hls as <-.
  apply compile_Ok in Hcompile
    as (modules & st1 & Hmodules & Hrun & _ & Hids & _ & _ & Hlines).
  exists modules. split; [exact Hmodules|].
  apply modules_shape in Hrun. cbn [mermaid] in Hrun.
  unfold diagram_lines, relationships_of. rewrite Hlines, Hrun, Hids.
  now rewrite <- !app_assoc.
Qed.

(** X15. What a successful compilation appends, as a function of the
    input: the header; for each module in turn the subgraph line with its
    label, one node line per component, and the closing line; then one edge
    for each relationship whose two endpoints are declared; then the style
    directive. Nothing else is ever appended. *)
Theorem compile_lines_shape (data : jsval) (ls : list line) :
  compile_lines data = Ok ls ->
  exists modules,
    read_prop data (lit "modules") = JArr modules
    /\ ls = diagram_lines modules (relationships_of data).
Proof. apply compile_lines_Ok. Qed.

Lemma label_text_free (v : jsval) (default : jsstring) : 34%N ∉ label_text v default.
Proof.
  unfold label_text. destruct (js_or v (JStr default)); try apply not_elem_of_nil.
  unfold replace_class. intros Hin.
  apply list_elem_of_In, in_map_iff in Hin as (c & Hc & _).
  unfold is_double_quote in Hc. destruct (N.eqb_spec c 34); [discriminate Hc | congruence].
Qed.

(** X16. No label of a compiled diagram holds a double quote, whatever
    the labels of the input hold: the quotes that delimit a label in the
    text are the only ones on its line. *)
Theorem labels_hold_no_double_quote (data : jsval) (ls : list line) :
  compile_lines data = Ok ls ->
  Forall (fun l => forall label, shown_label l = Some label -> 34%N ∉ label) ls.
Proof.
  intros Hrun. apply compile_lines_Ok in Hrun as (modules & _ & ->).
  unfold diagram_lines. rewrite !Forall_app. repeat split.
  - repeat constructor. discriminate.
  - apply Forall_forall. intros l Hl.
    apply list_elem_of_In, in_flat_map in Hl as (mod_ & _ & Hl).
    unfold module_block in Hl. cbn [In] in Hl. rewrite in_app_iff in Hl.
    destruct Hl as [<-|[Hl|[<-|[]]]]; cbn [shown_label].
    + intros label [= <-]. apply label_text_free.
    + apply in_map_iff in Hl as (comp & <- & _). intros label [= <-].
      apply label_text_free.
    + discriminate.
  - apply Forall_forall. intros l Hl. unfold kept_edges in Hl.
    apply list_elem_of_In, in_flat_map in Hl as (rel & _ & Hl).
    destruct (_ && _); [|destruct Hl]. destruct Hl as [<-|[]]. discriminate.
  - repeat constructor. discriminate.
Qed.

Lemma replace_class_again (s : jsstring) :
  replace_class unsafe_id_unit underscore (replace_class unsafe_id_unit underscore s)
  = replace_class unsafe_id_unit underscore s.
Proof.
  unfold replace_class. rewrite List.map_map. apply List.map_ext. intros c.
  destruct (unsafe_id_unit c) eqn:Hc; [reflexivity | now rewrite Hc].
Qed.

(** X17. A relationship reaches a component whether it names it by the
    id the input gave or by the id the diagram uses: sanitizing an id that
    is already sanitized changes nothing. *)
Theorem endpoints_may_be_raw_or_sanitized (comp rel : jsval) (d : N) (id : jsstring) :
  read_prop comp (lit "id") = JStr (d :: id) ->
  (read_prop rel (lit "from") = JStr (d :: id) -> from_id rel = component_id comp)
  /\ (read_prop rel (lit "from") = JStr (component_id comp) ->
      from_id rel = component_id comp)
  /\ (read_prop rel (lit "to") = JStr (d :: id) -> to_id rel = component_id comp)
  /\ (read_prop rel (lit "to") = JStr (component_id comp) -> to_id rel = component_id comp).
Proof.
  intros Hid. unfold from_id, to_id, component_id. rewrite Hid.
  assert (Hraw : forall default default',
             sanitized (JStr (d :: id)) default = sanitized (JStr (d :: id)) default')
    by reflexivity.
  assert (Hagain : forall default,
             sanitized (JStr (sanitized (JStr (d :: id)) (lit "node"))) default
             = sanitized (JStr (d :: id)) (lit "node")).
  { intros default. unfold sanitized at 1 3. unfold js_or. cbn [truthy].
    unfold sanitized, js_or. cbn [truthy replace_class List.map].
    change (List.map (fun c => if unsafe_id_unit c then underscore else c) id)
      with (replace_class unsafe_id_unit underscore id).
    f_equal; [|apply replace_class_again].
    destruct (unsafe_id_unit d) eqn:Hd; [reflexivity | now rewrite Hd]. }
  repeat split; intros ->; auto.
Qed.

End DiagramProperties.

Lemma compile_lines_shape_witness :
  exists ls modules,
    compile_lines (H := Examples.example_host) Examples.one_dangling_edge = Ok ls
    /\ read_prop Examples.one_dangling_edge (lit "modules") = JArr modules
    /\ ls = diagram_lines modules (relationships_of Examples.one_dangling_edge).
Proof.
  destruct (compile_lines (H := Examples.example_host) Examples.one_dangling_edge)
    as [ls|e] eqn:Hrun; [|vm_compute in Hrun; discriminate Hrun].
  destruct (compile_lines_shape (H := Examples.example_host) _ _ Hrun)
    as (modules & Hmodules & Hls).
  exists ls, modules. auto.
Defined.

Lemma labels_hold_no_double_quote_witness :
  exists ls,
    compile_lines (H := Examples.example_host) Scenarios.quoted_labels = Ok ls
    /\ Forall (fun l => forall label, shown_label l = Some label -> 34%N ∉ label) ls.
Proof.
  destruct (compile_lines (H := Examples.example_host) Scenarios.quoted_labels)
    as [ls|e] eqn:Hrun; [|vm_compute in Hrun; discriminate Hrun].
  exists ls. split; [reflexivity|].
  exact (labels_hold_no_double_quote (H := Examples.example_host) _ _ Hrun).
Defined.

Lemma endpoints_may_be_raw_or_sanitized_witness :
  from_id Scenarios.mixed_endpoints = lit "auth_controller"
  /\ to_id Scenarios.mixed_endpoints = lit "auth_controller".
Proof.
  destruct (endpoints_may_be_raw_or_sanitized Scenarios.dashed_component
              Scenarios.mixed_endpoints 97%N (lit "uth-controller") eq_refl)
    as (Hraw & _ & _ & Hsanitized).
  split; [exact (Hraw eq_refl) | exact (Hsanitized eq_refl)].
Defined.

(** ** The tree drawn for the architecture prompt *)

Section TreeProperties.
Context `{JSHost} `{DiagramHost}.

Lemma map_result_Forall2 {A B : Type} (f : A -> result B) (items : list A) (ys : list B) :
  map_result f items = Ok ys -> Forall2 (fun x y => f x = Ok y) items ys.
Proof.
  revert ys. induction items as [|x items IH]; intros ys; cbn [map_result].
  - intros [= <-]. constructor.
  - intros Hrun. apply bind_Ok in Hrun as (y & Hy & Hrun).
    apply bind_Ok in Hrun as (ys' & Hys & Hrun). injection Hrun as <-.
    constructor; [exact Hy | now apply IH].
Qed.

Lemma verdicts_paired (sorted : list jsval) (verdicts : list bool) :
  map_result is_relevant sorted = Ok verdicts ->
  Forall (fun cv => is_relevant (fst cv) = Ok (snd cv)) (combine sorted verdicts).
Proof.
  intros Hrun. apply map_result_Forall2 in Hrun.
  induction Hrun as [|c v sorted verdicts Hc _ IH]; cbn [combine]; constructor; auto.
Qed.

(** A child the filter keeps has a string for a name, and that name starts
    with none of the ignored patterns. *)
Lemma is_relevant_true (c : jsval) :
  is_relevant c = Ok true ->
  exists s, read_prop c (lit "name") = JStr s /\ matches_ignored s = false.
Proof.
  unfold is_relevant. intros Hrun.
  apply bind_Ok in Hrun as (name_ & Hname & Hrun).
  apply get_prop_Ok in Hname as (_ & ->).
  apply bind_Ok in Hrun as (s & Hs & Hrun).
  unfold string_receiver in Hs.
  destruct (read_prop c (lit "name")); try discriminate. injection Hs as ->.
  injection Hrun as Hrun. apply negb_true_iff in Hrun. eauto.
Qed.

(** An invariant of all lines is an invariant of the walk along the
    children, given that it holds of the entries themselves and of what the
    recursive calls return. *)
Lemma walk_children_Forall (P : tree_line -> Prop)
    (recur : jsval -> jsstring -> result (list tree_line * jsval))
    (prefix : jsstring) (visibleCount hiddenCount : Z) :
  (forall isLast name_ isDir, matches_ignored name_ = false ->
                              P (TEntry prefix isLast name_ isDir)) ->
  (forall child (isLast : bool) out,
      recur child (prefix ++ (if isLast then last_indent else inner_indent)) = Ok out ->
      Forall P (fst out)) ->
  forall children index out,
    Forall (fun cv => is_relevant (fst cv) = Ok (snd cv)) children ->
    walk_children recur prefix visibleCount hiddenCount index children = Ok out ->
    Forall P (fst out).
Proof.
  intros Hentry Hrecur children.
  induction children as [|[child relevant] children IH]; intros index out Hpaired;
    cbn [walk_children].
  - intros [= <-]. constructor.
  - apply Forall_cons in Hpaired as (Hchild & Hpaired). cbn [fst snd] in Hchild.
    destruct (relevant && (index <? visibleCount)) eqn:Hvisible.
    + apply andb_prop in Hvisible as (-> & _).
      apply is_relevant_true in Hchild as (s & Hname & Hignored).
      rewrite Hname. cbn [ToString]. unfold mbind at 1, result_bind at 1.
      intros Hrun. apply bind_Ok in Hrun as (sub & Hsub & Hrun).
      apply bind_Ok in Hrun as (more & Hmore & Hrun). injection Hrun as <-.
      cbn [fst]. constructor; [now apply Hentry|].
      apply Forall_app. split; [|eapply IH; eassumption].
      destruct (is_string (read_prop child (lit "type")) (lit "dir")).
      * eapply Hrecur, Hsub.
      * injection Hsub as <-. constructor.
    + intros Hrun. apply bind_Ok in Hrun as (more & Hmore & Hrun). injection Hrun as <-.
      cbn [fst]. eapply IH; eassumption.
Qed.

(** The parts of one level of [tree_from] that returns. *)
Lemma tree_from_Ok (levels : nat) (node : jsval) (prefix : jsstring) (depth : Z)
    (out : list tree_line * jsval) :
  tree_from (S levels) node prefix depth = Ok out ->
  depth <= MAX_TREE_DEPTH ->
  exists sorted verdicts walked,
    map_result is_relevant sorted = Ok verdicts
    /\ let relevantCount := Z.of_nat (length (List.filter id verdicts)) in
       let visibleCount := Z.min relevantCount MAX_CHILDREN_PER_DIR in
       let hiddenCount := relevantCount - visibleCount in
       walk_children
         (fun child newPrefix => tree_from levels child newPrefix (depth + 1))
         prefix visibleCount hiddenCount 0 (combine sorted verdicts) = Ok walked
       /\ fst out
          = fst walked ++ (if hiddenCount >? 0 then [TMore prefix hiddenCount] else []).
Proof.
  cbn [tree_from]. intros Hrun Hdepth.
  destruct (depth >? MAX_TREE_DEPTH) eqn:Hcmp; [apply Z.gtb_lt in Hcmp; lia|].
  apply bind_Ok in Hrun as (children & _ & Hrun).
  apply bind_Ok in Hrun as (sorted & _ & Hrun).
  apply bind_Ok in Hrun as (verdicts & Hverdicts & Hrun).
  apply bind_Ok in Hrun as (walked & Hwalked & Hrun).
  injection Hrun as <-. exists sorted, verdicts, walked. auto.
Qed.

Lemma tree_from_Forall (P : tree_line -> Prop) :
  (forall prefix isLast name_ isDir, matches_ignored name_ = false ->
                                     P (TEntry prefix isLast name_ isDir)) ->
  (forall prefix hiddenCount, P (TMore prefix hiddenCount)) ->
  forall levels node prefix depth out,
    tree_from levels node prefix depth = Ok out -> Forall P (fst out).
Proof.
  intros Hentry Hmore levels.
  induction levels as [|levels IH]; intros node prefix depth out Hrun.
  - cbn [tree_from] in Hrun. destruct (depth >? MAX_TREE_DEPTH);
      injection Hrun as <-; constructor.
  - destruct (Z.gtb_spec depth MAX_TREE_DEPTH) as [Hdeep|Hshallow].
    + cbn [tree_from] in Hrun.
      destruct (depth >? MAX_TREE_DEPTH) eqn:Hcmp;
        [|rewrite Z.gtb_ltb in Hcmp; apply Z.ltb_ge in Hcmp; lia].
      injection Hrun as <-. constructor.
    + apply tree_from_Ok in Hrun as (sorted & verdicts & walked & Hverdicts & Hwalked & ->);
        [|exact Hshallow].
      apply Forall_app. split.
      * eapply walk_children_Forall; [| |apply verdicts_paired, Hverdicts|exact Hwalked].
        -- intros. now apply Hentry.
        -- intros child isLast out' Hout. eapply IH, Hout.
      * destruct (_ >? 0); repeat constructor. apply Hmore.
Qed.

(** X18. No name the tree lists is an ignored name or starts with one:
    [node_modules] and [.git] stay out, and so does every entry whose name
    merely begins like that, such as [.github], [.gitignore] or
    [build.gradle]. *)
Theorem tree_lists_no_ignored_name (node node' : jsval) (ls : list tree_line) :
  generateTreeRepresentation node = Ok (ls, node') ->
  Forall (fun l => forall name_ pattern,
            listed_name l = Some name_ -> pattern ∈ ignored ->
            startsWith name_ pattern = false) ls.
Proof.
  unfold generateTreeRepresentation. intros Hrun.
  apply (tree_from_Forall
           (fun l => forall name_ pattern,
              listed_name l = Some name_ -> pattern ∈ ignored ->
              startsWith name_ pattern = false)) in Hrun; [exact Hrun| |].
  - intros prefix isLast name_ isDir Hignored name' pattern [= <-] Hpattern.
    unfold matches_ignored in Hignored.
    destruct (startsWith name_ pattern) eqn:Hstarts; [|reflexivity].
    assert (Hex : existsb (fun pattern => str_eqb name_ pattern || startsWith name_ pattern)
                    ignored = true).
    { apply existsb_exists. exists pattern. split; [now apply list_elem_of_In|].
      now rewrite Hstarts, orb_true_r. }
    congruence.
  - intros prefix hiddenCount name_ pattern. discriminate.
Qed.

(** The walk along the children appends at most one entry, and what lies
    under it, for each of the children still to be shown. *)
Lemma walk_children_bound (bound : Z)
    (recur : jsval -> jsstring -> result (list tree_line * jsval))
    (prefix : jsstring) (visibleCount hiddenCount : Z) :
  0 <= bound ->
  (forall child newPrefix out,
      recur child newPrefix = Ok out -> Z.of_nat (length (fst out)) <= bound) ->
  forall children index out,
    0 <= index <= visibleCount ->
    walk_children recur prefix visibleCount hiddenCount index children = Ok out ->
    Z.of_nat (length (fst out)) <= (visibleCount - index) * (1 + bound).
Proof.
  intros Hbound Hrecur children.
  induction children as [|[child relevant] children IH]; intros index out Hindex;
    cbn [walk_children].
  - intros [= <-]. cbn. nia.
  - destruct (relevant && (index <? visibleCount)) eqn:Hvisible.
    + apply andb_prop in Hvisible as (_ & Hlt). apply Z.ltb_lt in Hlt.
      intros Hrun. apply bind_Ok in Hrun as (name_text & _ & Hrun).
      apply bind_Ok in Hrun as (sub & Hsub & Hrun).
      apply bind_Ok in Hrun as (more & Hmore & Hrun). injection Hrun as <-.
      cbn [fst length]. rewrite length_app.
      apply IH in Hmore; [|lia].
      assert (Hsub' : Z.of_nat (length (fst sub)) <= bound).
      { destruct (is_string (read_prop child (lit "type")) (lit "dir")).
        - eapply Hrecur, Hsub.
        - injection Hsub as <-. cbn. lia. }
      nia.
    + intros Hrun. apply bind_Ok in Hrun as (more & Hmore & Hrun). injection Hrun as <-.
      cbn [fst]. now apply IH.
Qed.

Lemma tree_bound_nonneg (levels : nat) : 0 <= tree_bound levels.
Proof. induction levels; cbn [tree_bound]; lia. Qed.

Lemma tree_from_bound (levels : nat) :
  forall node prefix depth out,
    tree_from levels node prefix depth = Ok out ->
    Z.of_nat (length (fst out)) <= tree_bound levels.
Proof.
  induction levels as [|levels IH]; intros node prefix depth out Hrun.
  - cbn [tree_from] in Hrun. destruct (depth >? MAX_TREE_DEPTH);
      injection Hrun as <-; cbn; lia.
  - pose proof (tree_bound_nonneg levels) as Hnonneg.
    destruct (Z.gtb_spec depth MAX_TREE_DEPTH) as [Hdeep|Hshallow].
    + cbn [tree_from] in Hrun.
      destruct (depth >? MAX_TREE_DEPTH) eqn:Hcmp;
        [|rewrite Z.gtb_ltb in Hcmp; apply Z.ltb_ge in Hcmp; lia].
      injection Hrun as <-. cbn [fst length tree_bound]. lia.
    + apply tree_from_Ok in Hrun as (sorted & verdicts & walked & _ & Hwalked & ->);
        [|exact Hshallow].
      cbn zeta in Hwalked.
      apply (walk_children_bound (tree_bound levels)) in Hwalked;
        [|exact Hnonneg|intros child newPrefix out' Hout; eapply IH, Hout
         |unfold MAX_CHILDREN_PER_DIR; lia].
      rewrite length_app. cbn [tree_bound].
      assert (Hmore : forall b : bool, forall l : tree_line,
                 (length (if b then [l] else []) <= 1)%nat)
        by (intros []; cbn; lia).
      match goal with
      | |- context [if ?b then [?l] else []] => specialize (Hmore b l)
      end.
      unfold MAX_CHILDREN_PER_DIR in *. nia.
Qed.

(** The indentation grows by four units per level, from the given one. *)
Lemma tree_from_indentation (levels : nat) :
  forall node prefix depth out,
    tree_from levels node prefix depth = Ok out ->
    Forall (fun l => str_length prefix <= str_length (line_prefix l)
                     /\ str_length (line_prefix l)
                        <= str_length prefix + 4 * (Z.of_nat levels - 1)) (fst out).
Proof.
  induction levels as [|levels IH]; intros node prefix depth out Hrun.
  - cbn [tree_from] in Hrun. destruct (depth >? MAX_TREE_DEPTH);
      injection Hrun as <-; constructor.
  - destruct (Z.gtb_spec depth MAX_TREE_DEPTH) as [Hdeep|Hshallow].
    + cbn [tree_from] in Hrun.
      destruct (depth >? MAX_TREE_DEPTH) eqn:Hcmp;
        [|rewrite Z.gtb_ltb in Hcmp; apply Z.ltb_ge in Hcmp; lia].
      injection Hrun as <-. constructor.
    + apply tree_from_Ok in Hrun as (sorted & verdicts & walked & Hverdicts & Hwalked & ->);
        [|exact Hshallow].
      apply Forall_app. split.
      * eapply walk_children_Forall; [| |apply verdicts_paired, Hverdicts|exact Hwalked].
        -- intros isLast name_ isDir _. cbn [line_prefix]. lia.
        -- intros child isLast out' Hout. apply IH in Hout.
           eapply Forall_impl; [exact Hout|]. cbn beta. intros l (Hlo & Hhi).
           assert (Hstep : str_length (prefix ++ (if isLast then last_indent else inner_indent))
                           = str_length prefix + 4)
             by (unfold str_length; rewrite length_app; destruct isLast; cbn; lia).
           rewrite Hstep in *. lia.
      * destruct (_ >? 0); repeat constructor; cbn [line_prefix]; lia.
Qed.

(** X19. The tree in the prompt is bounded whatever the size of the
    repository: it has at most 176841 lines, and no line is indented by more
    than twelve units, that is, lies more than three directories deep. *)
Theorem tree_is_bounded (node node' : jsval) (ls : list tree_line) :
  generateTreeRepresentation node = Ok (ls, node') ->
  Z.of_nat (length ls) <= 176841
  /\ Forall (fun l => str_length (line_prefix l) <= 12) ls.
Proof.
  unfold generateTreeRepresentation. intros Hrun. split.
  - apply tree_from_bound in Hrun. exact Hrun.
  - apply tree_from_indentation in Hrun. cbn [fst] in Hrun.
    eapply Forall_impl; [exact Hrun|]. cbn beta. intros l (_ & Hhi).
    change (str_length []) with 0 in Hhi.
    change (Z.of_nat (Z.to_nat (MAX_TREE_DEPTH + 1))) with 4 in Hhi. lia.
Qed.

End TreeProperties.

Lemma tree_lists_no_ignored_name_witness :
  exists ls node',
    generateTreeRepresentation (H := Examples.example_host)
      (H0 := Scenarios.example_diagram_host) Scenarios.small_repository = Ok (ls, node')
    /\ Forall (fun l => forall name_ pattern,
                 listed_name l = Some name_ -> pattern ∈ ignored ->
                 startsWith name_ pattern = false) ls.
Proof.
  destruct (generateTreeRepresentation (H := Examples.example_host)
              (H0 := Scenarios.example_diagram_host) Scenarios.small_repository)
    as [[ls node']|e] eqn:Hrun; [|vm_compute in Hrun; discriminate Hrun].
  exists ls, node'. split; [reflexivity|].
  exact (tree_lists_no_ignored_name (H := Examples.example_host)
           (H0 := Scenarios.example_diagram_host) _ _ _ Hrun).
Defined.

Lemma tree_is_bounded_witness :
  exists ls node',
    generateTreeRepresentation (H := Examples.example_host)
      (H0 := Scenarios.example_diagram_host) Scenarios.small_repository = Ok (ls, node')
    /\ Z.of_nat (length ls) <= 176841
    /\ Forall (fun l => str_length (line_prefix l) <= 12) ls.
Proof.
  destruct (generateTreeRepresentation (H := Examples.example_host)
              (H0 := Scenarios.example_diagram_host) Scenarios.small_repository)
    as [[ls node']|e] eqn:Hrun; [|vm_compute in Hrun; discriminate Hrun].
  exists ls, node'. split; [reflexivity|].
  exact (tree_is_bounded (H := Examples.example_host)
           (H0 := Scenarios.example_diagram_host) _ _ _ Hrun).
Defined.

(** The small repository as the prompt shows it: [.github], [.gitignore]
    and [build.gradle] are left out with the ignored names they begin
    like. *)
Example small_repository_drawn :
  (drawn ← generateTreeRepresentation (H := Examples.example_host)
             (H0 := Scenarios.example_diagram_host) Scenarios.small_repository;
   Ok (render_tree (fst drawn)))
  = Ok (inner_marker ++ lit "docs/
" ++ inner_marker ++ lit "src/
" ++ inner_indent ++ last_marker ++ lit "main.ts
" ++ inner_marker ++ lit "package.json
" ++ last_marker ++ lit "README.md
").
Proof. vm_compute. reflexivity. Qed.

(** ** Cleaning the reply of the diagram generator *)

Section CleanJson.











End CleanJson.


(** ** Runs of the diagram generator *)

Section DiagramRuns.
Context `{JSHost} `{DiagramHost}.
Variable E : env.

Lemma try_diagram_sends (prompt apiKey : jsstring) (attempt : Z) :
  sends (diagram_request apiKey prompt) 1 1 (try_diagram E prompt apiKey attempt).
Proof.
  unfold try_diagram. apply sends_after_quiet.
  - destruct (attempt >? 0); footprint.
  - destruct (attempt >? 0); auto with footprint.
  - intros _. apply sends_fetch. footprint.
Qed.

Lemma diagram_attempt_once_sends (prompt apiKey : jsstring) (attempt : Z) :
  sends (diagram_request apiKey prompt) 1 1 (diagram_attempt_once E prompt apiKey attempt).
Proof.
  unfold diagram_attempt_once. apply sends_try_catch; [apply try_diagram_sends | footprint].
Qed.

Lemma diagram_loop_sends (remaining : nat) (prompt apiKey : jsstring)
    (attempt : Z) (lastError : jsval) :
  sends (diagram_request apiKey prompt) (Nat.min 1 remaining) remaining
    (diagram_loop E remaining prompt apiKey attempt lastError).
Proof.
  revert attempt lastError.
  induction remaining as [|remaining IH]; intros attempt lastError; cbn [diagram_loop].
  - apply quiet_sends. footprint.
  - apply (sends_weaken _ 1 (1 + remaining)); [lia | lia |].
    apply sends_bind; [apply diagram_attempt_once_sends|].
    intros [mermaid_text|lastError'].
    + apply (sends_weaken _ 0 0); [lia | lia |]. apply quiet_sends. footprint.
    + apply (sends_weaken _ (Nat.min 1 remaining) remaining); [lia | lia | apply IH].
Qed.

(** [generateArchitectureDiagram] once its prompt is built. *)
Lemma generateArchitectureDiagram_unfold (repoName : jsstring) (repoStructure : jsval)
    (apiKey prompt : jsstring) (w : world) :
  architecture_prompt repoName repoStructure = Ok prompt ->
  generateArchitectureDiagram E repoName repoStructure apiKey w
  = (r ← diagram_loop E 3 prompt apiKey 0 JNull;
     match r with
     | inl mermaid_text => ret mermaid_text
     | inr lastError => throw (diagram_failure lastError)
     end) (snd (waitForRateLimit E w)).
Proof.
  intros Hprompt. unfold generateArchitectureDiagram. rewrite Hprompt.
  unfold mbind at 1, M_bind at 1, bind at 1, lift at 1.
  destruct (waitForRateLimit_effects E w) as (w1 & Hturn & _).
  unfold mbind at 1, M_bind at 1, bind at 1. rewrite Hturn. reflexivity.
Qed.

(** X21. Once its prompt is built, [generateArchitectureDiagram] sends
    the same request at least once and at most three times, and nothing
    else, whatever the key: unlike [callGeminiAPI] it sends even with an
    empty key. *)
Theorem generateArchitectureDiagram_sends_up_to_three
    (repoName : jsstring) (repoStructure : jsval) (apiKey prompt : jsstring) (w : world) :
  architecture_prompt repoName repoStructure = Ok prompt ->
  exists n,
    (1 <= n <= 3)%nat
    /\ fetches (trace (snd (generateArchitectureDiagram E repoName repoStructure apiKey w)))
       = fetches (trace w) ++ repeat (diagram_request apiKey prompt) n.
Proof.
  intros Hprompt. rewrite (generateArchitectureDiagram_unfold _ _ _ _ _ Hprompt).
  rewrite snd_bind_silent by footprint.
  destruct (waitForRateLimit_effects E w) as (w1 & Hturn & Htrace & _).
  rewrite Hturn. cbn [snd].
  destruct (diagram_loop_sends 3 prompt apiKey 0 JNull w1) as (n & Hn & _ & HF & _).
  exists n. split; [cbn in Hn; lia|]. rewrite HF. f_equal.
  rewrite Htrace, fetches_app. destruct (_ <? MIN_CALL_INTERVAL); cbn; now rewrite app_nil_r.
Qed.

Lemma bind_M_Ok {A B : Type} (m : M A) (k : A -> M B) (w w' : world) (b : B) :
  (m ≫= k) w = (Ok b, w') -> exists a w1, m w = (Ok a, w1) /\ k a w1 = (Ok b, w').
Proof.
  unfold mbind, M_bind, bind. destruct (m w) as [[a|e] w1]; [eauto | discriminate].
Qed.

(** A text that parses is a string: on any other value [replace] throws,
    and the inner [catch] turns that into the invalid-JSON error. *)
Lemma parse_diagram_Ok (text_ data : jsval) :
  parse_diagram text_ = Ok data ->
  exists reply, text_ = JStr reply /\ JSON_parse (clean_json reply) = Ok data.
Proof.
  unfold parse_diagram, mbind, result_bind.
  destruct text_; cbn [string_receiver]; try discriminate.
  intros Hparse. eexists. split; [reflexivity|].
  destruct (JSON_parse _); [congruence | discriminate].
Qed.

(** An attempt that ends with a diagram has sent one request, was answered
    with a success, and has compiled the diagram from the text of that
    answer, cleaned and parsed. *)
Lemma try_diagram_Drawn (prompt apiKey : jsstring) (attempt : Z) (w w' : world)
    (mermaid_text : jsstring) :
  try_diagram E prompt apiKey attempt w = (Ok (Drawn mermaid_text), w') ->
  requests w' = S (requests w)
  /\ exists r body reply data,
       respond E (requests w) (diagram_request apiKey prompt) = Responds r
       /\ ok r = true
       /\ json r = Ok body
       /\ response_text body = JStr reply
       /\ JSON_parse (clean_json reply) = Ok data
       /\ convertJsonToMermaid data = Ok mermaid_text.
Proof.
  unfold try_diagram. intros Hrun.
  apply bind_M_Ok in Hrun as (u & w1 & Hdelay & Hrun).
  assert (Hsame : requests w1 = requests w).
  { apply (f_equal (fun p => requests (snd p))) in Hdelay.
    destruct (attempt >? 0); cbn in Hdelay; congruence. }
  apply bind_M_Ok in Hrun as (response & w2 & Hfetch & Hrun).
  unfold fetch in Hfetch. rewrite Hsame in Hfetch.
  destruct (respond E (requests w) (diagram_request apiKey prompt)) as [r|e] eqn:Hanswer;
    [|discriminate Hfetch].
  injection Hfetch as -> <-.
  destruct (ok response) eqn:Hok; cbn [negb] in Hrun.
  - apply bind_M_Ok in Hrun as (body & w3 & Hjson & Hrun).
    apply bind_M_Ok in Hrun as (candidates & w4 & Hcandidates & Hrun).
    destruct (negb (truthy (response_text body))); [discriminate Hrun|].
    apply bind_M_Ok in Hrun as (data & w5 & Hparse & Hrun).
    apply bind_M_Ok in Hrun as (text' & w6 & Hcompile & Hrun).
    unfold lift in Hjson, Hcandidates, Hparse, Hcompile. unfold ret in Hrun.
    injection Hjson as Hjson <-. injection Hcandidates as _ <-.
    injection Hparse as Hparse <-. injection Hcompile as Hcompile <-.
    injection Hrun as -> <-.
    apply parse_diagram_Ok in Hparse as (reply & Htext & Hparse).
    split; [reflexivity|].
    exists response, body, reply, data. auto 10.
  - destruct (status response =? 429); [|discriminate Hrun].
    apply bind_M_Ok in Hrun as (_ & w3 & _ & Hrun). discriminate Hrun.
Qed.

(** A loop that ends with a diagram: the diagram comes from the answer to
    the last request sent, one of the [remaining] first from where the loop
    starts. *)
Lemma diagram_loop_Drawn (remaining : nat) (prompt apiKey : jsstring) (attempt : Z)
    (lastError : jsval) (w w' : world) (mermaid_text : jsstring) :
  diagram_loop E remaining prompt apiKey attempt lastError w = (Ok (inl mermaid_text), w') ->
  exists n r body reply data,
    (requests w <= n < requests w + remaining)%nat
    /\ requests w' = S n
    /\ respond E n (diagram_request apiKey prompt) = Responds r
    /\ ok r = true
    /\ json r = Ok body
    /\ response_text body = JStr reply
    /\ JSON_parse (clean_json reply) = Ok data
    /\ convertJsonToMermaid data = Ok mermaid_text.
Proof.
  revert attempt lastError w.
  induction remaining as [|remaining IH]; intros attempt lastError w; cbn [diagram_loop].
  - discriminate.
  - intros Hrun. apply bind_M_Ok in Hrun as (r & w1 & Hattempt & Hrun).
    destruct r as [text'|lastError'].
    + injection Hrun as -> <-. unfold diagram_attempt_once, try_catch in Hattempt.
      destruct (try_diagram E prompt apiKey attempt w) as [[a|e] w2] eqn:Htry;
        [|discriminate Hattempt].
      injection Hattempt as -> <-.
      apply try_diagram_Drawn in Htry
        as (Hsent & r & body & reply & data & Hanswer & Hrest).
      exists (requests w), r, body, reply, data.
      split; [lia|]. split; [exact Hsent|]. split; [exact Hanswer | exact Hrest].
    + destruct (diagram_attempt_once_sends prompt apiKey attempt w)
        as (k & Hk & _ & _ & Hsent).
      rewrite Hattempt in Hsent. cbn [snd] in Hsent.
      apply IH in Hrun as (n & r & body & reply & data & Hn & Hrest).
      exists n, r, body, reply, data. split; [lia | exact Hrest].
Qed.

(** X22. What [generateArchitectureDiagram] returns is always a compiled
    diagram, drawn from a reply of that very run: the prompt was built, the
    last request the run sent, one of its first three, was answered with a
    success whose body holds a text, and the result is the Mermaid text of
    what that text, cleaned, parses to. It has no fallback text; every
    other run ends in a thrown error. *)
Theorem generateArchitectureDiagram_returns_only_diagrams
    (repoName : jsstring) (repoStructure : jsval) (apiKey mermaid_text : jsstring)
    (w : world) :
  let run := generateArchitectureDiagram E repoName repoStructure apiKey w in
  fst run = Ok mermaid_text ->
  exists prompt n r body reply data,
    architecture_prompt repoName repoStructure = Ok prompt
    /\ (requests w <= n < requests w + 3)%nat
    /\ requests (snd run) = S n
    /\ respond E n (diagram_request apiKey prompt) = Responds r
    /\ ok r = true
    /\ json r = Ok body
    /\ response_text body = JStr reply
    /\ JSON_parse (clean_json reply) = Ok data
    /\ convertJsonToMermaid data = Ok mermaid_text.
Proof.
  intros run Hrun. unfold run in *. clear run.
  destruct (generateArchitectureDiagram E repoName repoStructure apiKey w) as [r w'] eqn:Hgen.
  cbn [fst snd] in *. subst r. unfold generateArchitectureDiagram in Hgen.
  apply bind_M_Ok in Hgen as (prompt & w1 & Hprompt & Hgen).
  unfold lift in Hprompt. injection Hprompt as Hprompt <-.
  apply bind_M_Ok in Hgen as (u & w2 & Hturn & Hgen).
  pose proof (requests_after_turn E w) as Hsame. rewrite Hturn in Hsame. cbn [snd] in Hsame.
  apply bind_M_Ok in Hgen as (r & w3 & Hloop & Hgen).
  destruct r as [text'|lastError]; [|discriminate Hgen].
  injection Hgen as -> <-.
  apply diagram_loop_Drawn in Hloop as (n & r & body & reply & data & Hn & Hrest).
  exists prompt, n, r, body, reply, data.
  change (Z.to_nat diagram_maxRetries) with 3%nat in Hn.
  split; [exact Hprompt|]. split; [lia | exact Hrest].
Qed.

(** An attempt that meets a 429 without a [Retry-After] header: the
    backoff when it is not the first, the request, and a wait that doubles
    with each attempt. *)
Lemma diagram_attempt_429 (prompt apiKey : jsstring) (attempt : Z) (w : world) :
  (forall n, exists r,
      respond E n (diagram_request apiKey prompt) = Responds r
      /\ status r = 429 /\ retryAfter r = None) ->
  fst (diagram_attempt_once E prompt apiKey attempt w) = Ok (Failed diagram_rate_limited)
  /\ trace (snd (diagram_attempt_once E prompt apiKey attempt w))
     = trace w
       ++ (if attempt >? 0 then [EvTimer (2 ^ attempt * 2000)] else [])
       ++ [EvFetch (diagram_request apiKey prompt); EvTimer (2 ^ (attempt + 2) * 1000)].
Proof.
  intros Hall.
  assert (Hrun : diagram_attempt_once E prompt apiKey attempt w
                 = (Ok (Failed diagram_rate_limited),
                    snd (sleep E (2 ^ (attempt + 2) * 1000)
                           (snd (fetch E (diagram_request apiKey prompt)
                                   (if attempt >? 0
                                    then snd (sleep E (2 ^ attempt * 2000) w)
                                    else w)))))).
  { unfold diagram_attempt_once, try_catch, try_diagram.
    unfold mbind, M_bind, bind.
    destruct (attempt >? 0); [unfold sleep at 1 | unfold ret at 1];
      unfold fetch at 1; cbn [requests];
      destruct (Hall (requests w)) as (r & -> & H429 & Hheader);
      (replace (ok r) with false by (unfold ok; now rewrite H429));
      rewrite H429, Hheader; reflexivity. }
  rewrite Hrun. cbn [fst snd]. split; [reflexivity|].
  unfold sleep, fetch. destruct (attempt >? 0); cbn [snd trace];
    rewrite <- ?app_assoc; reflexivity.
Qed.

Lemma diagram_loop_after_failure (remaining : nat) (prompt apiKey : jsstring)
    (attempt : Z) (lastError lastError' : jsval) (w : world) :
  fst (diagram_attempt_once E prompt apiKey attempt w) = Ok (Failed lastError') ->
  diagram_loop E (S remaining) prompt apiKey attempt lastError w
  = diagram_loop E remaining prompt apiKey (attempt + 1) lastError'
      (snd (diagram_attempt_once E prompt apiKey attempt w)).
Proof.
  intros Hfirst. cbn [diagram_loop]. unfold mbind, M_bind, bind.
  destruct (diagram_attempt_once E prompt apiKey attempt w) as [r w1].
  cbn [fst snd] in *. now subst r.
Qed.

(** X23. While the endpoint answers 429 without a [Retry-After] header,
    the generator tries three times and throws the rate-limit error. It
    waits 4, 8 and 16 seconds after the three answers, the last wait
    included although nothing follows it, and 4 and 8 seconds before the
    second and the third request: 40 seconds in all. *)
Theorem generateArchitectureDiagram_when_rate_limited
    (repoName : jsstring) (repoStructure : jsval) (apiKey prompt : jsstring) (w : world) :
  let req := diagram_request apiKey prompt in
  architecture_prompt repoName repoStructure = Ok prompt ->
  (forall n, exists r,
      respond E n req = Responds r /\ status r = 429 /\ retryAfter r = None) ->
  let run := generateArchitectureDiagram E repoName repoStructure apiKey w in
  fst run = Throw diagram_rate_limit_error
  /\ trace (snd run)
     = trace (snd (waitForRateLimit E w))
       ++ [EvFetch req; EvTimer 4000;
           EvTimer 4000; EvFetch req; EvTimer 8000;
           EvTimer 8000; EvFetch req; EvTimer 16000].
Proof.
  intros req Hprompt Hall run. unfold run.
  rewrite (generateArchitectureDiagram_unfold _ _ _ _ _ Hprompt).
  set (w1 := snd (waitForRateLimit E w)).
  unfold mbind, M_bind, bind.
  destruct (diagram_attempt_429 prompt apiKey 0 w1 Hall) as (Hr1 & Ht1).
  rewrite (diagram_loop_after_failure _ _ _ _ _ _ _ Hr1).
  set (w2 := snd (diagram_attempt_once E prompt apiKey 0 w1)) in *.
  destruct (diagram_attempt_429 prompt apiKey (0 + 1) w2 Hall) as (Hr2 & Ht2).
  rewrite (diagram_loop_after_failure _ _ _ _ _ _ _ Hr2).
  set (w3 := snd (diagram_attempt_once E prompt apiKey (0 + 1) w2)) in *.
  destruct (diagram_attempt_429 prompt apiKey (0 + 1 + 1) w3 Hall) as (Hr3 & Ht3).
  rewrite (diagram_loop_after_failure _ _ _ _ _ _ _ Hr3).
  set (w4 := snd (diagram_attempt_once E prompt apiKey (0 + 1 + 1) w3)) in *.
  cbn [diagram_loop]. unfold ret, throw. cbn [fst snd]. split.
  - reflexivity.
  - rewrite Ht3, Ht2, Ht1. fold req. cbn. now rewrite <- !app_assoc.
Qed.

End DiagramRuns.

Lemma generateArchitectureDiagram_sends_up_to_three_witness :
  exists prompt n,
    architecture_prompt (H := Examples.example_host) (H0 := Scenarios.example_diagram_host)
      (lit "demo") Scenarios.small_repository = Ok prompt
    /\ (1 <= n <= 3)%nat
    /\ fetches (trace (snd (generateArchitectureDiagram (H := Examples.example_host)
                              (H0 := Scenarios.example_diagram_host) Scenarios.server_error
                              (lit "demo") Scenarios.small_repository []
                              (initial_world 5000))))
       = fetches (trace (initial_world 5000)) ++ repeat (diagram_request [] prompt) n.
Proof.
  destruct (architecture_prompt (H := Examples.example_host)
              (H0 := Scenarios.example_diagram_host) (lit "demo") Scenarios.small_repository)
    as [prompt|e] eqn:Hprompt; [|vm_compute in Hprompt; discriminate Hprompt].
  destruct (generateArchitectureDiagram_sends_up_to_three (H := Examples.example_host)
              (H0 := Scenarios.example_diagram_host) Scenarios.server_error
              (lit "demo") Scenarios.small_repository [] prompt (initial_world 5000) Hprompt)
    as (n & Hn & Hsent).
  exists prompt, n. auto.
Defined.

Lemma generateArchitectureDiagram_returns_only_diagrams_witness :
  let E := Examples.answering (lit "```json
{" ++ dq ++ lit "modules" ++ dq ++ lit ":[]}
```") in
  let run := generateArchitectureDiagram (H := Examples.example_host)
               (H0 := Scenarios.example_diagram_host) E
               (lit "demo") Scenarios.small_repository (lit "k") (initial_world 5000) in
  fst run = Ok (render [LHeader; LStyle])
  /\ exists prompt n r body reply data,
       architecture_prompt (H := Examples.example_host)
         (H0 := Scenarios.example_diagram_host) (lit "demo") Scenarios.small_repository
       = Ok prompt
       /\ (0 <= n < 0 + 3)%nat
       /\ requests (snd run) = S n
       /\ respond E n (diagram_request (lit "k") prompt) = Responds r
       /\ ok r = true
       /\ json r = Ok body
       /\ response_text body = JStr reply
       /\ JSON_parse (DiagramHost := Scenarios.example_diagram_host) (clean_json reply)
          = Ok data
       /\ convertJsonToMermaid (H := Examples.example_host) data
          = Ok (render [LHeader; LStyle]).
Proof.
  intros E run.
  assert (Hrun : fst run = Ok (render [LHeader; LStyle])) by (vm_compute; reflexivity).
  split; [exact Hrun|].
  exact (generateArchitectureDiagram_returns_only_diagrams (H := Examples.example_host)
           (H0 := Scenarios.example_diagram_host) E
           (lit "demo") Scenarios.small_repository (lit "k") (render [LHeader; LStyle])
           (initial_world 5000) Hrun).
Defined.

Lemma generateArchitectureDiagram_when_rate_limited_witness :
  exists prompt,
    architecture_prompt (H := Examples.example_host) (H0 := Scenarios.example_diagram_host)
      (lit "demo") Scenarios.small_repository = Ok prompt
    /\ let req := diagram_request (lit "k") prompt in
       let E := Examples.always (Examples.response_of 429 JNull) in
       let run := generateArchitectureDiagram (H := Examples.example_host)
                    (H0 := Scenarios.example_diagram_host) E
                    (lit "demo") Scenarios.small_repository (lit "k") (initial_world 5000) in
       fst run = Throw diagram_rate_limit_error
       /\ trace (snd run)
          = trace (snd (waitForRateLimit E (initial_world 5000)))
            ++ [EvFetch req; EvTimer 4000;
                EvTimer 4000; EvFetch req; EvTimer 8000;
                EvTimer 8000; EvFetch req; EvTimer 16000].
Proof.
  destruct (architecture_prompt (H := Examples.example_host)
              (H0 := Scenarios.example_diagram_host) (lit "demo") Scenarios.small_repository)
    as [prompt|e] eqn:Hprompt; [|vm_compute in Hprompt; discriminate Hprompt].
  exists prompt. split; [reflexivity|].
  apply (generateArchitectureDiagram_when_rate_limited (H := Examples.example_host)
           (H0 := Scenarios.example_diagram_host)
           (Examples.always (Examples.response_of 429 JNull))
           (lit "demo") Scenarios.small_repository (lit "k") prompt (initial_world 5000)
           Hprompt).
  intros n. eexists. repeat split; reflexivity.
Defined.

(** ** The GitHub fetcher *)

Section FetcherProperties.
Context `{JSHost}.
Variable E : env.

(** Induction along the batches: three items at a time. *)
Lemma batches_ind {A : Type} (P : list A -> Prop) :
  P [] -> (forall a, P [a]) -> (forall a b, P [a; b]) ->
  (forall a b c rest, P rest -> P (a :: b :: c :: rest)) ->
  forall data, P data.
Proof.
  intros Hnil Hone Htwo Hstep. fix IH 1.
  intros [|a [|b [|c rest]]];
    [exact Hnil | apply Hone | apply Htwo | apply Hstep, IH].
Qed.

Lemma batches_concat {A : Type} (data : list A) : concat (batches data) = data.
Proof.
  induction data as [| a | a b | a b c rest IH] using batches_ind; try reflexivity.
  cbn [batches concat app]. now rewrite IH.
Qed.

(** X24. The batches of a listing are the listing cut into runs of
    three: put together again they give the listing in its order, no batch
    is empty or has more than three items, and every batch but the last has
    exactly three. *)
Theorem batches_partition {A : Type} (data : list A) :
  concat (batches data) = data
  /\ Forall (fun batch => (1 <= length batch <= 3)%nat) (batches data)
  /\ Forall (fun batch => length batch = 3%nat) (removelast (batches data)).
Proof.
  induction data as [| a | a b | a b c rest (Hconcat & Hsizes & Hfull)] using batches_ind.
  - repeat split; constructor.
  - repeat split; repeat constructor; cbn; lia.
  - repeat split; repeat constructor; cbn; lia.
  - cbn [batches concat]. repeat split.
    + cbn [app]. now rewrite Hconcat.
    + constructor; [cbn; lia | exact Hsizes].
    + destruct (batches rest) as [|batch more] eqn:Hrest; [constructor|].
      change (removelast ([a; b; c] :: batch :: more))
        with ([a; b; c] :: removelast (batch :: more)).
      constructor; [reflexivity | exact Hfull].
Qed.

Lemma mapM_Ok {A B : Type} (f : A -> M B) (items : list A) (ys : list B) (w w' : world) :
  mapM f items w = (Ok ys, w') ->
  Forall2 (fun x y => exists w1 w2, f x w1 = (Ok y, w2)) items ys.
Proof.
  revert ys w. induction items as [|x items IH]; intros ys w; cbn [mapM].
  - intros [= <- _]. constructor.
  - intros Hrun. apply bind_M_Ok in Hrun as (y & w1 & Hy & Hrun).
    apply bind_M_Ok in Hrun as (ys' & w2 & Hys & Hrun).
    injection Hrun as <- <-. constructor; [eauto | eapply IH, Hys].
Qed.

(** What a member of a batch becomes, and where its children come from. *)
Lemma process_item_Ok (recur : jsval -> M TreeNode) (item : jsval) (child : TreeNode)
    (w w' : world) :
  process_item recur item w = (Ok child, w') ->
  (is_dir_item item = false /\ child = file_node item)
  \/ (is_dir_item item = true
      /\ exists sub w1 w2,
           recur (read_prop item (lit "path")) w1 = (Ok sub, w2)
           /\ child = DirNode (read_prop item (lit "name"))
                        (Some (read_prop item (lit "path"))) (children_of sub)).
Proof.
  unfold process_item. intros Hrun.
  apply bind_M_Ok in Hrun as (type_ & w1 & Htype & Hrun).
  unfold lift in Htype. injection Htype as Htype <-.
  apply get_prop_Ok in Htype as (_ & ->). fold (is_dir_item item) in Hrun.
  destruct (is_dir_item item).
  - right. split; [reflexivity|].
    apply bind_M_Ok in Hrun as (sub & w2 & Hsub & Hrun).
    injection Hrun as <- _. eauto.
  - left. injection Hrun as <- _. auto.
Qed.

Lemma process_batches_Ok (recur : jsval -> M TreeNode) (bs : list (list jsval))
    (structure out : list TreeNode) (w w' : world) :
  process_batches recur bs structure w = (Ok out, w') ->
  exists results,
    out = structure ++ results
    /\ Forall2 (fun item child => exists w1 w2, process_item recur item w1 = (Ok child, w2))
         (concat bs) results.
Proof.
  revert structure w. induction bs as [|batch bs IH]; intros structure w;
    cbn [process_batches].
  - intros [= <- _]. exists []. split; [now rewrite app_nil_r | constructor].
  - intros Hrun. apply bind_M_Ok in Hrun as (batchResults & w1 & Hbatch & Hrun).
    apply mapM_Ok in Hbatch. apply IH in Hrun as (results & -> & Hresults).
    exists (batchResults ++ results). split; [now rewrite app_assoc|].
    cbn [concat]. now apply Forall2_app.
Qed.

Lemma processDataArray_Ok (recur : jsval -> M TreeNode) (data : list jsval)
    (repo : jsstring) (path_ : jsval) (node : TreeNode) (w w' : world) :
  processDataArray recur data repo path_ w = (Ok node, w') ->
  exists name_ children,
    node = DirNode name_ (Some path_) children
    /\ Forall2 (fun item child => exists w1 w2, process_item recur item w1 = (Ok child, w2))
         data children.
Proof.
  unfold processDataArray. intros Hrun.
  apply bind_M_Ok in Hrun as (structure & w1 & Hbatches & Hrun).
  apply bind_M_Ok in Hrun as (name_ & w2 & _ & Hrun).
  injection Hrun as <- _.
  apply process_batches_Ok in Hbatches as (results & -> & Hresults).
  rewrite batches_concat in Hresults.
  exists name_, results. auto.
Qed.

(** X25. The children of a directory node stand for the items of its
    listing, one for one and in the order of the listing: the batching
    leaves no trace in the result. *)
Theorem processDataArray_children_in_order (recur : jsval -> M TreeNode)
    (data : list jsval) (repo : jsstring) (path_ : jsval) (node : TreeNode)
    (w w' : world) :
  processDataArray recur data repo path_ w = (Ok node, w') ->
  Forall2 reflects data (children_of node).
Proof.
  intros Hrun. apply processDataArray_Ok in Hrun as (name_ & children & -> & Hchildren).
  cbn [children_of]. eapply Forall2_impl; [exact Hchildren|]. cbn beta.
  intros item child (w1 & w2 & Hitem). unfold reflects.
  apply process_item_Ok in Hitem as [(-> & ->)|(-> & sub & _ & _ & _ & ->)]; eauto.
Qed.





(** X27. The default branch of a repository snapshot is decided by the
    second request alone: it is [main] when that request fails, is answered
    without success or has no readable body, and otherwise whatever the
    body has as [default_branch], which is [undefined], not [main], when
    the body lacks the property. *)
Theorem fetchGitHubRepo_default_branch (repoUrl owner repo : jsstring)
    (snapshot : GitHubRepo) (w w' : world) :
  match_repo_url repoUrl = Some (owner, repo) ->
  fetchGitHubRepo E repoUrl w = (Ok snapshot, w') ->
  default_branch snapshot
  = branch_of (respond E (S (requests w)) (get (repo_url owner repo))).
Proof.
  intros Hmatch. unfold fetchGitHubRepo. rewrite Hmatch. intros Hrun.
  apply bind_M_Ok in Hrun as (response & w1 & Hfetch & Hrun).
  assert (Hw1 : requests w1 = S (requests w)).
  { unfold fetch in Hfetch. injection Hfetch as _ <-. reflexivity. }
  destruct (negb (ok response)).
  { destruct (status response =? 403); [discriminate Hrun|].
    destruct (status response =? 404); discriminate Hrun. }
  apply bind_M_Ok in Hrun as (data & w2 & Hdata & Hrun).
  unfold lift in Hdata. injection Hdata as _ <-.
  apply bind_M_Ok in Hrun as (files_ & w3 & Hfiles & Hrun).
  unfold lift in Hfiles. injection Hfiles as _ <-.
  apply bind_M_Ok in Hrun as (defaultBranch & w4 & Hbranch & Hrun).
  injection Hrun as <- _. cbn [default_branch].
  unfold try_catch, mbind, M_bind, bind, fetch in Hbranch. rewrite Hw1 in Hbranch.
  unfold branch_of.
  destruct (respond E (S (requests w)) (get (repo_url owner repo))) as [r|e];
    [|now injection Hbranch as <- _].
  destruct (ok r); [|now injection Hbranch as <- _].
  unfold lift in Hbranch.
  destruct (json r) as [details|e]; [|now injection Hbranch as <- _].
  unfold get_prop in Hbranch.
  destruct (nullish details); now injection Hbranch as <- _.
Qed.

End FetcherProperties.

Lemma processDataArray_children_in_order_witness :
  exists node,
    fst (processDataArray (H := Examples.example_host)
           (fun _ => ret (DirNode JNull None []))
           [JObj [(lit "name", JStr (lit "a.ts")); (lit "path", JStr (lit "a.ts"));
                  (lit "type", JStr (lit "file"))];
            JObj [(lit "name", JStr (lit "lib")); (lit "path", JStr (lit "lib"));
                  (lit "type", JStr (lit "dir"))]]
           (lit "demo") (JStr []) (initial_world 0)) = Ok node
    /\ Forall2 reflects
         [JObj [(lit "name", JStr (lit "a.ts")); (lit "path", JStr (lit "a.ts"));
                (lit "type", JStr (lit "file"))];
          JObj [(lit "name", JStr (lit "lib")); (lit "path", JStr (lit "lib"));
                (lit "type", JStr (lit "dir"))]]
         (children_of node).
Proof.
  destruct (processDataArray (H := Examples.example_host)
              (fun _ => ret (DirNode JNull None [])) _ (lit "demo") (JStr [])
              (initial_world 0)) as [[node|e] w'] eqn:Hrun;
    [|vm_compute in Hrun; discriminate Hrun].
  exists node. split; [reflexivity|].
  exact (processDataArray_children_in_order (H := Examples.example_host) _ _ _ _ _ _ _ Hrun).
Defined.


(** A directory item without a [path], and a call without one: both levels
    are fetched under the default path, the empty string, and the third
    level is cut by the limit. The nodes keep the [path] of their items. *)
Example pathless_directory_snapshot :
  let root := get (listing_url (lit "octo") (lit "demo") []) in
  let run := fetchCompleteRepoStructure (H := Examples.example_host)
               (Examples.always (Examples.response_of 200 Scenarios.pathless_listing))
               (lit "octo") (lit "demo") JUndefined 2 0 (initial_world 0) in
  fst run
  = Ok (DirNode (JStr (lit "demo")) (Some (JStr []))
          [DirNode (JStr (lit "lib")) (Some JUndefined)
             [DirNode (JStr (lit "lib")) (Some JUndefined) []]])
  /\ trace (snd run) = [EvFetch root; EvTimer 150; EvFetch root].
Proof. vm_compute. split; reflexivity. Qed.

(** A listing whose items have their paths: under the limit 2 the tree has
    its three levels. *)
Example demo_snapshot_height :
  exists node,
    fst (fetchCompleteRepoStructure (H := Examples.example_host)
           (Examples.always (Examples.response_of 200 Examples.demo_listing))
           (lit "octo") (lit "demo") (JStr []) 2 0 (initial_world 0)) = Ok node
    /\ height node = 3%nat.
Proof. eexists. split; [vm_compute; reflexivity|]. reflexivity. Qed.

Lemma fetchGitHubRepo_default_branch_witness :
  exists snapshot,
    fst (fetchGitHubRepo (H := Examples.example_host) Examples.demo_env Examples.demo_url
           (initial_world 0)) = Ok snapshot
    /\ default_branch snapshot = JStr (lit "trunk").
Proof.
  destruct (fetchGitHubRepo (H := Examples.example_host) Examples.demo_env Examples.demo_url
              (initial_world 0)) as [[snapshot|e] w'] eqn:Hrun;
    [|vm_compute in Hrun; discriminate Hrun].
  exists snapshot. split; [reflexivity|].
  exact (fetchGitHubRepo_default_branch (H := Examples.example_host) Examples.demo_env
           Examples.demo_url (lit "octo") (lit "demo") snapshot (initial_world 0) w'
           eq_refl Hrun).
Defined.

(** A details response that succeeds without naming a default branch: the
    snapshot has [undefined] where the other failures give [main]. *)
Example default_branch_may_be_undefined :
  let E := Examples.scripted [Examples.response_of 200 Examples.demo_listing]
             (Examples.response_of 200 (JObj [])) in
  fst (fetchGitHubRepo (H := Examples.example_host) E Examples.demo_url (initial_world 0))
  = Ok {| repo_name := lit "demo"; repo_owner := lit "octo"; repo_path := [];
          default_branch := JUndefined;
          files := List.map file_entry
                     match Examples.demo_listing with JArr items => items | _ => [] end |}.
Proof. vm_compute. reflexivity. Qed.

Section FetcherEdges.
Context `{JSHost}.
Variable E : env.

Lemma match_here_longest (s owner repo : jsstring) :
  match_here s = Some (owner, repo) ->
  exists after,
    s = host_prefix ++ owner ++ [slash] ++ repo ++ after
    /\ (slash ∉ owner) /\ (slash ∉ repo)
    /\ (after = [] \/ exists after', after = slash :: after').
Proof.
  unfold match_here.
  destruct (startsWith s host_prefix) eqn:Hprefix; [|discriminate].
  apply startsWith_app in Hprefix.
  destruct (segment (drop (length host_prefix) s)) as (run1 & rest1) eqn:Hseg1.
  destruct run1 as [|c owner']; [discriminate|].
  destruct rest1 as [|c' rest1]; [discriminate|].
  destruct (segment rest1) as (run2 & rest2) eqn:Hseg2.
  destruct run2 as [|d repo']; [discriminate|].
  intros [= <- <-].
  apply segment_spec in Hseg1 as (Hs1 & Hnotin1 & Hrest1).
  apply segment_spec in Hseg2 as (Hs2 & Hnotin2 & Hrest2).
  destruct Hrest1 as [Hnil|(rest' & Hslash)]; [discriminate|].
  injection Hslash as -> ->.
  exists rest2. cbn [app]. rewrite Hprefix at 1. rewrite Hs1, Hs2.
  repeat split; assumption.
Qed.

(** X28. Of a URL that matches, the owner and the repository are those
    of the leftmost occurrence of [github.com/], and the repository reaches
    as far as it can: up to the next slash or to the end of the URL. A
    trailing [.git] or a query string is part of the repository name. *)
Theorem match_repo_url_leftmost_longest (repoUrl owner repo : jsstring) :
  match_repo_url repoUrl = Some (owner, repo) ->
  exists before after,
    repoUrl = before ++ host_prefix ++ owner ++ [slash] ++ repo ++ after
    /\ (slash ∉ owner) /\ (slash ∉ repo)
    /\ (after = [] \/ exists after', after = slash :: after')
    /\ forall k, (k < length before)%nat -> match_here (drop k repoUrl) = None.
Proof.
  induction repoUrl as [|c s IH].
  - cbn. discriminate.
  - cbn [match_repo_url].
    destruct (match_here (c :: s)) as [[o r]|] eqn:Hhere.
    + intros [= <- <-]. apply match_here_longest in Hhere
        as (after & Hurl & Hnotin1 & Hnotin2 & Hafter).
      exists [], after. repeat split; try assumption. cbn. lia.
    + intros Hlater.
      destruct (IH Hlater) as (before & after & -> & Hnotin1 & Hnotin2 & Hafter & Hleft).
      exists (c :: before), after. repeat split; try assumption.
      intros [|k] Hk; [exact Hhere|]. cbn [drop]. apply Hleft. cbn in Hk. lia.
Qed.

(** A batch without a directory: the file nodes of its items, no effect,
    and no call of the recursion. *)
Lemma mapM_files (recur : jsval -> M TreeNode) (batch : list jsval) (w : world) :
  forallb (fun item => negb (nullish item) && negb (is_dir_item item)) batch = true ->
  mapM (process_item recur) batch w = (Ok (List.map file_node batch), w).
Proof.
  induction batch as [|item batch IH]; [reflexivity|]. cbn [forallb]. intros Hbatch.
  apply andb_prop in Hbatch as (Hitem & Hbatch).
  apply andb_prop in Hitem as (Hnull & Hdir).
  apply negb_true_iff in Hnull, Hdir.
  cbn [mapM List.map]. unfold mbind, M_bind, bind.
  unfold process_item at 1. unfold mbind, M_bind, bind, lift, get_prop.
  rewrite Hnull. fold (is_dir_item item). rewrite Hdir.
  unfold ret at 1. rewrite (IH Hbatch). reflexivity.
Qed.

Lemma process_batches_files (recur : jsval -> M TreeNode) (bs : list (list jsval))
    (structure : list TreeNode) (w : world) :
  forallb (fun item => negb (nullish item) && negb (is_dir_item item)) (concat bs) = true ->
  process_batches recur bs structure w
  = (Ok (structure ++ List.map file_node (concat bs)), w).
Proof.
  revert structure. induction bs as [|batch bs IH]; intros structure; cbn [process_batches].
  - intros _. cbn. now rewrite app_nil_r.
  - cbn [concat]. rewrite forallb_app. intros Hall.
    apply andb_prop in Hall as (Hbatch & Hrest).
    unfold mbind, M_bind, bind. rewrite (mapM_files _ _ _ Hbatch).
    rewrite (IH _ Hrest). now rewrite List.map_app, app_assoc.
Qed.

(** X29. A directory whose listing holds no directory costs one request:
    below the depth limit, a successful listing of files alone gives the
    directory node with one file node per item, in order, after that one
    request and nothing else. *)
Theorem files_only_directory (owner repo p : jsstring) (maxDepth currentDepth : Z)
    (w : world) (r : response) (items : list jsval) :
  currentDepth < maxDepth ->
  let req := get (listing_url owner repo p) in
  let w0 := if currentDepth >? 0 then snd (sleep E 150 w) else w in
  respond E (requests w0) req = Responds r ->
  ok r = true ->
  json r = Ok (JArr items) ->
  forallb (fun item => negb (nullish item) && negb (is_dir_item item)) items = true ->
  fetchCompleteRepoStructure E owner repo (JStr p) maxDepth currentDepth w
  = (Ok (DirNode (JStr (last_segment_or repo p)) (Some (JStr p))
           (List.map file_node items)),
     snd (fetch E req w0)).
Proof.
  intros Hdepth req w0 Hfirst Hok Hjson Hfiles.
  assert (Hguard : (currentDepth >=? maxDepth) = false)
    by (rewrite Z.geb_leb; apply Z.leb_gt; lia).
  rewrite fetchCompleteRepoStructure_unfold by assumption.
  cbn [fetchStructure path_or_default]. rewrite Hguard. unfold structure_level.
  unfold mbind at 1, M_bind at 1, bind at 1.
  assert (Hdelay : (if currentDepth >? 0 then sleep E 150 else ret tt) w = (Ok tt, w0)).
  { unfold w0. destruct (currentDepth >? 0); reflexivity. }
  rewrite Hdelay.
  unfold mbind at 1, M_bind at 1, bind at 1. cbn [ToString lift].
  unfold mbind at 1, M_bind at 1, bind at 1.
  fold req.
  assert (Hw1 : fetch E req w0 = (Ok r, snd (fetch E req w0)))
    by (unfold fetch; rewrite Hfirst; reflexivity).
  rewrite Hw1, Hok. cbn [negb].
  unfold mbind at 1, M_bind at 1, bind at 1. rewrite Hjson.
  cbv beta iota delta [lift].
  unfold processDataArray. unfold mbind, M_bind, bind.
  rewrite process_batches_files by (now rewrite batches_concat).
  rewrite batches_concat. reflexivity.
Qed.

(** X30. A directory listing with an entry that is [null] or [undefined]
    makes [generateDirectoryExplanation] throw a [TypeError] while the
    prompt is built: before the key is looked at, before the rate limiter
    and before any request. *)
Theorem generateDirectoryExplanation_rejects_null_entries
    (dirPath repoName apiKey : jsstring) (dirContents : list jsval) (w : world) :
  existsb nullish dirContents = true ->
  exists te,
    generateDirectoryExplanation E dirPath dirContents repoName apiKey w
    = (Throw (TypeError te), w).
Proof.
  intros Hnull. unfold generateDirectoryExplanation, directory_explanation_prompt.
  assert (Hentries : exists te,
             map_result directory_entry dirContents = Throw (TypeError te)).
  { induction dirContents as [|item items IH]; [discriminate Hnull|].
    cbn [existsb] in Hnull. cbn [map_result].
    assert (Hentry : (exists te, directory_entry item = Throw (TypeError te))
                     \/ (nullish item = false /\ exists s, directory_entry item = Ok s)).
    { unfold directory_entry, get_prop. destruct (nullish item); [left; eauto|].
      unfold mbind, result_bind.
      assert (Htext : forall v, (exists s, ToString v = Ok s)
                                \/ (exists te, ToString v = Throw (TypeError te))).
      { fix Hrec 1. intros [| |b|x|s|vs|props|message]; cbn [ToString]; eauto.
        - induction vs as [|v vs IHvs]; [eauto|].
          assert (Hv : (exists s, (if nullish v then Ok [] else ToString v) = Ok s)
                       \/ (exists te, (if nullish v then Ok [] else ToString v)
                                      = Throw (TypeError te)))
            by (destruct (nullish v); [eauto | apply Hrec]).
          destruct Hv as [(sv & ->)|(te & ->)]; [|eauto].
          destruct vs as [|v' vs']; [eauto|].
          destruct IHvs as [(srest & ->)|(te & ->)]; eauto.
        - destruct (has_own props (lit "toString")); eauto. }
      destruct (Htext (read_prop item (lit "name"))) as [(s1 & ->)|(te & ->)]; [|eauto].
      destruct (Htext (read_prop item (lit "type"))) as [(s2 & ->)|(te & ->)]; eauto. }
    destruct Hentry as [(te & ->)|(Hitem & s & ->)]; [eauto|].
    rewrite Hitem in Hnull. cbn [orb] in Hnull.
    destruct (IH Hnull) as (te & ->). eauto. }
  destruct Hentries as (te & ->). exists te. reflexivity.
Qed.

End FetcherEdges.

Lemma match_repo_url_leftmost_longest_witness :
  exists before after,
    lit "https://github.com/octo/demo.git"
    = before ++ host_prefix ++ lit "octo" ++ [slash] ++ lit "demo.git" ++ after
    /\ (slash ∉ lit "octo") /\ (slash ∉ lit "demo.git")
    /\ (after = [] \/ exists after', after = slash :: after')
    /\ forall k, (k < length before)%nat ->
                 match_here (drop k (lit "https://github.com/octo/demo.git")) = None.
Proof.
  exact (match_repo_url_leftmost_longest (lit "https://github.com/octo/demo.git")
           (lit "octo") (lit "demo.git") eq_refl).
Defined.

Lemma files_only_directory_witness :
  let listing := [JObj [(lit "name", JStr (lit "a.ts")); (lit "path", JStr (lit "src/a.ts"));
                        (lit "type", JStr (lit "file")); (lit "size", jsnum 12)]] in
  fst (fetchCompleteRepoStructure (H := Examples.example_host)
         (Examples.always (Examples.response_of 200 (JArr listing)))
         (lit "octo") (lit "demo") (JStr (lit "src")) 3 1 (initial_world 0))
  = Ok (DirNode (JStr (lit "src")) (Some (JStr (lit "src"))) (List.map file_node listing)).
Proof.
  intros listing.
  exact (f_equal fst
           (files_only_directory (H := Examples.example_host)
              (Examples.always (Examples.response_of 200 (JArr listing)))
              (lit "octo") (lit "demo") (lit "src") 3 1 (initial_world 0)
              (Examples.response_of 200 (JArr listing)) listing
              ltac:(lia) eq_refl eq_refl eq_refl eq_refl)).
Defined.

Lemma generateDirectoryExplanation_rejects_null_entries_witness :
  exists te,
    generateDirectoryExplanation (H := Examples.example_host) Scenarios.server_error
      (lit "src") [JObj [(lit "name", JStr (lit "a.ts"))]; JNull] (lit "demo") []
      (initial_world 0)
    = (Throw (TypeError (H := Examples.example_host) te), initial_world 0).
Proof.
  exact (generateDirectoryExplanation_rejects_null_entries (H := Examples.example_host)
           Scenarios.server_error (lit "src") (lit "demo") []
           [JObj [(lit "name", JStr (lit "a.ts"))]; JNull] (initial_world 0) eq_refl).
Defined.
